(** * Voice-agent relay (src/app.py): a shallow embedding and its properties

    The Flask handler [voice_agent] of src/app.py stages an uploaded audio clip
    in a temporary file, sends it through three external services
    (transcription, chat completion, speech synthesis), each behind tenacity's
    [@retry] decorator, and answers with the reply text and the base64 encoding
    of the synthesized audio.

    The handler is written once, as a program over atomic effects on the
    process's surroundings (temporary directory, external services, clock,
    random generator).  [run] interprets such a program on a [world]; the
    external services are deterministic oracles of an [env].

    The script of the page served at [/] ([HTML_CONTENT]) is the caller of
    the handler: what it posts and what it does with the reply are modelled
    too ([formData], [show_result], [atob]). *)

From Stdlib Require Import QArith Lqa Ascii String.
From Stdlib.Strings Require Import Byte.
From stdpp Require Import base option list strings gmap pretty.

Local Open Scope string_scope.
Local Open Scope list_scope.
Local Open Scope nat_scope.

(** ** Python values *)

(** [bytes] objects. *)
Abbreviation bytes := (list Byte.byte).

(** Exceptions that reach the handler.  [PyExc cls msg] is an instance of the
    class [cls] (a subclass of [Exception]) whose [str] is [msg].
    [RetryError n addr e] is [tenacity.RetryError(last_attempt)] where
    [last_attempt] is the [tenacity.Future] of attempt number [n], located at
    address [addr] and holding the exception [e]. *)
Inductive exn : Type :=
| PyExc (cls msg : string)
| RetryError (attempt_number : nat) (addr : N) (last : exn).

(** Result of a call: a value or a raised exception. *)
Inductive outcome (A : Type) : Type :=
| Ok (a : A)
| Raised (e : exn).
Arguments Ok {A} a.
Arguments Raised {A} e.

Definition exn_class (e : exn) : string :=
  match e with
  | PyExc cls _ => cls
  | RetryError _ _ _ => "RetryError"
  end.

(** ['%x' % n]: lower-case hexadecimal digits of [n]. *)
Definition hex_digit (d : N) : ascii :=
  default "0"%char (String.get (N.to_nat d) "0123456789abcdef").

Fixpoint hex_go (fuel : nat) (n : N) (acc : string) : string :=
  match fuel with
  | O => acc
  | S fuel' =>
      let acc' := String (hex_digit (n mod 16)) acc in
      if (n / 16 =? 0)%N then acc' else hex_go fuel' (n / 16)%N acc'
  end.

Definition hex (n : N) : string := hex_go (S (N.size_nat n)) n "".

(** [Future.__repr__] of a finished future that holds an exception:
    ['<%s at %#x state=%s raised %s>']. *)
Definition repr_future (addr : N) (e : exn) : string :=
  "<Future at 0x" +:+ hex addr +:+ " state=finished raised " +:+ exn_class e +:+ ">".

(** [str(e)].  [RetryError.__str__] is [f"{cls}[{self.last_attempt}]"]. *)
Definition str (e : exn) : string :=
  match e with
  | PyExc _ msg => msg
  | RetryError _ addr last => "RetryError[" +:+ repr_future addr last +:+ "]"
  end.

(** ** base64 (RFC 4648, the standard alphabet, with padding) *)

Module Base64.

Definition alphabet : string :=
  "ABCDEFGHIJKLMNOPQRSTUVWXYZabcdefghijklmnopqrstuvwxyz0123456789+/".

Definition pad : ascii := "="%char.

(** The character of a 6-bit value. *)
Definition char_of (n : N) : ascii :=
  default pad (String.get (N.to_nat n) alphabet).

Fixpoint index_from (i : N) (c : ascii) (s : string) : option N :=
  match s with
  | EmptyString => None
  | String d s' => if Ascii.eqb c d then Some i else index_from (N.succ i) c s'
  end.

(** The 6-bit value of an alphabet character. *)
Definition value_of (c : ascii) : option N := index_from 0 c alphabet.

(** [base64.b64encode]: three bytes become four characters; a tail of one or
    two bytes is padded with [=]. *)
Fixpoint b64encode (bs : bytes) : string :=
  match bs with
  | [] => ""
  | [a] =>
      let x := Byte.to_N a in
      String (char_of (x / 4))
        (String (char_of (x mod 4 * 16))
           (String pad (String pad "")))
  | [a; b] =>
      let x := Byte.to_N a in
      let y := Byte.to_N b in
      String (char_of (x / 4))
        (String (char_of (x mod 4 * 16 + y / 16))
           (String (char_of (y mod 16 * 4))
              (String pad "")))
  | a :: b :: c :: rest =>
      let x := Byte.to_N a in
      let y := Byte.to_N b in
      let z := Byte.to_N c in
      String (char_of (x / 4))
        (String (char_of (x mod 4 * 16 + y / 16))
           (String (char_of (y mod 16 * 4 + z / 64))
              (String (char_of (z mod 64)) (b64encode rest))))
  end%N.

Definition byte_of (n : N) : Byte.byte := default Byte.x00 (Byte.of_N n).

(** The bytes of a group of four 6-bit values. *)
Definition byte1 (p q : N) : Byte.byte := byte_of (p * 4 + q / 16)%N.
Definition byte2 (q r : N) : Byte.byte := byte_of (q mod 16 * 16 + r / 4)%N.
Definition byte3 (r s : N) : Byte.byte := byte_of (r mod 4 * 64 + s)%N.

(** A strict decoder: the text must consist of groups of four alphabet
    characters, the last of which may end in one or two [=], and the bits
    dropped by a padded group must be zero.  What it accepts, the lenient
    [base64.b64decode] and the browser's [atob] accept with the same result. *)
Fixpoint b64decode (s : string) : option bytes :=
  match s with
  | EmptyString => Some []
  | String c1 (String c2 (String c3 (String c4 rest))) =>
      p ← value_of c1;
      q ← value_of c2;
      if Ascii.eqb c4 pad && String.eqb rest "" then
        if Ascii.eqb c3 pad then
          if (q mod 16 =? 0)%N then Some [byte1 p q] else None
        else
          r ← value_of c3;
          if (r mod 4 =? 0)%N then Some [byte1 p q; byte2 q r] else None
      else
        r ← value_of c3;
        s4 ← value_of c4;
        tl ← b64decode rest;
        Some (byte1 p q :: byte2 q r :: byte3 r s4 :: tl)
  | _ => None
  end.

End Base64.

(** ** The OpenAI client's values (the fields the handler reads) *)

Record Transcription := { text : string }.
Record ChatMessage := { role : string; content : string }.
Record Choice := { message : ChatMessage }.
Record ChatCompletion := { choices : list Choice }.

(** ** Flask's request and response *)

(** An uploaded file part ([werkzeug.datastructures.FileStorage]). *)
Record FileStorage := { filename : string; stream : bytes }.

(** [request.files] and [request.form] are multi-dicts: several parts may share
    a name, and indexing returns the first. *)
Record Request := {
  files : list (string * FileStorage);
  form : list (string * string)
}.

(** What a view function returns: a JSON object and a status code. *)
Record Response := { body : gmap string string; status : nat }.

(** [jsonify(d)] for a dict [d] of strings. *)
Definition jsonify (d : list (string * string)) : gmap string string :=
  list_to_map d.

(** [key in request.files] *)
Definition contains {V} (key : string) (d : list (string * V)) : bool :=
  bool_decide (key ∈ d.*1).

(** ** The surroundings of the process *)

(** A call of one of the three [create] methods of the client, as the
    handler makes it.  What the client does inside one call (with
    [max_retries], 2 by default, it sends a failed HTTP request again after a
    pause of its own) is not in the model: the call is one request of the
    handler, answered by the value it returns or the exception it raises. *)
Inductive call : Type :=
| TranscriptionsCreate (model : string) (file : bytes)
| ChatCompletionsCreate (model : string) (messages : list ChatMessage)
| SpeechCreate (model voice input : string).

Inductive stage : Type := Transcribing | Completing | Synthesizing.

Global Instance stage_eq_dec : EqDecision stage.
Proof. solve_decision. Defined.

Definition stage_of (c : call) : stage :=
  match c with
  | TranscriptionsCreate _ _ => Transcribing
  | ChatCompletionsCreate _ _ => Completing
  | SpeechCreate _ _ _ => Synthesizing
  end.

(** The number of requests already sent to the service of stage [s]. *)
Definition calls_to (s : stage) (l : list call) : nat :=
  length (filter (λ c, stage_of c = s) l).

(** The state the handler acts on: the temporary directory, the requests sent
    to the services so far (the calls of the [create] methods, oldest first),
    the pauses the retry decorators have taken so far, and how many random
    numbers they have drawn. *)
Record world := World {
  fs : gmap string bytes;
  calls : list call;
  slept : list Q;
  draws : nat
}.

(** What the handler does not control.  The [n]-th request to a service (from
    0) is answered by the oracle at [n]: with a value, or with an exception of
    the client library.  [random_bits n] is the integer behind the [n]-th
    [random.random()] of the retry decorators; [address n] is the [id] of an
    object that is asked for its address when [n] requests have been sent. *)
Record env := Env {
  transcriptions : nat → bytes → outcome Transcription;
  completions : nat → list ChatMessage → outcome ChatCompletion;
  speech : nat → string → outcome bytes;
  random_bits : nat → N;
  address : nat → N
}.

(** ** Atomic effects *)

Inductive action : Type → Type :=
| NamedTemporaryFile (suffix : string) : action string
| Save (path : string) (data : bytes) : action unit
| ReadAll (path : string) : action bytes
| Remove (path : string) : action unit
| transcriptions_create (model : string) (file : bytes) : action Transcription
| completions_create (model : string) (messages : list ChatMessage) :
    action ChatCompletion
| speech_create (model voice input : string) : action bytes
| Sleep (seconds : Q) : action unit
| RandomRandom : action Q
| Id : action N.

(** The [n]-th candidate name of a temporary file with the given suffix. *)
Definition tmp_name (suffix : string) (n : nat) : string :=
  "/tmp/tmp" +:+ pretty n +:+ suffix.

(** [tempfile.mkstemp]: the candidate names are tried in turn and the first
    that names no existing file is taken.  One more candidate than there are
    existing files is enough, so the last one is taken untested. *)
Fixpoint first_free (suffix : string) (existing : gset string)
    (tries n : nat) : string :=
  let name := tmp_name suffix n in
  match tries with
  | O => name
  | S tries' =>
      if decide (name ∈ existing)
      then first_free suffix existing tries' (S n)
      else name
  end.

Definition mkstemp (suffix : string) (existing : gset string) : string :=
  first_free suffix existing (size existing) 0.

Definition FileNotFoundError (path : string) : exn :=
  PyExc "FileNotFoundError"
    ("[Errno 2] No such file or directory: '" +:+ path +:+ "'").

(** [random.random()]: a 53-bit integer divided by 2^53.  Floats are taken as
    the exact rationals they denote. *)
Definition random_unit (bits : N) : Q :=
  Qmake (Z.of_N (bits mod 2 ^ 53)) (2 ^ 53).

Definition log_call (c : call) (w : world) : world :=
  World (fs w) (calls w ++ [c]) (slept w) (draws w).

Definition set_fs (m : gmap string bytes) (w : world) : world :=
  World m (calls w) (slept w) (draws w).

(** What one atomic effect does to the world, and what it returns.  A call
    of a [create] method is one effect: it is logged once, and it is answered
    by the oracle of its service; [Sleep] is the pause of the retry
    decorator. *)
Definition exec (E : env) {X} (op : action X) (w : world) : outcome X * world :=
  match op in action X return outcome X * world with
  | NamedTemporaryFile suffix =>
      let name := mkstemp suffix (dom (fs w)) in
      (Ok name, set_fs (<[name := []]> (fs w)) w)
  | Save path data =>
      (Ok (), set_fs (<[path := data]> (fs w)) w)
  | ReadAll path =>
      match fs w !! path with
      | Some data => (Ok data, w)
      | None => (Raised (FileNotFoundError path), w)
      end
  | Remove path =>
      match fs w !! path with
      | Some _ => (Ok (), set_fs (delete path (fs w)) w)
      | None => (Raised (FileNotFoundError path), w)
      end
  | transcriptions_create model file =>
      (transcriptions E (calls_to Transcribing (calls w)) file,
       log_call (TranscriptionsCreate model file) w)
  | completions_create model messages =>
      (completions E (calls_to Completing (calls w)) messages,
       log_call (ChatCompletionsCreate model messages) w)
  | speech_create model voice input =>
      (speech E (calls_to Synthesizing (calls w)) input,
       log_call (SpeechCreate model voice input) w)
  | Sleep seconds =>
      (Ok (), World (fs w) (calls w) (slept w ++ [seconds]) (draws w))
  | RandomRandom =>
      (Ok (random_unit (random_bits E (draws w))),
       World (fs w) (calls w) (slept w) (S (draws w)))
  | Id =>
      (Ok (address E (length (calls w))), w)
  end.

(** ** Programs *)

(** A program returns, raises, or performs one effect and goes on with its
    outcome. *)
Inductive prog (A : Type) : Type :=
| Ret (a : A)
| Raise (e : exn)
| Do {X : Type} (op : action X) (k : outcome X → prog A).
Arguments Ret {A} a.
Arguments Raise {A} e.
Arguments Do {A X} op k.

Fixpoint bind {A B} (p : prog A) (f : A → prog B) : prog B :=
  match p with
  | Ret a => f a
  | Raise e => Raise e
  | Do op k => Do op (λ r, bind (k r) f)
  end.

Global Instance prog_ret : MRet prog := @Ret.
Global Instance prog_bind : MBind prog := λ A B f p, bind p f.

(** An effect whose exception propagates. *)
Definition perform {X} (op : action X) : prog X :=
  Do op (λ r, match r with Ok x => Ret x | Raised e => Raise e end).

(** [try: p  except Exception as e: handler e] *)
Fixpoint try_except {A} (p : prog A) (handler : exn → prog A) : prog A :=
  match p with
  | Ret a => Ret a
  | Raise e => handler e
  | Do op k => Do op (λ r, try_except (k r) handler)
  end.

(** Running a program to its end. *)
Fixpoint run {A} (E : env) (p : prog A) (w : world) : outcome A * world :=
  match p with
  | Ret a => (Ok a, w)
  | Raise e => (Raised e, w)
  | Do op k => let '(r, w') := exec E op w in run E (k r) w'
  end.

(** ** tenacity *)

(** [stop_after_attempt(max_attempt_number)]: stop once that many attempts
    have been made. *)
Definition stop_after_attempt (max_attempt_number attempt_number : nat) : bool :=
  bool_decide (max_attempt_number ≤ attempt_number)%nat.

(** [wait_exponential(multiplier, max, exp_base, min)]:
    [max(max(0, min), min(multiplier * exp_base ** (attempt_number - 1), max))]. *)
Definition wait_exponential (multiplier max exp_base min : Z)
    (attempt_number : nat) : Z :=
  Z.max (Z.max 0 min)
    (Z.min (multiplier * exp_base ^ (Z.of_nat attempt_number - 1)) max).

(** [random.uniform(a, b)] is [a + (b - a) * random.random()]. *)
Definition uniform (a b : Q) : prog Q :=
  u ← perform RandomRandom; mret (a + (b - a) * u)%Q.

(** [wait_random_exponential(min, max)]: a random pause between [min] and the
    exponential bound of the attempt, [random.uniform(self.min, high)] with
    [high] the value of [wait_exponential] (the multiplier is 1 and the base
    2 by default).  This is tenacity 9.0.0 and later, the library an
    unpinned requirement resolves to; earlier releases draw from
    [random.uniform(0, high)]. *)
Definition wait_random_exponential (min max : Z) (attempt_number : nat) : prog Q :=
  let high := wait_exponential 1 max 2 min attempt_number in
  uniform (inject_Z min) (inject_Z high).

(** One attempt: the exception of the wrapped function is caught and kept. *)
Definition attempt {A} (fn : prog A) : prog (outcome A) :=
  try_except (a ← fn; mret (Ok a)) (λ e, mret (Raised e)).

(** The loop of [Retrying.__call__] from attempt [attempt_number] on, with
    [left] attempts still allowed after this one.  A result is returned at
    once.  Any exception is retried (the default [retry_if_exception_type()]):
    the wait of this attempt is computed first, then the stop condition is
    checked; when it holds, [left = 0], the loop raises
    [RetryError(last_attempt)] ([reraise] is not set) and the wait is not
    taken; otherwise it sleeps for the wait and tries again. *)
Fixpoint retrying {A} (wait : nat → prog Q) (left attempt_number : nat)
    (fn : prog A) : prog A :=
  r ← attempt fn;
  match r with
  | Ok result => mret result
  | Raised e =>
      seconds ← wait attempt_number;
      match left with
      | O => addr ← perform Id; Raise (RetryError attempt_number addr e)
      | S left' =>
          perform (Sleep seconds);;
          retrying wait left' (S attempt_number) fn
      end
  end.

(** [@retry(wait=wait, stop=stop_after_attempt(max_attempt_number))]: attempts
    are numbered from 1. *)
Definition retry {A} (wait : nat → prog Q) (max_attempt_number : nat)
    (fn : prog A) : prog A :=
  retrying wait (max_attempt_number - 1) 1 fn.

(** ** src/app.py *)

(** The first value of a key in a multi-dict, if any. *)
Definition multidict_get {V} (d : list (string * V)) (key : string) : option V :=
  kv ← List.find (λ kv, String.eqb kv.1 key) d; Some kv.2.

(** [d[key]] on a multi-dict. *)
Definition getitem {V} (d : list (string * V)) (key : string) : prog V :=
  match multidict_get d key with
  | Some v => mret v
  | None =>
      Raise (PyExc "BadRequestKeyError"
        "400 Bad Request: The browser (or proxy) sent a request that this server could not understand.")
  end.

(** [l[0]] *)
Definition first {V} (l : list V) : prog V :=
  match l with
  | x :: _ => mret x
  | [] => Raise (PyExc "IndexError" "list index out of range")
  end.

Definition transcribe_audio (file_path : string) : prog Transcription :=
  retry (wait_random_exponential 1 60) 6
    (f ← perform (ReadAll file_path);
     perform (transcriptions_create "whisper-1" f)).

Definition system_message : ChatMessage :=
  {| role := "system"; content := "You are a helpful voice assistant." |}.

Definition generate_chat_response (user_input : string) : prog ChatCompletion :=
  retry (wait_random_exponential 1 60) 6
    (perform (completions_create "gpt-3.5-turbo"
       [system_message; {| role := "user"; content := user_input |}])).

Definition generate_speech (text : string) : prog bytes :=
  retry (wait_random_exponential 1 60) 6
    (perform (speech_create "tts-1" "alloy" text)).

(** The body of the handler's [try]. *)
Definition pipeline (request : Request) : prog Response :=
  if negb (contains "audio" (files request)) then
    mret {| body := jsonify [("error", "No audio file provided")]; status := 400 |}
  else
    audio_file ← getitem (files request) "audio";
    temp_audio ← perform (NamedTemporaryFile ".wav");
    perform (Save temp_audio (stream audio_file));;
    let temp_audio_path := temp_audio in
    transcription ← transcribe_audio temp_audio_path;
    let user_input := text transcription in
    chat_response ← generate_chat_response user_input;
    choice ← first (choices chat_response);
    let text_response := content (message choice) in
    temp_speech ← perform (NamedTemporaryFile ".mp3");
    speech_response ← generate_speech text_response;
    perform (Save temp_speech speech_response);;
    let temp_speech_path := temp_speech in
    audio_data ← perform (ReadAll temp_speech_path);
    let audio_base64 := Base64.b64encode audio_data in
    perform (Remove temp_audio_path);;
    perform (Remove temp_speech_path);;
    mret {| body := jsonify [("text_response", text_response);
                             ("audio_base64", audio_base64)];
            status := 200 |}.

(** [POST /voice-agent] *)
Definition voice_agent (request : Request) : prog Response :=
  try_except (pipeline request)
    (λ e, mret {| body := jsonify [("error", str e)]; status := 500 |}).

(** The rest of [pipeline] from the completion request on, from the line
    that reads the first choice on, and from the line that saves the speech
    on: [pipeline] is [transcribe_audio] followed by [complete]. *)
Definition respond (temp_audio_path text_response temp_speech : string)
    (speech_response : bytes) : prog Response :=
  perform (Save temp_speech speech_response);;
  audio_data ← perform (ReadAll temp_speech);
  perform (Remove temp_audio_path);;
  perform (Remove temp_speech);;
  mret {| body := jsonify [("text_response", text_response);
                           ("audio_base64", Base64.b64encode audio_data)];
          status := 200 |}.

Definition synthesize (temp_audio_path : string)
    (chat_response : ChatCompletion) : prog Response :=
  choice ← first (choices chat_response);
  temp_speech ← perform (NamedTemporaryFile ".mp3");
  speech_response ← generate_speech (content (message choice));
  respond temp_audio_path (content (message choice)) temp_speech
    speech_response.

Definition complete (temp_audio_path : string)
    (transcription : Transcription) : prog Response :=
  chat_response ← generate_chat_response (text transcription);
  synthesize temp_audio_path chat_response.

(** ** Vocabulary of the statements *)

(** A service, as one call of the handler meets it, is the sequence of its
    answers from now on.  This one answers the next [j] requests with
    exceptions. *)
Definition fails_through {A} (svc : nat → outcome A) (j : nat) : Prop :=
  ∀ k, k < j → ∃ e, svc k = Raised e.

(** The bounds [min=1], [max=60] of the retry policy. *)
Definition pause_ok (seconds : Q) : Prop := (1 <= seconds <= 60)%Q.

(** [w'] is [w] after some steps that left the temporary directory as [m],
    sent the requests [new] and paused [pauses] times, each time within the
    bounds. *)
Record after (w w' : world) (m : gmap string bytes) (new : list call)
    (pauses : nat) : Prop := {
  after_fs : fs w' = m;
  after_calls : calls w' = calls w ++ new;
  after_slept :
    ∃ qs, slept w' = slept w ++ qs ∧ length qs = pauses ∧ Forall pause_ok qs
}.

(** Within its budget of six attempts the service answers with [v], at
    attempt [S j], after [j] failures. *)
Definition answers {A} (svc : nat → outcome A) (j : nat) (v : A) : Prop :=
  j < 6 ∧ fails_through svc j ∧ svc j = Ok v.

(** The service fails all six attempts of the budget, the last one with [e]. *)
Definition exhausts {A} (svc : nat → outcome A) (e : exn) : Prop :=
  fails_through svc 6 ∧ svc 5 = Raised e.

(** Randomized exponential backoff with a floor of 1 and a ceiling of 60
    seconds: the pause that follows failure [k] (from 0) of a wrapped call,
    chosen by the [d]-th random number [u], is [1 + (min(2 ^ k, 60) - 1) * u],
    uniform between 1 and [min(2 ^ k, 60)]. *)
Definition backoff_pause (E : env) (d k : nat) : Q :=
  (1 + (inject_Z (Z.min (2 ^ Z.of_nat k) 60) - 1) *
       random_unit (random_bits E d))%Q.

(** The first [j] pauses of a wrapped call that starts when [d] random
    numbers have been drawn: a random number of its own for each. *)
Definition backoffs (E : env) (d j : nat) : list Q :=
  (λ k, backoff_pause E (d + k) k) <$> seq 0 j.

(** The wrapped function [p], which sends the request [c] to the service
    [svc], retries from the world [w] as the policy says.  When the service
    answers with [v] after [j] failures, within the budget, [p] returns [v]
    after [S j] requests and the [j] pauses of the backoff.  When the service
    fails six times, [p] raises [RetryError] around the sixth exception after
    six requests and five pauses; a sixth random number has been drawn for a
    pause that is not taken. *)
Definition retries {A} (E : env) (p : prog A) (svc : nat → outcome A)
    (c : call) (w : world) : Prop :=
  (∀ j v,
     answers svc j v →
     ∃ w',
       run E p w = (Ok v, w') ∧
       fs w' = fs w ∧
       calls w' = calls w ++ replicate (S j) c ∧
       slept w' = slept w ++ backoffs E (draws w) j ∧
       draws w' = draws w + j) ∧
  (∀ e,
     exhausts svc e →
     ∃ w' addr,
       run E p w = (Raised (RetryError 6 addr e), w') ∧
       fs w' = fs w ∧
       calls w' = calls w ++ replicate 6 c ∧
       slept w' = slept w ++ backoffs E (draws w) 5 ∧
       draws w' = draws w + 6).

(** The messages of a completion request: the system instruction, then the
    user's text. *)
Definition chat_messages (user_input : string) : list ChatMessage :=
  [system_message; {| role := "user"; content := user_input |}].

(** The requests the three wrapped functions send. *)
Definition transcription_request (audio : bytes) : call :=
  TranscriptionsCreate "whisper-1" audio.
Definition completion_request (user_input : string) : call :=
  ChatCompletionsCreate "gpt-3.5-turbo" (chat_messages user_input).
Definition speech_request (text : string) : call :=
  SpeechCreate "tts-1" "alloy" text.

(** The three services as they answer one request of the handler, started in
    the world [w]: the oracle of each from the number of requests it has
    already received. *)
Section services.
Context (E : env) (w : world).

Definition stt (audio : bytes) (n : nat) : outcome Transcription :=
  transcriptions E (calls_to Transcribing (calls w) + n) audio.
Definition chat (user_input : string) (n : nat) : outcome ChatCompletion :=
  completions E (calls_to Completing (calls w) + n) (chat_messages user_input).
Definition tts (text : string) (n : nat) : outcome bytes :=
  speech E (calls_to Synthesizing (calls w) + n) text.
End services.

(** The error response of the handler's [except] branch. *)
Definition error_response (e : exn) : Response :=
  {| body := jsonify [("error", str e)]; status := 500 |}.

(** The successful response. *)
Definition success_response (text_response : string) (speech_audio : bytes) :
    Response :=
  {| body := jsonify [("text_response", text_response);
                      ("audio_base64", Base64.b64encode speech_audio)];
     status := 200 |}.

(** The stage [s] of the request is reached, the stages before it having
    been answered within their budgets, and exhausts its own budget, the last
    attempt failing with [e]. *)
Inductive exhausted_at (E : env) (request : Request) (w : world) :
    stage → exn → Prop :=
| exhausted_transcribing audio_file e :
    multidict_get (files request) "audio" = Some audio_file →
    exhausts (stt E w (stream audio_file)) e →
    exhausted_at E request w Transcribing e
| exhausted_completing audio_file j1 t e :
    multidict_get (files request) "audio" = Some audio_file →
    answers (stt E w (stream audio_file)) j1 t →
    exhausts (chat E w (text t)) e →
    exhausted_at E request w Completing e
| exhausted_synthesizing audio_file j1 t j2 c choice e :
    multidict_get (files request) "audio" = Some audio_file →
    answers (stt E w (stream audio_file)) j1 t →
    answers (chat E w (text t)) j2 c →
    head (choices c) = Some choice →
    exhausts (tts E w (content (message choice))) e →
    exhausted_at E request w Synthesizing e.

(** All three stages of the request are answered within their budgets: the
    transcript [t] after [j1] failures, the completion [c], whose first choice
    is [choice], after [j2], and the speech [speech_audio] after [j3]. *)
Record all_answered (E : env) (request : Request) (w : world)
    (audio_file : FileStorage) (j1 : nat) (t : Transcription)
    (j2 : nat) (c : ChatCompletion) (choice : Choice)
    (j3 : nat) (speech_audio : bytes) : Prop := {
  answered_upload : multidict_get (files request) "audio" = Some audio_file;
  answered_stt : answers (stt E w (stream audio_file)) j1 t;
  answered_chat : answers (chat E w (text t)) j2 c;
  answered_choice : head (choices c) = Some choice;
  answered_tts : answers (tts E w (content (message choice))) j3 speech_audio
}.

(** The requests of a run, stage after stage. *)
Definition requests_sent (audio : bytes) (n1 : nat) (user_input : string)
    (n2 : nat) (text_response : string) (n3 : nat) : list call :=
  replicate n1 (transcription_request audio) ++
  replicate n2 (completion_request user_input) ++
  replicate n3 (speech_request text_response).

(** A list of requests is in stage order: transcriptions, then completions,
    then speech. *)
Definition in_stage_order (l : list call) : Prop :=
  ∃ l1 l2 l3,
    l = l1 ++ l2 ++ l3 ∧
    Forall (λ c, stage_of c = Transcribing) l1 ∧
    Forall (λ c, stage_of c = Completing) l2 ∧
    Forall (λ c, stage_of c = Synthesizing) l3.

(** ** Two requests at once *)

(** What one request sees of the services: the requests it has sent, its
    pauses, and how many random numbers it has drawn.  The
    services answer the requests of one handler run from its own view; the
    temporary directory is shared by all runs. *)
Record view := View {
  view_calls : list call;
  view_slept : list Q;
  view_draws : nat
}.

Definition world_of (m : gmap string bytes) (v : view) : world :=
  World m (view_calls v) (view_slept v) (view_draws v).

Definition view_of (w : world) : view :=
  View (calls w) (slept w) (draws w).

(** A request being served: what is left of its handler, and its view. *)
Definition thread : Type := prog Response * view.

(** The next atomic effect of a thread, on the shared temporary directory. *)
Definition step (E : env) (shared : gmap string bytes) (t : thread) :
    gmap string bytes * thread :=
  match t.1 with
  | Do op k =>
      let '(r, w') := exec E op (world_of shared t.2) in
      (fs w', (k r, view_of w'))
  | _ => (shared, t)
  end.

(** Two threads under a schedule: [true] lets the first thread take a step,
    [false] the second. *)
Fixpoint interleave (E : env) (schedule : list bool)
    (shared : gmap string bytes) (t1 t2 : thread) :
    gmap string bytes * thread * thread :=
  match schedule with
  | [] => (shared, t1, t2)
  | true :: schedule' =>
      let '(shared', t1') := step E shared t1 in
      interleave E schedule' shared' t1' t2
  | false :: schedule' =>
      let '(shared', t2') := step E shared t2 in
      interleave E schedule' shared' t1 t2'
  end.

(** The number of steps a schedule gives to the first ([true]) or second
    ([false]) thread. *)
Definition turns (b : bool) (schedule : list bool) : nat :=
  length (filter (λ x, x = b) schedule).

(** The response a thread has returned, if it has. *)
Definition returned (t : thread) : option Response :=
  match t.1 with
  | Ret response => Some response
  | _ => None
  end.

(** ** Vocabulary of the proofs *)

(** The service [svc] of the request [c], as met from the world [w]: its
    answers from the number of requests of that stage already sent. *)
Definition from {A} (svc : nat → outcome A) (c : call) (w : world) (k : nat) :
    outcome A :=
  svc (calls_to (stage_of c) (calls w) + k).

(** The candidates tried before the [n]-th. *)
Definition tried (suffix : string) (n : nat) : gset string :=
  list_to_set (tmp_name suffix <$> seq 0 n).

(** The response and the final world of a request, case by case: no upload;
    a stage that exhausts its budget; a completion without choices; three
    answers. *)
Inductive served (E : env) (request : Request) (w : world) :
    Response → world → Prop :=
| served_no_audio :
    contains "audio" (files request) = false →
    served E request w
      {| body := jsonify [("error", "No audio file provided")];
         status := 400 |} w
| served_transcription_exhausted audio_file e addr w' :
    multidict_get (files request) "audio" = Some audio_file →
    exhausts (stt E w (stream audio_file)) e →
    after w w'
      (<[mkstemp ".wav" (dom (fs w)) := stream audio_file]> (fs w))
      (requests_sent (stream audio_file) 6 "" 0 "" 0) 5 →
    served E request w (error_response (RetryError 6 addr e)) w'
| served_completion_exhausted audio_file j1 t e addr w' :
    multidict_get (files request) "audio" = Some audio_file →
    answers (stt E w (stream audio_file)) j1 t →
    exhausts (chat E w (text t)) e →
    after w w'
      (<[mkstemp ".wav" (dom (fs w)) := stream audio_file]> (fs w))
      (requests_sent (stream audio_file) (S j1) (text t) 6 "" 0) (j1 + 5) →
    served E request w (error_response (RetryError 6 addr e)) w'
| served_no_choice audio_file j1 t j2 c w' :
    multidict_get (files request) "audio" = Some audio_file →
    answers (stt E w (stream audio_file)) j1 t →
    answers (chat E w (text t)) j2 c →
    choices c = [] →
    after w w'
      (<[mkstemp ".wav" (dom (fs w)) := stream audio_file]> (fs w))
      (requests_sent (stream audio_file) (S j1) (text t) (S j2) "" 0)
      (j1 + j2) →
    served E request w
      (error_response (PyExc "IndexError" "list index out of range")) w'
| served_synthesis_exhausted audio_file j1 t j2 c choice e addr w' :
    multidict_get (files request) "audio" = Some audio_file →
    answers (stt E w (stream audio_file)) j1 t →
    answers (chat E w (text t)) j2 c →
    head (choices c) = Some choice →
    exhausts (tts E w (content (message choice))) e →
    (let staged :=
       <[mkstemp ".wav" (dom (fs w)) := stream audio_file]> (fs w) in
     after w w' (<[mkstemp ".mp3" (dom staged) := []]> staged)
       (requests_sent (stream audio_file) (S j1) (text t) (S j2)
          (content (message choice)) 6)
       (j1 + j2 + 5)) →
    served E request w (error_response (RetryError 6 addr e)) w'
| served_success audio_file j1 t j2 c choice j3 speech_audio w' :
    all_answered E request w audio_file j1 t j2 c choice j3 speech_audio →
    after w w' (fs w)
      (requests_sent (stream audio_file) (S j1) (text t) (S j2)
         (content (message choice)) (S j3))
      (j1 + j2 + j3) →
    served E request w
      (success_response (content (message choice)) speech_audio) w'.

(** The response of the handler for an outcome of its [try] body. *)
Definition response_of (r : outcome Response) : Response :=
  match r with
  | Ok response => response
  | Raised e => error_response e
  end.

(** [owned E p o v Q]: the thread [p] with view [v], which has created and
    not yet removed the files [o], touches no file but its own, whatever
    names its new temporary files get, and ends with [Q]. *)
Fixpoint owned (E : env) {A} (p : prog A) (o : gmap string bytes) (v : view)
    (Q : outcome A → gmap string bytes → view → Prop) : Prop :=
  match p with
  | Ret a => Q (Ok a) o v
  | Raise e => Q (Raised e) o v
  | Do op k =>
      match op in action X return (outcome X → prog A) → Prop with
      | NamedTemporaryFile suffix => λ k,
          ∀ name, o !! name = None → owned E (k (Ok name)) (<[name := []]> o) v Q
      | Save path data => λ k,
          is_Some (o !! path) ∧ owned E (k (Ok ())) (<[path := data]> o) v Q
      | ReadAll path => λ k,
          ∃ data, o !! path = Some data ∧ owned E (k (Ok data)) o v Q
      | Remove path => λ k,
          is_Some (o !! path) ∧ owned E (k (Ok ())) (delete path o) v Q
      | transcriptions_create model file => λ k,
          let rw := exec E (transcriptions_create model file) (world_of ∅ v) in
          owned E (k rw.1) o (view_of rw.2) Q
      | completions_create model messages => λ k,
          let rw := exec E (completions_create model messages) (world_of ∅ v) in
          owned E (k rw.1) o (view_of rw.2) Q
      | speech_create model voice input => λ k,
          let rw := exec E (speech_create model voice input) (world_of ∅ v) in
          owned E (k rw.1) o (view_of rw.2) Q
      | Sleep seconds => λ k,
          let rw := exec E (Sleep seconds) (world_of ∅ v) in
          owned E (k rw.1) o (view_of rw.2) Q
      | RandomRandom => λ k,
          let rw := exec E RandomRandom (world_of ∅ v) in
          owned E (k rw.1) o (view_of rw.2) Q
      | Id => λ k,
          let rw := exec E Id (world_of ∅ v) in
          owned E (k rw.1) o (view_of rw.2) Q
      end k
  end.

(** [reads R p]: the only file effects of [p] are reads of files of [R]. *)
Fixpoint reads (R : gmap string bytes) {A} (p : prog A) : Prop :=
  match p with
  | Ret _ | Raise _ => True
  | Do op k =>
      match op in action X return (outcome X → prog A) → Prop with
      | NamedTemporaryFile _ | Save _ _ | Remove _ => λ _, False
      | ReadAll path => λ k, is_Some (R !! path) ∧ ∀ r, reads R (k r)
      | _ => λ k, ∀ r, reads R (k r)
      end k
  end.

(** [within n p]: [p] ends after at most [n] atomic effects. *)
Fixpoint within (n : nat) {A} (p : prog A) {struct p} : Prop :=
  match p with
  | Ret _ | Raise _ => True
  | Do op k =>
      match n with
      | O => False
      | S n' => ∀ r, within n' (k r)
      end
  end.

(** [lasts n m p]: [p] returns after at most [n] atomic effects, or raises
    after at most [m]. *)
Fixpoint lasts (n m : Z) {A} (p : prog A) : Prop :=
  match p with
  | Ret _ => (0 ≤ n)%Z
  | Raise _ => (0 ≤ m)%Z
  | Do op k => ∀ r, lasts (n - 1) (m - 1) (k r)
  end.

(** The pauses of the retry loop from the attempt that follows failure [i]
    on. *)
Definition backoffs_from (E : env) (d i j : nat) : list Q :=
  (λ k, backoff_pause E (d + k) (i + k)) <$> seq 0 j.

(** ** The page served at [/] (the script of HTML_CONTENT) *)

(** ASCII whitespace: tab, line feed, form feed, carriage return, space. *)
Definition ascii_whitespace (c : ascii) : bool :=
  bool_decide (c ∈ ["009"; "010"; "012"; "013"; " "]%char).

(** Removes one or two [=] at the end. *)
Fixpoint remove_padding (data : list ascii) : list ascii :=
  match data with
  | [] => []
  | c :: data' =>
      if Ascii.eqb c Base64.pad &&
         match data' with
         | [] => true
         | [d] => Ascii.eqb d Base64.pad
         | _ => false
         end
      then []
      else c :: remove_padding data'
  end.

(** The bytes of a sequence of 6-bit values, the most significant bits
    first; the 4 or 2 bits left over by a last group of two or three values
    are dropped. *)
Fixpoint octets (values : list N) : bytes :=
  match values with
  | p :: q :: r :: s :: rest =>
      Base64.byte1 p q :: Base64.byte2 q r :: Base64.byte3 r s :: octets rest
  | [p; q; r] => [Base64.byte1 p q; Base64.byte2 q r]
  | [p; q] => [Base64.byte1 p q]
  | _ => []
  end.

(** [atob(data)]: the forgiving base64 decoding of the HTML standard.
    Whitespace is removed; when the length is then a multiple of 4, one or
    two [=] at the end are removed; a length of 1 modulo 4 and any character
    outside the alphabet are refused ([None] is the [InvalidCharacterError]).
    The result is a binary string, one character for each byte. *)
Definition atob (data : string) : option string :=
  let data :=
    filter (λ c, ascii_whitespace c = false) (list_ascii_of_string data) in
  let data :=
    if decide (length data mod 4 = 0) then remove_padding data else data in
  if decide (length data mod 4 = 1) then None
  else
    values ← mapM Base64.value_of data;
    Some (string_of_list_ascii (ascii_of_byte <$> octets values)).

(** The value of a property of the reply, [undefined] when the object has no
    such property: as a condition, and as a string. *)
Definition ToBoolean (v : option string) : bool :=
  match v with
  | Some s => negb (String.eqb s "")
  | None => false
  end.

Definition ToString (v : option string) : string :=
  match v with
  | Some s => s
  | None => "undefined"
  end.

(** What the script has put on the page: the text of [#status] and the audio
    it has handed to [#audioPlayback] to play. *)
Record page := Page {
  status_textContent : string;
  audioPlayback_src : option bytes
}.

(** The request of [fetch('/voice-agent', {method: 'POST', body: formData})],
    the recorded chunks being appended as the file [recording.wav] of the
    field [audio]. *)
Definition formData (audioChunks : list bytes) : Request :=
  {| files := [("audio", {| filename := "recording.wav";
                            stream := List.concat audioChunks |})];
     form := [] |}.

(** [audioArray[i] = audioData.charCodeAt(i)] for every [i]. *)
Definition audioArray (audioData : string) : bytes :=
  byte_of_ascii <$> list_ascii_of_string audioData.

(** The rest of [mediaRecorder.onstop], from the parsed reply [result] on.
    When [atob] throws, the script stops with the status text already set. *)
Definition show_result (result : gmap string string) (p : page) : page :=
  if ToBoolean (result !! "error") then
    {| status_textContent := "Error: " +:+ ToString (result !! "error");
       audioPlayback_src := audioPlayback_src p |}
  else
    let text := "Response: " +:+ ToString (result !! "text_response") in
    match atob (ToString (result !! "audio_base64")) with
    | Some audioData =>
        {| status_textContent := text;
           audioPlayback_src := Some (audioArray audioData) |}
    | None =>
        {| status_textContent := text;
           audioPlayback_src := audioPlayback_src p |}
    end.

(** ** Pauses and encodings, for the statements and the proofs *)

(** The sum of a list of pauses. *)
Definition total (qs : list Q) : Q := foldr Qplus 0%Q qs.


(** [w'] is [w] after at most [k] pauses, each of between 1 and 16 seconds,
    of at most [bound] seconds in all; a random number has been drawn for
    each pause, and [extra] more. *)
Definition pauses (k bound extra : nat) (w w' : world) : Prop :=
  ∃ qs,
    slept w' = slept w ++ qs ∧
    length qs ≤ k ∧
    Forall (λ q, (1 <= q <= 16)%Q) qs ∧
    (total qs <= inject_Z (Z.of_nat bound))%Q ∧
    draws w' = draws w + length qs + extra.

(** [p] pauses as [pauses] says, whatever the world it starts from, with
    one random number more than pauses at most, and none more when it
    returns. *)
Definition pausing (E : env) {A} (k bound : nat) (p : prog A) : Prop :=
  ∀ w,
    ∃ extra,
      pauses k bound extra w (run E p w).2 ∧
      extra ≤ 1 ∧
      (∀ a, (run E p w).1 = Ok a → extra = 0).

(** [p] neither pauses nor draws a random number. *)
Definition quiet (E : env) {A} (p : prog A) : Prop :=
  ∀ w, slept (run E p w).2 = slept w ∧ draws (run E p w).2 = draws w.

(** The 6-bit values of the encoding of a byte string. *)
Fixpoint sextets (bs : bytes) : list N :=
  match bs with
  | [] => []
  | [a] =>
      let x := Byte.to_N a in
      [x / 4; x mod 4 * 16]
  | [a; b] =>
      let x := Byte.to_N a in
      let y := Byte.to_N b in
      [x / 4; x mod 4 * 16 + y / 16; y mod 16 * 4]
  | a :: b :: c :: rest =>
      let x := Byte.to_N a in
      let y := Byte.to_N b in
      let z := Byte.to_N c in
      x / 4 :: x mod 4 * 16 + y / 16 :: y mod 16 * 4 + z / 64 :: z mod 64 ::
      sextets rest
  end%N.

(** The number of [=] at the end of the encoding of [n] bytes. *)
Definition padding (n : nat) : nat := (3 - n mod 3) mod 3.

(** ** Sample surroundings *)

Definition w_empty : world := World ∅ [] [] 0.

Definition connection_error : exn :=
  PyExc "APIConnectionError" "Connection error.".

Definition reply (text_response : string) : ChatCompletion :=
  {| choices := [ {| message := {| role := "assistant";
                                   content := text_response |} |} ] |}.

(** Every service answers at once. *)
Definition E_up : env := {|
  transcriptions _ _ := Ok {| text := "What time is it?" |};
  completions _ _ := Ok (reply "It is noon.");
  speech _ _ := Ok [x49; x44; x33];
  random_bits _ := (2 ^ 52)%N;
  address _ := 139876543210000%N
|}.

(** The transcription service is unreachable. *)
Definition E_down : env := {|
  transcriptions _ _ := Raised connection_error;
  completions _ _ := Ok (reply "It is noon.");
  speech _ _ := Ok [x49; x44; x33];
  random_bits _ := (2 ^ 52)%N;
  address _ := 139876543210000%N
|}.

(** The speech service fails its first [k] requests. *)
Definition E_flaky (k : nat) : env := {|
  transcriptions _ _ := Ok {| text := "What time is it?" |};
  completions _ _ := Ok (reply "It is noon.");
  speech n _ := if decide (n < k) then Raised connection_error
                else Ok [x49; x44; x33];
  random_bits _ := (2 ^ 52)%N;
  address _ := 139876543210000%N
|}.

(** The services answer, with an empty reply and an empty audio. *)
Definition E_mute : env := {|
  transcriptions _ _ := Ok {| text := "" |};
  completions _ _ := Ok (reply "");
  speech _ _ := Ok [];
  random_bits _ := (2 ^ 52)%N;
  address _ := 139876543210000%N
|}.

Definition recording : FileStorage :=
  {| filename := "recording.wav"; stream := [x52; x49; x46; x46] |}.

Definition sample_request : Request :=
  {| files := [("audio", recording)]; form := [] |}.

(** An upload whose audio part has no bytes. *)
Definition empty_request : Request :=
  {| files := [("audio", {| filename := "recording.wav"; stream := [] |})];
     form := [] |}.

(** A request with other parts, none of them a file named [audio]. *)
Definition no_audio_request : Request :=
  {| files := [("file", recording)]; form := [("audio", "recording.wav")] |}.

(** The completion service answers with no choice at all. *)
Definition E_no_choice : env := {|
  transcriptions _ _ := Ok {| text := "What time is it?" |};
  completions _ _ := Ok {| choices := [] |};
  speech _ _ := Ok [x49; x44; x33];
  random_bits _ := (2 ^ 52)%N;
  address _ := 139876543210000%N
|}.

(** Two audio parts, a part of another name and a form field. *)
Definition crowded_request : Request :=
  {| files := [("file", {| filename := "notes.txt"; stream := [x68; x69] |});
               ("audio", {| filename := "../../etc/passwd";
                            stream := [x52; x49; x46; x46] |});
               ("audio", {| filename := "second.wav"; stream := [x00] |})];
     form := [("audio", "recording.wav")] |}.

(** * Properties *)

Example b64encode_Man :
  Base64.b64encode [Byte.x4d; Byte.x61; Byte.x6e] = "TWFu".
Proof. reflexivity. Qed.

Example b64encode_Ma :
  Base64.b64encode [Byte.x4d; Byte.x61] = "TWE=".
Proof. reflexivity. Qed.

Example b64encode_M :
  Base64.b64encode [Byte.x4d] = "TQ==".
Proof. reflexivity. Qed.

Example b64decode_Man :
  Base64.b64decode "TWFu" = Some [Byte.x4d; Byte.x61; Byte.x6e].
Proof. reflexivity. Qed.

Example b64decode_bad : Base64.b64decode "TWF" = None.
Proof. reflexivity. Qed.

Example hex_255 : hex 255 = "ff".
Proof. reflexivity. Qed.

Example hex_0 : hex 0 = "0".
Proof. reflexivity. Qed.

Example hex_addr : hex 139876543210000 = "7f378baba210".
Proof. vm_compute. reflexivity. Qed.

(** ** base64 round trip *)

Section Base64_facts.
Import Base64.
Local Open Scope N_scope.

Lemma value_of_char_of n : n < 64 → value_of (char_of n) = Some n.
Proof.
  intros Hn. rewrite <- (N2Nat.id n).
  assert (Hk : (N.to_nat n < 64)%nat) by lia.
  revert Hk. generalize (N.to_nat n). intros k Hk.
  do 64 (destruct k as [|k]; [reflexivity|]). lia.
Qed.

Lemma char_of_not_pad n : n < 64 → Ascii.eqb (char_of n) pad = false.
Proof.
  intros Hn. rewrite <- (N2Nat.id n).
  assert (Hk : (N.to_nat n < 64)%nat) by lia.
  revert Hk. generalize (N.to_nat n). intros k Hk.
  do 64 (destruct k as [|k]; [reflexivity|]). lia.
Qed.

Lemma to_N_lt (b : Byte.byte) : Byte.to_N b < 256.
Proof. pose proof (Byte.to_N_bounded b). lia. Qed.

Lemma byte_of_to_N (b : Byte.byte) : byte_of (Byte.to_N b) = b.
Proof. unfold byte_of. by rewrite Byte.of_to_N. Qed.

Ltac euclid := intros; zify; Z.to_euclidean_division_equations; lia.

Lemma byte1_group x y :
  x < 256 → y < 256 → (x / 4) * 4 + (x mod 4 * 16 + y / 16) / 16 = x.
Proof. euclid. Qed.

Lemma byte2_group x y z :
  y < 256 → z < 256 →
  (x mod 4 * 16 + y / 16) mod 16 * 16 + (y mod 16 * 4 + z / 64) / 4 = y.
Proof. euclid. Qed.

Lemma byte3_group y z :
  z < 256 → (y mod 16 * 4 + z / 64) mod 4 * 64 + z mod 64 = z.
Proof. euclid. Qed.

Local Arguments char_of : simpl never.
Local Arguments value_of : simpl never.
Local Arguments N.div : simpl never.
Local Arguments N.modulo : simpl never.
Local Arguments N.mul : simpl never.
Local Arguments N.add : simpl never.

(** Decoding undoes encoding, for every byte string. *)
Lemma b64decode_b64encode (bs : bytes) : b64decode (b64encode bs) = Some bs.
Proof.
  remember (length bs) as n eqn:Hn. revert bs Hn.
  induction n as [n IH] using lt_wf_ind. intros bs Hn.
  destruct bs as [|a [|b [|c rest]]]; [reflexivity|..].
  - pose proof (to_N_lt a) as Ha. cbn [b64encode b64decode].
    rewrite !value_of_char_of by euclid. cbn.
    replace (_ mod 16 =? 0) with true by (symmetry; apply N.eqb_eq; euclid).
    unfold byte1. replace (_ + _) with (Byte.to_N a) by euclid.
    by rewrite byte_of_to_N.
  - pose proof (to_N_lt a) as Ha. pose proof (to_N_lt b) as Hb.
    cbn [b64encode b64decode].
    rewrite !value_of_char_of, char_of_not_pad by euclid. cbn.
    replace (_ mod 4 =? 0) with true by (symmetry; apply N.eqb_eq; euclid).
    unfold byte1, byte2. rewrite byte1_group by done.
    replace (Byte.to_N b mod 16 * 4) with (Byte.to_N b mod 16 * 4 + 0 / 64)
      by euclid.
    rewrite byte2_group by done.
    by rewrite !byte_of_to_N.
  - pose proof (to_N_lt a) as Ha. pose proof (to_N_lt b) as Hb.
    pose proof (to_N_lt c) as Hc.
    cbn [b64encode b64decode].
    rewrite !value_of_char_of, char_of_not_pad by euclid. cbn.
    rewrite (IH (length rest)) by (cbn in Hn; lia || done). cbn.
    unfold byte1, byte2, byte3.
    rewrite byte1_group, byte2_group, byte3_group by done.
    by rewrite !byte_of_to_N.
Qed.

(** The encoding of a non-empty byte string is non-empty, and conversely. *)
Lemma b64encode_empty_iff (bs : bytes) : b64encode bs = "" ↔ bs = [].
Proof.
  split; [|by intros ->].
  by destruct bs as [|a [|b [|c rest]]].
Qed.
End Base64_facts.

(** ** Running programs *)

Section run_facts.
Context (E : env).

Lemma run_bind {A B} (p : prog A) (f : A → prog B) (w : world) :
  run E (p ≫= f) w =
  match run E p w with
  | (Ok a, w') => run E (f a) w'
  | (Raised e, w') => (Raised e, w')
  end.
Proof.
  revert w. induction p as [a|e|X op k IH]; intros w; [done..|].
  change (run E (Do op k ≫= f) w)
    with (let '(r, w') := exec E op w in run E (k r ≫= f) w').
  cbn [run]. destruct (exec E op w) as [r w']. apply IH.
Qed.

Lemma run_try_except {A} (p : prog A) (handler : exn → prog A) (w : world) :
  run E (try_except p handler) w =
  match run E p w with
  | (Ok a, w') => (Ok a, w')
  | (Raised e, w') => run E (handler e) w'
  end.
Proof.
  revert w. induction p as [a|e|X op k IH]; intros w; [done| |].
  - cbn. by destruct (run E (handler e) w).
  - cbn [try_except run]. destruct (exec E op w) as [r w']. apply IH.
Qed.

Lemma run_perform {X} (op : action X) (w : world) :
  run E (perform op) w = exec E op w.
Proof. cbn. by destruct (exec E op w) as [[x|e] w']. Qed.

Lemma run_attempt {A} (fn : prog A) (w : world) :
  run E (attempt fn) w = (Ok (run E fn w).1, (run E fn w).2).
Proof.
  unfold attempt. rewrite run_try_except, run_bind.
  by destruct (run E fn w) as [[a|e] w'].
Qed.

(** A program always returns or raises: [run] is total by construction, and
    the handler turns every exception of its body into a response. *)
Lemma voice_agent_returns (request : Request) (w : world) :
  ∃ response, (run E (voice_agent request) w).1 = Ok response.
Proof.
  unfold voice_agent. rewrite run_try_except.
  destruct (run E (pipeline request) w) as [[r|e] w']; cbn; eauto.
Qed.
End run_facts.

(** ** The pauses of the retry policy *)

Section wait_facts.
Context (E : env).

Lemma wait_exponential_bounds (attempt_number : nat) :
  (1 ≤ wait_exponential 1 60 2 1 attempt_number ≤ 60)%Z.
Proof.
  unfold wait_exponential.
  generalize (1 * 2 ^ (Z.of_nat attempt_number - 1))%Z. lia.
Qed.

Lemma random_unit_bounds (bits : N) : (0 <= random_unit bits < 1)%Q.
Proof.
  unfold random_unit, Qle, Qlt. cbn [Qnum Qden].
  assert (bits `mod` 2 ^ 53 < 2 ^ 53)%N by (apply N.mod_lt; lia).
  rewrite Z.mul_0_l, Z.mul_1_r, Z.mul_1_l. split; [apply N2Z.is_nonneg|].
  change (Z.pos (2 ^ 53)) with (Z.of_N (2 ^ 53)). by apply N2Z.inj_lt.
Qed.

Lemma uniform_bounds (a b u : Q) :
  (a <= b)%Q → (0 <= u < 1)%Q → (a <= a + (b - a) * u <= b)%Q.
Proof. intros Hab [Hu0 Hu1]. split; nra. Qed.

(** A pause of the policy lasts between 1 and 60 seconds, and nothing but
    the random generator is touched when it is chosen. *)
Lemma run_wait (attempt_number : nat) (w : world) :
  ∃ seconds,
    run E (wait_random_exponential 1 60 attempt_number) w =
      (Ok seconds,
       World (fs w) (calls w) (slept w) (S (draws w))) ∧
    (1 <= seconds <= 60)%Q.
Proof.
  unfold wait_random_exponential, uniform. eexists. split; [reflexivity|].
  pose proof (wait_exponential_bounds attempt_number) as [Hlo Hhi].
  pose proof (random_unit_bounds (random_bits E (draws w))) as Hu.
  set (high := wait_exponential 1 60 2 1 attempt_number) in *.
  assert (inject_Z 1 <= inject_Z high)%Q as H1 by (by rewrite <- Zle_Qle).
  assert (inject_Z high <= inject_Z 60)%Q as H2 by (by rewrite <- Zle_Qle).
  pose proof (uniform_bounds _ _ _ H1 Hu) as [Ha Hb].
  split; [exact Ha|]. exact (Qle_trans _ _ _ Hb H2).
Qed.
End wait_facts.

(** ** The retry loop around one service request *)

(** The loop counts the attempts it has left; that is the stop condition of
    the decorator: under [stop_after_attempt(max_attempt_number)] the loop
    of [retrying], at attempt [attempt_number], is the loop of
    [Retrying.__call__]. *)
Lemma retrying_stop {A} (wait : nat → prog Q)
    (max_attempt_number attempt_number : nat) (fn : prog A) :
  retrying wait (max_attempt_number - attempt_number) attempt_number fn =
  r ← attempt fn;
  match r with
  | Ok result => mret result
  | Raised e =>
      seconds ← wait attempt_number;
      if stop_after_attempt max_attempt_number attempt_number
      then addr ← perform Id; Raise (RetryError attempt_number addr e)
      else perform (Sleep seconds);;
           retrying wait (max_attempt_number - S attempt_number)
             (S attempt_number) fn
  end.
Proof.
  unfold stop_after_attempt.
  destruct (max_attempt_number - attempt_number) as [|left'] eqn:Hleft.
  - rewrite bool_decide_eq_true_2 by lia. reflexivity.
  - rewrite bool_decide_eq_false_2 by lia.
    replace (max_attempt_number - S attempt_number) with left' by lia.
    reflexivity.
Qed.

Lemma calls_to_snoc (c : call) (l : list call) :
  calls_to (stage_of c) (l ++ [c]) = S (calls_to (stage_of c) l).
Proof.
  unfold calls_to. rewrite filter_app, length_app, filter_cons_True by done.
  cbn. lia.
Qed.

Lemma calls_to_app_other (s : stage) (l new : list call) :
  Forall (λ c, stage_of c ≠ s) new → calls_to s (l ++ new) = calls_to s l.
Proof.
  intros Hnew. unfold calls_to. rewrite filter_app, length_app.
  induction Hnew as [|c new Hc _ IH]; [cbn; lia|].
  by rewrite filter_cons_False.
Qed.

Lemma after_refl (w : world) : after w w (fs w) [] 0.
Proof. split; [done|by rewrite app_nil_r|]. exists []. by rewrite app_nil_r. Qed.

Lemma after_trans (w1 w2 w3 : world) m2 m3 new1 new2 p1 p2 :
  after w1 w2 m2 new1 p1 → after w2 w3 m3 new2 p2 →
  after w1 w3 m3 (new1 ++ new2) (p1 + p2).
Proof.
  intros [Hf1 Hc1 (qs1 & Hs1 & Hl1 & Hq1)] [Hf2 Hc2 (qs2 & Hs2 & Hl2 & Hq2)].
  split; [done|by rewrite Hc2, Hc1, app_assoc|].
  exists (qs1 ++ qs2). rewrite Hs2, Hs1, app_assoc, length_app, Forall_app.
  split_and!; [done|lia|done..].
Qed.

Lemma retrying_eq {A} (wait : nat → prog Q) (left n : nat) (fn : prog A) :
  retrying wait left n fn =
  (r ← attempt fn;
   match r with
   | Ok result => mret result
   | Raised e =>
       seconds ← wait n;
       match left with
       | O => addr ← perform Id; Raise (RetryError n addr e)
       | S left' =>
           perform (Sleep seconds);;
           retrying wait left' (S n) fn
       end
   end).
Proof. by destruct left. Qed.

(** The window of the attempt that follows failure [i]. *)
Lemma wait_exponential_window (i : nat) :
  wait_exponential 1 60 2 1 (S i) = Z.min (2 ^ Z.of_nat i) 60.
Proof.
  unfold wait_exponential.
  replace (Z.of_nat (S i) - 1)%Z with (Z.of_nat i) by lia.
  assert (0 < 2 ^ Z.of_nat i)%Z by (apply Z.pow_pos_nonneg; lia). lia.
Qed.

(** The wait of the policy is the pause of the backoff. *)
Lemma run_wait_exact (E : env) (i : nat) (w : world) :
  run E (wait_random_exponential 1 60 (S i)) w =
    (Ok (backoff_pause E (draws w) i),
     World (fs w) (calls w) (slept w) (S (draws w))).
Proof.
  unfold wait_random_exponential, uniform, backoff_pause.
  by rewrite wait_exponential_window.
Qed.

Lemma backoff_pause_bounds (E : env) (d k : nat) :
  (1 <= backoff_pause E d k <= inject_Z (Z.min (2 ^ Z.of_nat k) 60))%Q.
Proof.
  unfold backoff_pause.
  assert (0 < 2 ^ Z.of_nat k)%Z by (apply Z.pow_pos_nonneg; lia).
  assert (inject_Z 1 <= inject_Z (Z.min (2 ^ Z.of_nat k) 60))%Q as Hab
    by (rewrite <- Zle_Qle; lia).
  exact (uniform_bounds _ _ _ Hab (random_unit_bounds _)).
Qed.

Lemma backoff_pause_ok (E : env) (d k : nat) : pause_ok (backoff_pause E d k).
Proof.
  destruct (backoff_pause_bounds E d k) as [Hlo Hhi]. split; [done|].
  apply (Qle_trans _ _ _ Hhi). change 60%Q with (inject_Z 60).
  rewrite <- Zle_Qle. lia.
Qed.

Lemma backoffs_from_0 (E : env) (d j : nat) :
  backoffs_from E d 0 j = backoffs E d j.
Proof. reflexivity. Qed.

Lemma backoffs_from_O (E : env) (d i : nat) : backoffs_from E d i 0 = [].
Proof. reflexivity. Qed.

Lemma backoffs_from_S (E : env) (d i j : nat) :
  backoffs_from E d i (S j) =
  backoff_pause E d i :: backoffs_from E (S d) (S i) j.
Proof.
  unfold backoffs_from. cbn [seq fmap list_fmap].
  rewrite !Nat.add_0_r. f_equal.
  rewrite <- fmap_S_seq, <- list_fmap_compose.
  apply list_fmap_ext. intros _ k _. cbn.
  by rewrite !Nat.add_succ_r.
Qed.

Lemma length_backoffs_from (E : env) (d i j : nat) :
  length (backoffs_from E d i j) = j.
Proof. unfold backoffs_from. by rewrite length_fmap, length_seq. Qed.

Lemma backoffs_from_ok (E : env) (d i j : nat) :
  Forall pause_ok (backoffs_from E d i j).
Proof.
  unfold backoffs_from. apply Forall_fmap, Forall_forall.
  intros k _. apply backoff_pause_ok.
Qed.

Section retry_facts.
Context (E : env) {A : Type} (fn : prog A) (svc : nat → outcome A).
Context (c : call) (m : gmap string bytes).

(** The wrapped function sends the request [c], with the files [m] in
    place, and returns what the service answers. *)
Hypothesis fn_step : ∀ w,
  fs w = m →
  run E fn w = (svc (calls_to (stage_of c) (calls w)), log_call c w).

Local Abbreviation policy := (wait_random_exponential 1 60).
Local Abbreviation sent w := (calls_to (stage_of c) (calls w)).

Lemma from_next (w w' : world) (k : nat) :
  sent w' = S (sent w) → from svc c w' k = from svc c w (S k).
Proof. unfold from. intros ->. f_equal. lia. Qed.

(** The service answers after [j] failures: the loop returns the answer,
    and the final world is this one. *)
Lemma run_retrying_ok_exact (j left i : nat) (w : world) (v : A) :
  fs w = m → j ≤ left →
  fails_through (from svc c w) j → from svc c w j = Ok v →
  run E (retrying policy left (S i) fn) w =
    (Ok v,
     World m (calls w ++ replicate (S j) c)
       (slept w ++ backoffs_from E (draws w) i j) (draws w + j)).
Proof.
  revert left i w.
  induction j as [|j IH]; intros left i w Hfs Hle Hfail Hok.
  - unfold from in Hok. rewrite Nat.add_0_r in Hok.
    rewrite retrying_eq, run_bind, run_attempt, fn_step, Hok by done.
    cbn [fst snd run mret prog_ret]. unfold log_call.
    by rewrite Hfs, app_nil_r, Nat.add_0_r.
  - destruct left as [|left]; [lia|].
    destruct (Hfail 0) as [e He]; [lia|].
    unfold from in He. rewrite Nat.add_0_r in He.
    rewrite retrying_eq, run_bind, run_attempt, fn_step, He by done.
    cbn [fst snd]. rewrite run_bind, run_wait_exact.
    rewrite run_bind, run_perform. cbn [exec].
    set (w3 := World _ _ _ _).
    assert (sent w3 = S (sent w)) as Hsent by apply calls_to_snoc.
    rewrite (IH left (S i) w3 Hfs); [|lia| |].
    + subst w3. cbn [calls slept draws fs log_call].
      rewrite backoffs_from_S, <- !app_assoc. cbn [app replicate].
      by rewrite Nat.add_succ_r.
    + intros k Hk. rewrite (from_next w w3) by done. apply Hfail. lia.
    + by rewrite (from_next w w3).
Qed.

(** The service fails all the attempts of the loop: the loop gives up with
    the last exception, a random number drawn for a pause it does not
    take. *)
Lemma run_retrying_exhausted_exact (left i : nat) (w : world) :
  fs w = m → fails_through (from svc c w) (S left) →
  ∃ e,
    from svc c w left = Raised e ∧
    run E (retrying policy left (S i) fn) w =
      (Raised (RetryError (S i + left)
                 (address E (length (calls w ++ replicate (S left) c))) e),
       World m (calls w ++ replicate (S left) c)
         (slept w ++ backoffs_from E (draws w) i left)
         (draws w + S left)).
Proof.
  revert i w. induction left as [|left IH]; intros i w Hfs Hfail.
  - destruct (Hfail 0) as [e He]; [lia|]. exists e. split; [done|].
    unfold from in He. rewrite Nat.add_0_r in He.
    rewrite retrying_eq, run_bind, run_attempt, fn_step, He by done.
    cbn [fst snd]. rewrite run_bind, run_wait_exact.
    cbn. by rewrite Hfs, app_nil_r, !Nat.add_0_r, Nat.add_1_r.
  - destruct (Hfail 0) as [e He]; [lia|].
    unfold from in He. rewrite Nat.add_0_r in He.
    rewrite retrying_eq, run_bind, run_attempt, fn_step, He by done.
    cbn [fst snd]. rewrite run_bind, run_wait_exact.
    rewrite run_bind, run_perform. cbn [exec].
    set (w3 := World _ _ _ _).
    assert (sent w3 = S (sent w)) as Hsent by apply calls_to_snoc.
    destruct (IH (S i) w3 Hfs) as (e' & Hlast & Hrun).
    { intros k Hk. rewrite (from_next w w3) by done. apply Hfail. lia. }
    exists e'. split; [by rewrite <- (from_next w w3)|].
    rewrite Hrun. subst w3. cbn [calls slept draws fs log_call].
    rewrite backoffs_from_S, <- !app_assoc. cbn [app replicate].
    by rewrite !Nat.add_succ_r.
Qed.

Lemma run_retrying_ok (j left i : nat) (w : world) (v : A) :
  fs w = m → j ≤ left →
  fails_through (from svc c w) j → from svc c w j = Ok v →
  ∃ w', run E (retrying policy left (S i) fn) w = (Ok v, w') ∧
        after w w' m (replicate (S j) c) j.
Proof.
  intros Hfs Hle Hfail Hok. eexists.
  split; [by apply run_retrying_ok_exact|].
  split; [done..|]. eexists.
  split_and!; [done|apply length_backoffs_from|apply backoffs_from_ok].
Qed.

Lemma run_retrying_exhausted (left i : nat) (w : world) :
  fs w = m → fails_through (from svc c w) (S left) →
  ∃ w' e,
    run E (retrying policy left (S i) fn) w =
      (Raised (RetryError (S i + left) (address E (length (calls w'))) e), w') ∧
    from svc c w left = Raised e ∧
    after w w' m (replicate (S left) c) left.
Proof.
  intros Hfs Hfail.
  destruct (run_retrying_exhausted_exact left i w Hfs Hfail)
    as (e & Hlast & Hrun).
  exists (World m (calls w ++ replicate (S left) c)
            (slept w ++ backoffs_from E (draws w) i left)
            (draws w + S left)), e.
  split_and!; [exact Hrun|done|].
  split; [done..|]. eexists.
  split_and!; [done|apply length_backoffs_from|apply backoffs_from_ok].
Qed.

(** The decorated function retries as the policy says. *)
Lemma retries_wrapped (w : world) :
  fs w = m → retries E (retry policy 6 fn) (from svc c w) c w.
Proof.
  intros Hfs. split.
  - intros j v (Hj & Hfail & Hok). eexists.
    split; [apply (run_retrying_ok_exact j 5 0 w v); [done|lia|done..]|].
    cbn [fs calls slept draws]. by rewrite backoffs_from_0.
  - intros e [Hfail Hlast].
    destruct (run_retrying_exhausted_exact 5 0 w Hfs Hfail)
      as (e' & Hlast' & Hrun).
    assert (e' = e) as -> by congruence.
    eexists _, _. split; [exact Hrun|].
    cbn [fs calls slept draws]. rewrite backoffs_from_0.
    split_and!; [done..|lia].
Qed.
End retry_facts.

(** Whatever a service does, it either answers one of its next [S left]
    requests or fails them all. *)
Lemma first_answer {A} (svc : nat → outcome A) (left : nat) :
  (∃ j v, j ≤ left ∧ fails_through svc j ∧ svc j = Ok v) ∨
  fails_through svc (S left).
Proof.
  induction left as [|left [(j & v & Hj & Hf & Hv)|Hall]].
  - destruct (svc 0) as [v|e] eqn:H0.
    + left. exists 0, v. split_and!; [done| |done]. intros k Hk. lia.
    + right. intros k Hk. assert (k = 0) as -> by lia. eauto.
  - left. exists j, v. split_and!; [lia|done..].
  - destruct (svc (S left)) as [v|e] eqn:HS.
    + left. exists (S left), v. split_and!; done.
    + right. intros k Hk. destruct (decide (k = S left)) as [->|]; [eauto|].
      apply Hall. lia.
Qed.

(** A service answers within the budget or exhausts it. *)
Lemma answers_or_exhausts {A} (svc : nat → outcome A) :
  (∃ j v, answers svc j v) ∨ (∃ e, exhausts svc e).
Proof.
  destruct (first_answer svc 5) as [(j & v & Hj & Hf & Hv)|Hall].
  - left. exists j, v. split_and!; [lia|done..].
  - right. destruct (Hall 5) as [e He]; [lia|]. by exists e.
Qed.

Lemma answers_not_exhausts {A} (svc : nat → outcome A) j v e :
  answers svc j v → exhausts svc e → False.
Proof.
  intros (Hj & _ & Hv) [Hall _]. destruct (Hall j Hj) as [e' He']. congruence.
Qed.

(** The answer of a service is its first one. *)
Lemma answers_unique {A} (svc : nat → outcome A) j v j' v' :
  answers svc j v → answers svc j' v' → j = j' ∧ v = v'.
Proof.
  intros (_ & Hfail & Hv) (_ & Hfail' & Hv').
  assert (j = j') as <-.
  { destruct (Nat.lt_trichotomy j j') as [Hlt|[Heq|Hgt]]; [|done|].
    - destruct (Hfail' j Hlt) as [e He]. congruence.
    - destruct (Hfail j' Hgt) as [e He]. congruence. }
  split; [done|]. congruence.
Qed.

(** ** The three wrapped functions *)

Lemma length_append (s1 s2 : string) :
  String.length (s1 +:+ s2) = String.length s1 + String.length s2.
Proof.
  induction s1 as [|a s1 IH]; [done|].
  change (S (String.length (s1 +:+ s2)) = S (String.length s1 + String.length s2)).
  by rewrite IH.
Qed.

Lemma append_inj_r (s s1 s2 : string) : s1 +:+ s = s2 +:+ s → s1 = s2.
Proof.
  revert s2. induction s1 as [|a s1 IH]; intros [|b s2] Heq; [done|..].
  - apply (f_equal String.length) in Heq.
    rewrite !length_append in Heq. cbn in Heq. lia.
  - apply (f_equal String.length) in Heq.
    rewrite !length_append in Heq. cbn in Heq. lia.
  - injection Heq as -> Heq. f_equal. by apply IH.
Qed.

Global Instance tmp_name_inj suffix : Inj (=) (=) (tmp_name suffix).
Proof.
  intros n m Heq. unfold tmp_name in Heq.
  apply (inj (String.app _)), append_inj_r in Heq. by apply (inj pretty).
Qed.

Lemma elem_of_tried (suffix : string) (n : nat) (name : string) :
  name ∈ tried suffix n ↔ ∃ k, k < n ∧ name = tmp_name suffix k.
Proof.
  unfold tried. rewrite elem_of_list_to_set, list_elem_of_fmap.
  split.
  - intros (k & -> & Hk%elem_of_seq). exists k. split; [lia|done].
  - intros (k & Hk & ->). exists k. split; [done|]. apply elem_of_seq. lia.
Qed.

Lemma first_free_fresh (suffix : string) (existing : gset string) :
  ∀ tries n,
    size (existing ∖ tried suffix n) ≤ tries →
    first_free suffix existing tries n ∉ existing.
Proof.
  induction tries as [|tries IH]; intros n Hsize; cbn [first_free].
  - intros Hin.
    assert (existing ∖ tried suffix n ≡ ∅) as Hempty
      by (apply size_empty_inv; lia).
    destruct (decide (tmp_name suffix n ∈ tried suffix n)) as [Htried|Hnot].
    + apply elem_of_tried in Htried as (k & Hk & Heq).
      apply (inj (tmp_name suffix)) in Heq. lia.
    + apply (not_elem_of_empty (C := gset string) (tmp_name suffix n)).
      rewrite <- Hempty. by apply elem_of_difference.
  - destruct (decide (tmp_name suffix n ∈ existing)) as [Hin|Hout]; [|done].
    apply IH.
    assert (tmp_name suffix n ∉ tried suffix n) as Hnew.
    { intros (k & Hk & Heq)%elem_of_tried.
      apply (inj (tmp_name suffix)) in Heq. lia. }
    assert (existing ∖ tried suffix (S n) ≡
            (existing ∖ tried suffix n) ∖ {[ tmp_name suffix n ]}) as ->.
    { intros name. rewrite !elem_of_difference, !elem_of_tried, elem_of_singleton.
      split.
      - intros [Hname Hnot]. split_and!; [done| |].
        + intros (k & Hk & ->). apply Hnot. exists k. split; [lia|done].
        + intros ->. apply Hnot. exists n. split; [lia|done].
      - intros [[Hname Hnot] Hne]. split; [done|].
        intros (k & Hk & ->). destruct (decide (k = n)) as [->|]; [done|].
        apply Hnot. exists k. split; [lia|done]. }
    rewrite size_difference, size_singleton; [lia|].
    apply singleton_subseteq_l. by apply elem_of_difference.
Qed.

Lemma mkstemp_fresh (suffix : string) (existing : gset string) :
  mkstemp suffix existing ∉ existing.
Proof.
  apply first_free_fresh.
  apply subseteq_size. intros name [Hname _]%elem_of_difference. done.
Qed.

Lemma contains_multidict_get {V} (key : string) (d : list (string * V)) :
  contains key d = true ↔ is_Some (multidict_get d key).
Proof.
  unfold contains, multidict_get. rewrite bool_decide_eq_true.
  induction d as [|[k v] d IH]; cbn.
  - split; [by intros ?%elem_of_nil|by intros [? ?]].
  - rewrite elem_of_cons. destruct (String.eqb_spec k key) as [->|Hne]; cbn.
    + split; [eauto|by left].
    + rewrite <- IH. split; [intros [?|?]; [congruence|done]|by right].
Qed.

Section stage_facts.
Context (E : env) (w0 w : world).

Local Abbreviation policy := (wait_random_exponential 1 60).

Lemma transcribe_step (path : string) (audio : bytes) (w1 : world) :
  fs w1 !! path = Some audio →
  run E (f ← perform (ReadAll path);
         perform (transcriptions_create "whisper-1" f)) w1 =
    (transcriptions E (calls_to Transcribing (calls w1)) audio,
     log_call (transcription_request audio) w1).
Proof.
  intros Hfile. rewrite run_bind, run_perform. cbn [exec]. rewrite Hfile.
  by rewrite run_perform.
Qed.

Lemma run_transcribe_audio_answers path audio j t :
  fs w !! path = Some audio →
  calls_to Transcribing (calls w) = calls_to Transcribing (calls w0) →
  answers (stt E w0 audio) j t →
  ∃ w', run E (transcribe_audio path) w = (Ok t, w') ∧
        after w w' (fs w) (replicate (S j) (transcription_request audio)) j.
Proof.
  intros Hfile Hsent (Hj & Hfail & Hok).
  apply (run_retrying_ok E _ (λ n, transcriptions E n audio)
           (transcription_request audio) (fs w)); [|done|lia|..].
  - intros w1 Hfs. apply transcribe_step. by rewrite Hfs.
  - unfold from. cbn [stage_of transcription_request]. by rewrite Hsent.
  - unfold from. cbn [stage_of transcription_request]. by rewrite Hsent.
Qed.

Lemma run_transcribe_audio_exhausts path audio e :
  fs w !! path = Some audio →
  calls_to Transcribing (calls w) = calls_to Transcribing (calls w0) →
  exhausts (stt E w0 audio) e →
  ∃ w',
    run E (transcribe_audio path) w =
      (Raised (RetryError 6 (address E (length (calls w'))) e), w') ∧
    after w w' (fs w) (replicate 6 (transcription_request audio)) 5.
Proof.
  intros Hfile Hsent [Hfail Hlast].
  unfold transcribe_audio.
  lazymatch goal with
  | |- context [retry _ _ ?fn] =>
      destruct (λ Hstep, run_retrying_exhausted E fn (λ n, transcriptions E n audio)
                  (transcription_request audio) (fs w) Hstep 5 0 w eq_refl)
        as (w' & e' & Hrun & Hlast' & Hafter)
  end.
  - intros w1 Hfs. apply transcribe_step. by rewrite Hfs.
  - unfold from. cbn [stage_of transcription_request]. by rewrite Hsent.
  - unfold from in Hlast'. cbn [stage_of transcription_request] in Hlast'.
    rewrite Hsent in Hlast'. unfold stt in Hlast.
    assert (e' = e) as -> by congruence. by exists w'.
Qed.

Lemma run_generate_chat_response_answers user_input j c :
  calls_to Completing (calls w) = calls_to Completing (calls w0) →
  answers (chat E w0 user_input) j c →
  ∃ w', run E (generate_chat_response user_input) w = (Ok c, w') ∧
        after w w' (fs w) (replicate (S j) (completion_request user_input)) j.
Proof.
  intros Hsent (Hj & Hfail & Hok).
  apply (run_retrying_ok E _ (λ n, completions E n (chat_messages user_input))
           (completion_request user_input) (fs w)); [|done|lia|..].
  - intros w1 _. by rewrite run_perform.
  - unfold from. cbn [stage_of completion_request]. by rewrite Hsent.
  - unfold from. cbn [stage_of completion_request]. by rewrite Hsent.
Qed.

Lemma run_generate_chat_response_exhausts user_input e :
  calls_to Completing (calls w) = calls_to Completing (calls w0) →
  exhausts (chat E w0 user_input) e →
  ∃ w',
    run E (generate_chat_response user_input) w =
      (Raised (RetryError 6 (address E (length (calls w'))) e), w') ∧
    after w w' (fs w) (replicate 6 (completion_request user_input)) 5.
Proof.
  intros Hsent [Hfail Hlast].
  unfold generate_chat_response.
  lazymatch goal with
  | |- context [retry _ _ ?fn] =>
      destruct (λ Hstep, run_retrying_exhausted E fn (λ n, completions E n (chat_messages user_input))
                  (completion_request user_input) (fs w) Hstep 5 0 w eq_refl)
        as (w' & e' & Hrun & Hlast' & Hafter)
  end.
  - intros w1 _. by rewrite run_perform.
  - unfold from. cbn [stage_of completion_request]. by rewrite Hsent.
  - unfold from in Hlast'. cbn [stage_of completion_request] in Hlast'.
    rewrite Hsent in Hlast'. unfold chat in Hlast.
    assert (e' = e) as -> by congruence. by exists w'.
Qed.

Lemma run_generate_speech_answers text j audio :
  calls_to Synthesizing (calls w) = calls_to Synthesizing (calls w0) →
  answers (tts E w0 text) j audio →
  ∃ w', run E (generate_speech text) w = (Ok audio, w') ∧
        after w w' (fs w) (replicate (S j) (speech_request text)) j.
Proof.
  intros Hsent (Hj & Hfail & Hok).
  apply (run_retrying_ok E _ (λ n, speech E n text)
           (speech_request text) (fs w)); [|done|lia|..].
  - intros w1 _. by rewrite run_perform.
  - unfold from. cbn [stage_of speech_request]. by rewrite Hsent.
  - unfold from. cbn [stage_of speech_request]. by rewrite Hsent.
Qed.

Lemma run_generate_speech_exhausts text e :
  calls_to Synthesizing (calls w) = calls_to Synthesizing (calls w0) →
  exhausts (tts E w0 text) e →
  ∃ w',
    run E (generate_speech text) w =
      (Raised (RetryError 6 (address E (length (calls w'))) e), w') ∧
    after w w' (fs w) (replicate 6 (speech_request text)) 5.
Proof.
  intros Hsent [Hfail Hlast].
  unfold generate_speech.
  lazymatch goal with
  | |- context [retry _ _ ?fn] =>
      destruct (λ Hstep, run_retrying_exhausted E fn (λ n, speech E n text)
                  (speech_request text) (fs w) Hstep 5 0 w eq_refl)
        as (w' & e' & Hrun & Hlast' & Hafter)
  end.
  - intros w1 _. by rewrite run_perform.
  - unfold from. cbn [stage_of speech_request]. by rewrite Hsent.
  - unfold from in Hlast'. cbn [stage_of speech_request] in Hlast'.
    rewrite Hsent in Hlast'. unfold tts in Hlast.
    assert (e' = e) as -> by congruence. by exists w'.
Qed.
End stage_facts.

(** ** The handler, stage by stage *)

Section handler_runs.
Context (E : env) (request : Request) (w : world) (audio_file : FileStorage).
Hypothesis uploaded : multidict_get (files request) "audio" = Some audio_file.

Local Abbreviation audio := (stream audio_file).
Local Abbreviation temp_audio_path := (mkstemp ".wav" (dom (fs w))).
Local Abbreviation staged := (<[temp_audio_path := audio]> (fs w)).
Local Abbreviation temp_speech_path := (mkstemp ".mp3" (dom staged)).

Lemma temp_audio_path_fresh : fs w !! temp_audio_path = None.
Proof. apply not_elem_of_dom, mkstemp_fresh. Qed.

Lemma temp_speech_path_fresh : staged !! temp_speech_path = None.
Proof. apply not_elem_of_dom, mkstemp_fresh. Qed.

Lemma temp_paths_differ : temp_audio_path ≠ temp_speech_path.
Proof.
  intros Heq. pose proof temp_speech_path_fresh as Hfresh.
  by rewrite <- Heq, lookup_insert_eq in Hfresh.
Qed.

Lemma pipeline_staged :
  run E (pipeline request) w =
  run E (transcribe_audio temp_audio_path ≫= complete temp_audio_path) (set_fs staged w).
Proof.
  unfold pipeline.
  assert (contains "audio" (files request) = true) as ->.
  { apply contains_multidict_get. by rewrite uploaded. }
  cbn [negb]. unfold getitem. rewrite uploaded.
  rewrite run_bind. cbn [run mret prog_ret].
  rewrite run_bind, run_perform. cbn [exec].
  rewrite run_bind, run_perform. cbn [exec].
  unfold set_fs. cbn [fs calls slept draws].
  by rewrite insert_insert_eq.
Qed.

Lemma run_respond (text_response : string) (out : bytes) (w5 : world) :
  fs w5 = <[temp_speech_path := []]> staged →
  run E (respond temp_audio_path text_response temp_speech_path out) w5 =
    (Ok {| body := jsonify [("text_response", text_response);
                            ("audio_base64", Base64.b64encode out)];
           status := 200 |},
     set_fs (fs w) w5).
Proof.
  intros Hfs. unfold respond.
  pose proof temp_paths_differ as Hne.
  assert (<[temp_speech_path := out]> (fs w5) !! temp_audio_path = Some audio)
    as Hwav.
  { rewrite Hfs. do 2 (rewrite lookup_insert_ne by done).
    apply lookup_insert_eq. }
  assert (delete temp_audio_path (<[temp_speech_path := out]> (fs w5))
            !! temp_speech_path = Some out) as Hmp3.
  { rewrite lookup_delete_ne by done. apply lookup_insert_eq. }
  assert (delete temp_speech_path
            (delete temp_audio_path (<[temp_speech_path := out]> (fs w5))) =
          fs w) as Hclean.
  { apply map_eq. intros k.
    destruct (decide (k = temp_speech_path)) as [->|Hk2].
    { rewrite lookup_delete_eq. symmetry.
      pose proof temp_speech_path_fresh as Hfresh.
      by rewrite lookup_insert_ne in Hfresh. }
    rewrite lookup_delete_ne by done.
    destruct (decide (k = temp_audio_path)) as [->|Hk1].
    { rewrite lookup_delete_eq. symmetry. apply temp_audio_path_fresh. }
    rewrite lookup_delete_ne, Hfs by done.
    by do 3 (rewrite lookup_insert_ne by done). }
  rewrite run_bind, run_perform. cbn [exec].
  rewrite run_bind, run_perform. cbn [exec set_fs fs].
  rewrite lookup_insert_eq.
  rewrite run_bind, run_perform. cbn [exec set_fs fs]. rewrite Hwav.
  rewrite run_bind, run_perform.
  cbn [exec set_fs fs calls slept draws]. rewrite Hmp3.
  cbn [run mret prog_ret]. by rewrite Hclean.
Qed.

Lemma after_set_fs (w1 : world) m new p (m' : gmap string bytes) :
  after w w1 m new p → after w (set_fs m' w1) m' new p.
Proof. intros [Hf Hc Hs]. by split. Qed.

Lemma after_sent (s : stage) (w1 : world) m new p :
  after w w1 m new p → Forall (λ c, stage_of c ≠ s) new →
  calls_to s (calls w1) = calls_to s (calls w).
Proof. intros [_ -> _] Hnew. by apply calls_to_app_other. Qed.

Lemma Forall_replicate_stage (s : stage) (c : call) (n : nat) :
  stage_of c ≠ s → Forall (λ c, stage_of c ≠ s) (replicate n c).
Proof. intros Hc. by apply Forall_replicate. Qed.

Lemma run_synthesize_no_choice (c : ChatCompletion) (w4 : world) :
  choices c = [] →
  run E (synthesize temp_audio_path c) w4 =
    (Raised (PyExc "IndexError" "list index out of range"), w4).
Proof. intros Hc. unfold synthesize. by rewrite Hc. Qed.

Section synthesis.
Context (c : ChatCompletion) (choice : Choice) (rest : list Choice).
Context (w4 : world) (new : list call) (p : nat).
Hypothesis first_choice : choices c = choice :: rest.
Hypothesis reached : after w w4 staged new p.
Hypothesis no_speech_yet : Forall (λ c, stage_of c ≠ Synthesizing) new.

Local Abbreviation text_response := (content (message choice)).

Lemma synthesize_started :
  run E (synthesize temp_audio_path c) w4 =
  run E (generate_speech text_response ≫=
           respond temp_audio_path text_response temp_speech_path)
    (set_fs (<[temp_speech_path := []]> staged) w4).
Proof.
  unfold synthesize. rewrite first_choice. cbn [first].
  rewrite run_bind. cbn [run mret prog_ret].
  rewrite run_bind, run_perform. cbn [exec].
  by rewrite (after_fs _ _ _ _ _ reached).
Qed.

Lemma run_synthesize_exhausts (e : exn) :
  exhausts (tts E w text_response) e →
  ∃ w' addr,
    run E (synthesize temp_audio_path c) w4 = (Raised (RetryError 6 addr e), w') ∧
    after w w' (<[temp_speech_path := []]> staged)
      (new ++ replicate 6 (speech_request text_response)) (p + 5).
Proof.
  intros Hex. rewrite synthesize_started.
  set (w5 := set_fs _ w4).
  assert (after w w5 (<[temp_speech_path := []]> staged) new p) as A5
    by exact (after_set_fs _ _ _ _ _ reached).
  destruct (run_generate_speech_exhausts E w w5 text_response e)
    as (w' & Hrun & A); [by apply (after_sent _ _ _ _ _ A5)|done|].
  eexists w', _. rewrite run_bind, Hrun. split; [done|].
  exact (after_trans _ _ _ _ _ _ _ _ _ A5 A).
Qed.

Lemma run_synthesize_answers (j : nat) (out : bytes) :
  answers (tts E w text_response) j out →
  ∃ w',
    run E (synthesize temp_audio_path c) w4 =
      (Ok {| body := jsonify [("text_response", text_response);
                              ("audio_base64", Base64.b64encode out)];
             status := 200 |}, w') ∧
    after w w' (fs w)
      (new ++ replicate (S j) (speech_request text_response)) (p + j).
Proof.
  intros Hans. rewrite synthesize_started.
  set (w5 := set_fs _ w4).
  assert (after w w5 (<[temp_speech_path := []]> staged) new p) as A5
    by exact (after_set_fs _ _ _ _ _ reached).
  destruct (run_generate_speech_answers E w w5 text_response j out)
    as (w6 & Hrun & A); [by apply (after_sent _ _ _ _ _ A5)|done|].
  pose proof (after_trans _ _ _ _ _ _ _ _ _ A5 A) as A6.
  rewrite run_bind, Hrun, run_respond by apply A6.
  eexists. split; [done|]. exact (after_set_fs _ _ _ _ _ A6).
Qed.
End synthesis.

Section completion.
Context (t : Transcription) (w3 : world) (new : list call) (p : nat).
Hypothesis reached : after w w3 staged new p.
Hypothesis no_completion_yet : Forall (λ c, stage_of c ≠ Completing) new.

Lemma run_complete_exhausts (e : exn) :
  exhausts (chat E w (text t)) e →
  ∃ w' addr,
    run E (complete temp_audio_path t) w3 = (Raised (RetryError 6 addr e), w') ∧
    after w w' staged
      (new ++ replicate 6 (completion_request (text t))) (p + 5).
Proof.
  intros Hex. unfold complete.
  destruct (run_generate_chat_response_exhausts E w w3 (text t) e)
    as (w' & Hrun & A); [by apply (after_sent _ _ _ _ _ reached)|done|].
  eexists w', _. rewrite run_bind, Hrun. split; [done|].
  rewrite (after_fs _ _ _ _ _ reached) in A.
  exact (after_trans _ _ _ _ _ _ _ _ _ reached A).
Qed.

Lemma run_complete_answers (j : nat) (c : ChatCompletion) :
  answers (chat E w (text t)) j c →
  ∃ w4,
    run E (complete temp_audio_path t) w3 = run E (synthesize temp_audio_path c) w4 ∧
    after w w4 staged
      (new ++ replicate (S j) (completion_request (text t))) (p + j).
Proof.
  intros Hans. unfold complete.
  destruct (run_generate_chat_response_answers E w w3 (text t) j c)
    as (w4 & Hrun & A); [by apply (after_sent _ _ _ _ _ reached)|done|].
  exists w4. rewrite run_bind, Hrun. split; [done|].
  rewrite (after_fs _ _ _ _ _ reached) in A.
  exact (after_trans _ _ _ _ _ _ _ _ _ reached A).
Qed.
End completion.

Lemma staged_after : after w (set_fs staged w) staged [] 0.
Proof. split; [done|by rewrite app_nil_r|]. exists []. by rewrite app_nil_r. Qed.

Lemma pipeline_transcription_exhausts (e : exn) :
  exhausts (stt E w audio) e →
  ∃ w' addr,
    run E (pipeline request) w = (Raised (RetryError 6 addr e), w') ∧
    after w w' staged (replicate 6 (transcription_request audio)) 5.
Proof.
  intros Hex. rewrite pipeline_staged.
  destruct (run_transcribe_audio_exhausts E w (set_fs staged w)
              temp_audio_path audio e)
    as (w' & Hrun & A); [apply lookup_insert_eq|done..|].
  eexists w', _. rewrite run_bind, Hrun. split; [done|].
  exact (after_trans _ _ _ _ _ _ _ _ _ staged_after A).
Qed.

Lemma pipeline_transcription_answers (j : nat) (t : Transcription) :
  answers (stt E w audio) j t →
  ∃ w3,
    run E (pipeline request) w = run E (complete temp_audio_path t) w3 ∧
    after w w3 staged (replicate (S j) (transcription_request audio)) j.
Proof.
  intros Hans. rewrite pipeline_staged.
  destruct (run_transcribe_audio_answers E w (set_fs staged w)
              temp_audio_path audio j t)
    as (w3 & Hrun & A); [apply lookup_insert_eq|done..|].
  exists w3. rewrite run_bind, Hrun. split; [done|].
  exact (after_trans _ _ _ _ _ _ _ _ _ staged_after A).
Qed.

Lemma run_voice_agent :
  run E (voice_agent request) w =
  match run E (pipeline request) w with
  | (Ok response, w') => (Ok response, w')
  | (Raised e, w') => (Ok (error_response e), w')
  end.
Proof. unfold voice_agent. by rewrite run_try_except. Qed.

Local Abbreviation tr := (transcription_request audio).

Lemma transcription_not_completion (n : nat) :
  Forall (λ c, stage_of c ≠ Completing) (replicate n tr).
Proof. by apply Forall_replicate. Qed.

Lemma before_synthesis (n1 n2 : nat) (user_input : string) :
  Forall (λ c, stage_of c ≠ Synthesizing)
    (replicate n1 tr ++ replicate n2 (completion_request user_input)).
Proof. apply Forall_app. split; by apply Forall_replicate. Qed.

Lemma pipeline_exhausts_transcribing (e : exn) :
  exhausts (stt E w audio) e →
  ∃ w' addr,
    run E (pipeline request) w =
      (Raised (RetryError 6 addr e), w') ∧
    after w w' staged (replicate 6 tr) 5.
Proof.
  intros Hex.
  destruct (pipeline_transcription_exhausts e Hex) as (w' & addr & Hrun & A).
  exists w', addr. by rewrite Hrun.
Qed.

Section transcribed.
Context (j1 : nat) (t : Transcription).
Hypothesis transcribed : answers (stt E w audio) j1 t.

Local Abbreviation cr := (completion_request (text t)).

Lemma pipeline_exhausts_completing (e : exn) :
  exhausts (chat E w (text t)) e →
  ∃ w' addr,
    run E (pipeline request) w =
      (Raised (RetryError 6 addr e), w') ∧
    after w w' staged (replicate (S j1) tr ++ replicate 6 cr) (j1 + 5).
Proof.
  intros Hex.
  destruct (pipeline_transcription_answers j1 t transcribed)
    as (w3 & Hrun3 & A3).
  destruct (run_complete_exhausts t w3 _ _ A3
              (transcription_not_completion _) e Hex)
    as (w' & addr & Hrun & A).
  exists w', addr. by rewrite Hrun3, Hrun.
Qed.

Section completed.
Context (j2 : nat) (c : ChatCompletion).
Hypothesis completed : answers (chat E w (text t)) j2 c.

Lemma pipeline_completed :
  ∃ w4,
    run E (pipeline request) w = run E (synthesize temp_audio_path c) w4 ∧
    after w w4 staged (replicate (S j1) tr ++ replicate (S j2) cr)
      (j1 + j2).
Proof.
  destruct (pipeline_transcription_answers j1 t transcribed)
    as (w3 & Hrun3 & A3).
  destruct (run_complete_answers t w3 _ _ A3
              (transcription_not_completion _) j2 c completed)
    as (w4 & Hrun4 & A4).
  exists w4. by rewrite Hrun3, Hrun4.
Qed.

Lemma pipeline_no_choice :
  choices c = [] →
  ∃ w',
    run E (pipeline request) w =
      (Raised (PyExc "IndexError" "list index out of range"), w') ∧
    after w w' staged (replicate (S j1) tr ++ replicate (S j2) cr)
      (j1 + j2).
Proof.
  intros Hc. destruct pipeline_completed as (w4 & Hrun4 & A4).
  exists w4.
  by rewrite Hrun4, run_synthesize_no_choice.
Qed.

Section chosen.
Context (choice : Choice) (rest : list Choice).
Hypothesis first_choice : choices c = choice :: rest.

Local Abbreviation text_response := (content (message choice)).
Local Abbreviation sr := (speech_request text_response).

Lemma pipeline_exhausts_synthesizing (e : exn) :
  exhausts (tts E w text_response) e →
  ∃ w' addr,
    run E (pipeline request) w =
      (Raised (RetryError 6 addr e), w') ∧
    after w w' (<[temp_speech_path := []]> staged)
      ((replicate (S j1) tr ++ replicate (S j2) cr) ++ replicate 6 sr)
      (j1 + j2 + 5).
Proof.
  intros Hex. destruct pipeline_completed as (w4 & Hrun4 & A4).
  destruct (run_synthesize_exhausts c choice rest w4 _ _ first_choice
              A4 (before_synthesis _ _ _) e Hex)
    as (w' & addr & Hrun & A).
  exists w', addr. by rewrite Hrun4, Hrun.
Qed.

Lemma pipeline_succeeds (j3 : nat) (out : bytes) :
  answers (tts E w text_response) j3 out →
  ∃ w',
    run E (pipeline request) w =
      (Ok (success_response text_response out), w') ∧
    after w w' (fs w)
      ((replicate (S j1) tr ++ replicate (S j2) cr) ++
       replicate (S j3) sr)
      (j1 + j2 + j3).
Proof.
  intros Hans. destruct pipeline_completed as (w4 & Hrun4 & A4).
  destruct (run_synthesize_answers c choice rest w4 _ _ first_choice
              A4 (before_synthesis _ _ _) j3 out Hans)
    as (w' & Hrun & A).
  exists w'. by rewrite Hrun4, Hrun.
Qed.
End chosen.
End completed.
End transcribed.
End handler_runs.

Lemma voice_agent_no_audio (E : env) (request : Request) (w : world) :
  contains "audio" (files request) = false →
  run E (voice_agent request) w =
    (Ok {| body := jsonify [("error", "No audio file provided")];
           status := 400 |}, w).
Proof. intros Hno. unfold voice_agent, pipeline. by rewrite Hno. Qed.

(** ** Every way a request can go *)

Lemma head_Some_cons {A} (l : list A) (x : A) :
  head l = Some x ↔ ∃ rest, l = x :: rest.
Proof.
  destruct l as [|y l]; cbn; split; try done.
  - by intros [? ?].
  - intros [= ->]. eauto.
  - by intros [rest [= -> ->]].
Qed.

Lemma requests_sent_1 audio n1 user_input text_response :
  requests_sent audio n1 user_input 0 text_response 0 =
  replicate n1 (transcription_request audio).
Proof. unfold requests_sent. cbn [replicate]. by rewrite !app_nil_r. Qed.

Lemma requests_sent_2 audio n1 user_input n2 text_response :
  requests_sent audio n1 user_input n2 text_response 0 =
  replicate n1 (transcription_request audio) ++
  replicate n2 (completion_request user_input).
Proof. unfold requests_sent. cbn [replicate]. by rewrite !app_nil_r. Qed.

Lemma requests_sent_3 audio n1 user_input n2 text_response n3 :
  requests_sent audio n1 user_input n2 text_response n3 =
  (replicate n1 (transcription_request audio) ++
   replicate n2 (completion_request user_input)) ++
  replicate n3 (speech_request text_response).
Proof. unfold requests_sent. by rewrite app_assoc. Qed.

(** The handler always returns a response, in one of the ways of [served]. *)
Lemma voice_agent_served (E : env) (request : Request) (w : world) :
  ∃ response w',
    run E (voice_agent request) w = (Ok response, w') ∧
    served E request w response w'.
Proof.
  destruct (contains "audio" (files request)) eqn:Hcontains; last first.
  { eexists _, _. split; [by apply voice_agent_no_audio|by constructor]. }
  apply contains_multidict_get in Hcontains as [audio_file Hup].
  destruct (answers_or_exhausts (stt E w (stream audio_file)))
    as [(j1 & t & H1)|[e Hex]]; last first.
  { destruct (pipeline_exhausts_transcribing E request w _ Hup e Hex)
      as (w' & addr & Hrun & A).
    eexists _, _. split; [by rewrite run_voice_agent, Hrun|].
    eapply served_transcription_exhausted; [done..|].
    by rewrite requests_sent_1. }
  destruct (answers_or_exhausts (chat E w (text t)))
    as [(j2 & c & H2)|[e Hex]]; last first.
  { destruct (pipeline_exhausts_completing E request w _ Hup j1 t H1 e Hex)
      as (w' & addr & Hrun & A).
    eexists _, _. split; [by rewrite run_voice_agent, Hrun|].
    eapply served_completion_exhausted; [done..|].
    by rewrite requests_sent_2. }
  destruct (choices c) as [|choice rest] eqn:Hchoices.
  { destruct (pipeline_no_choice E request w _ Hup j1 t H1 j2 c H2 Hchoices)
      as (w' & Hrun & A).
    eexists _, _. split; [by rewrite run_voice_agent, Hrun|].
    eapply served_no_choice; [done..|].
    by rewrite requests_sent_2. }
  assert (head (choices c) = Some choice) as Hhead by (by rewrite Hchoices).
  destruct (answers_or_exhausts (tts E w (content (message choice))))
    as [(j3 & out & H3)|[e Hex]]; last first.
  { destruct (pipeline_exhausts_synthesizing E request w _ Hup j1 t H1 j2 c H2
                choice rest Hchoices e Hex) as (w' & addr & Hrun & A).
    eexists _, _. split; [by rewrite run_voice_agent, Hrun|].
    eapply served_synthesis_exhausted; [done..|].
    by rewrite requests_sent_3. }
  destruct (pipeline_succeeds E request w _ Hup j1 t H1 j2 c H2
              choice rest Hchoices j3 out H3) as (w' & Hrun & A).
  eexists _, _. split; [by rewrite run_voice_agent, Hrun|].
  eapply served_success; [by split|].
  by rewrite requests_sent_3.
Qed.

(** ** Counting the requests of a stage *)

Lemma calls_to_app (s : stage) (l1 l2 : list call) :
  calls_to s (l1 ++ l2) = calls_to s l1 + calls_to s l2.
Proof. unfold calls_to. by rewrite filter_app, length_app. Qed.

Lemma calls_to_replicate (s : stage) (c : call) (n : nat) :
  calls_to s (replicate n c) = if decide (stage_of c = s) then n else 0.
Proof.
  unfold calls_to. induction n as [|n IH]; cbn [replicate].
  - by destruct (decide _).
  - rewrite filter_cons. destruct (decide (stage_of c = s)); cbn; by rewrite ?IH.
Qed.

Lemma calls_to_requests_sent (s : stage) audio n1 user_input n2 text_response n3 :
  calls_to s (requests_sent audio n1 user_input n2 text_response n3) =
  match s with
  | Transcribing => n1
  | Completing => n2
  | Synthesizing => n3
  end.
Proof.
  unfold requests_sent. rewrite !calls_to_app, !calls_to_replicate.
  unfold transcription_request, completion_request, speech_request.
  cbn [stage_of]. destruct s; repeat case_decide; try done; lia.
Qed.

Lemma requests_sent_in_stage_order audio n1 user_input n2 text_response n3 :
  in_stage_order (requests_sent audio n1 user_input n2 text_response n3).
Proof.
  eexists _, _, _. split; [reflexivity|].
  split_and!; by apply Forall_replicate.
Qed.

(** A stage that exhausts its budget makes [pipeline] raise [RetryError]
    around the exception of the sixth attempt, after exactly six requests to
    that stage. *)
Lemma exhausted_at_raises (E : env) (request : Request) (w : world)
    (s : stage) (e : exn) :
  exhausted_at E request w s e →
  ∃ addr w' m new pauses,
    run E (pipeline request) w = (Raised (RetryError 6 addr e), w') ∧
    after w w' m new pauses ∧
    in_stage_order new ∧
    calls_to s new = 6 ∧
    (∀ s', calls_to s' new ≤ 6).
Proof.
  intros [audio_file e' Hup Hex
         |audio_file j1 t e' Hup [Hj1 H1] Hex
         |audio_file j1 t j2 c choice e' Hup [Hj1 H1] [Hj2 H2] Hc Hex].
  - destruct (pipeline_exhausts_transcribing E request w _ Hup e' Hex)
      as (w' & addr & Hrun & A).
    rewrite <- (requests_sent_1 _ _ "" "") in A.
    eexists addr, w', _, _, _. split_and!; [done|exact A|..].
    + apply requests_sent_in_stage_order.
    + by rewrite calls_to_requests_sent.
    + intros s'. rewrite calls_to_requests_sent. destruct s'; lia.
  - destruct (pipeline_exhausts_completing E request w _ Hup j1 t
                (conj Hj1 H1) e' Hex) as (w' & addr & Hrun & A).
    rewrite <- (requests_sent_2 _ _ _ _ "") in A.
    eexists addr, w', _, _, _. split_and!; [done|exact A|..].
    + apply requests_sent_in_stage_order.
    + by rewrite calls_to_requests_sent.
    + intros s'. rewrite calls_to_requests_sent. destruct s'; lia.
  - apply head_Some_cons in Hc as [rest Hc].
    destruct (pipeline_exhausts_synthesizing E request w _ Hup j1 t
                (conj Hj1 H1) j2 c (conj Hj2 H2) choice rest Hc e' Hex)
      as (w' & addr & Hrun & A).
    rewrite <- requests_sent_3 in A.
    eexists addr, w', _, _, _. split_and!; [done|exact A|..].
    + apply requests_sent_in_stage_order.
    + by rewrite calls_to_requests_sent.
    + intros s'. rewrite calls_to_requests_sent. destruct s'; lia.
Qed.

(** * The claims *)

Lemma append_assoc (s1 s2 s3 : string) :
  (s1 +:+ s2) +:+ s3 = s1 +:+ (s2 +:+ s3).
Proof.
  induction s1 as [|a s1 IH]; [done|].
  change (String a ((s1 +:+ s2) +:+ s3) = String a (s1 +:+ (s2 +:+ s3))).
  by rewrite IH.
Qed.

(** The text of a [RetryError], spelled out. *)
Lemma str_RetryError (n : nat) (addr : N) (e : exn) :
  str (RetryError n addr e) =
  "RetryError[<Future at 0x" +:+ hex addr +:+ " state=finished raised " +:+
  exn_class e +:+ ">]".
Proof.
  unfold str, repr_future. rewrite !append_assoc.
  change ("RetryError[" +:+ "<Future at 0x" +:+ ?x)
    with ("RetryError[<Future at 0x" +:+ x).
  by change (">" +:+ "]") with ">]".
Qed.

Lemma jsonify_error (message : string) :
  jsonify [("error", message)] = {[ "error" := message ]}.
Proof. reflexivity. Qed.


(** C3: a request whose files hold no part named [audio], whatever else the
    request holds, is answered with status 400 and the body
    [{"error": "No audio file provided"}]; the world is left as it was, so
    no service was called and no pause was taken. *)
Theorem C3_missing_audio_is_rejected (E : env) (request : Request) (w : world) :
  "audio" ∉ (files request).*1 →
  run E (voice_agent request) w =
    (Ok {| body := {[ "error" := "No audio file provided" ]}; status := 400 |},
     w).
Proof.
  intros Hno. apply voice_agent_no_audio. by apply bool_decide_eq_false.
Qed.

Lemma C3_missing_audio_is_rejected_witness :
  run E_up (voice_agent no_audio_request) w_empty =
    (Ok {| body := {[ "error" := "No audio file provided" ]}; status := 400 |},
     w_empty).
Proof.
  apply (C3_missing_audio_is_rejected E_up no_audio_request w_empty).
  vm_compute. intros H. inversion H as [|? ? ? H']. inversion H'.
Defined.

(** C8: when a stage exhausts its retry budget (the synthesis included, the
    reply text being known by then), the response has status 500 and its
    body is exactly one [error] field holding a string: neither the reply
    text nor the audio is in it. *)
Theorem C8_failure_is_all_or_nothing (E : env) (request : Request) (w : world)
    (s : stage) (e : exn) :
  exhausted_at E request w s e →
  ∃ response w' message,
    run E (voice_agent request) w = (Ok response, w') ∧
    status response = 500 ∧
    body response = {[ "error" := message ]} ∧
    body response !! "text_response" = None ∧
    body response !! "audio_base64" = None.
Proof.
  intros Hex.
  destruct (exhausted_at_raises E request w s e Hex)
    as (addr & w' & m & new & pauses & Hrun & _).
  exists (error_response (RetryError 6 addr e)), w', (str (RetryError 6 addr e)).
  rewrite run_voice_agent, Hrun. by split_and!.
Qed.

Lemma E_down_exhausts :
  exhausted_at E_down sample_request w_empty Transcribing connection_error.
Proof.
  apply (exhausted_transcribing _ _ _ recording); [reflexivity|].
  split; [|reflexivity]. intros k _. by exists connection_error.
Defined.

Lemma C8_failure_is_all_or_nothing_witness :
  ∃ response w' message,
    run E_down (voice_agent sample_request) w_empty = (Ok response, w') ∧
    status response = 500 ∧
    body response = {[ "error" := message ]} ∧
    body response !! "text_response" = None ∧
    body response !! "audio_base64" = None.
Proof.
  apply (C8_failure_is_all_or_nothing E_down sample_request w_empty
           Transcribing connection_error).
  apply (exhausted_transcribing _ _ _ recording); [reflexivity|].
  split; [|reflexivity]. intros k _. exists connection_error. reflexivity.
Defined.

(** C2, as the code has it: when a stage exhausts its retry budget, the
    exception of the last attempt does not reach the handler itself.
    [pipeline] raises tenacity's [RetryError] around it, and the error field
    of the 500 response is the text of that [RetryError], which names the
    class of the last exception and the address of the attempt, not its
    message. *)
Theorem C2_exhaustion_raises_RetryError (E : env) (request : Request)
    (w : world) (s : stage) (e : exn) :
  exhausted_at E request w s e →
  ∃ addr w',
    run E (pipeline request) w = (Raised (RetryError 6 addr e), w') ∧
    run E (voice_agent request) w =
      (Ok {| body :=
               {[ "error" :=
                    "RetryError[<Future at 0x" +:+ hex addr +:+
                    " state=finished raised " +:+ exn_class e +:+ ">]" ]};
             status := 500 |}, w').
Proof.
  intros Hex.
  destruct (exhausted_at_raises E request w s e Hex)
    as (addr & w' & m & new & pauses & Hrun & _).
  exists addr, w'. split; [done|].
  by rewrite run_voice_agent, Hrun, <- (str_RetryError 6).
Qed.

Lemma C2_exhaustion_raises_RetryError_witness :
  ∃ addr w',
    run E_down (pipeline sample_request) w_empty =
      (Raised (RetryError 6 addr connection_error), w') ∧
    run E_down (voice_agent sample_request) w_empty =
      (Ok {| body :=
               {[ "error" :=
                    "RetryError[<Future at 0x" +:+ hex addr +:+
                    " state=finished raised " +:+
                    exn_class connection_error +:+ ">]" ]};
             status := 500 |}, w').
Proof.
  apply (C2_exhaustion_raises_RetryError E_down sample_request w_empty
           Transcribing connection_error).
  apply (exhausted_transcribing _ _ _ recording); [reflexivity|].
  split; [|reflexivity]. intros k _. exists connection_error. reflexivity.
Defined.

(** C2, as stated, fails: the transcription service refuses all six
    attempts with the message "Connection error."; the error field of the
    response is the text of the [RetryError], not that message. *)
Lemma C2_message_not_verbatim :
  exhausted_at E_down sample_request w_empty Transcribing connection_error ∧
  ∃ response w',
    run E_down (voice_agent sample_request) w_empty = (Ok response, w') ∧
    status response = 500 ∧
    body response !! "error" =
      Some "RetryError[<Future at 0x7f378baba210 state=finished raised APIConnectionError>]" ∧
    body response !! "error" ≠ Some (str connection_error).
Proof.
  split; [exact E_down_exhausts|].
  eexists _, _. split; [vm_compute; reflexivity|].
  split_and!; [reflexivity|vm_compute; reflexivity|vm_compute; discriminate].
Qed.

(** When every stage is answered within its budget, [pipeline] returns the
    successful response, having sent the requests of the three stages in
    turn, and leaves the temporary directory as it found it. *)
Lemma all_answered_run (E : env) (request : Request) (w : world)
    audio_file j1 t j2 c choice j3 speech_audio :
  all_answered E request w audio_file j1 t j2 c choice j3 speech_audio →
  ∃ w',
    run E (pipeline request) w =
      (Ok (success_response (content (message choice)) speech_audio), w') ∧
    after w w' (fs w)
      (requests_sent (stream audio_file) (S j1) (text t) (S j2)
         (content (message choice)) (S j3))
      (j1 + j2 + j3).
Proof.
  intros [Hup H1 H2 Hc H3].
  apply head_Some_cons in Hc as [rest Hc].
  destruct (pipeline_succeeds E request w _ Hup j1 t H1 j2 c H2
              choice rest Hc j3 speech_audio H3) as (w' & Hrun & A).
  exists w'. split; [done|]. by rewrite requests_sent_3.
Qed.



Lemma retries_transcribe_audio (E : env) (w : world) (file_path : string)
    (audio : bytes) :
  fs w !! file_path = Some audio →
  retries E (transcribe_audio file_path) (stt E w audio)
    (transcription_request audio) w.
Proof.
  intros Hfile.
  apply (retries_wrapped E _ (λ n, transcriptions E n audio)
           (transcription_request audio) (fs w)); [|done].
  intros w1 Hfs. apply transcribe_step. by rewrite Hfs.
Qed.

Lemma retries_generate_chat_response (E : env) (w : world)
    (user_input : string) :
  retries E (generate_chat_response user_input) (chat E w user_input)
    (completion_request user_input) w.
Proof.
  apply (retries_wrapped E _
           (λ n, completions E n (chat_messages user_input))
           (completion_request user_input) (fs w)); [|done].
  intros w1 _. by rewrite run_perform.
Qed.

Lemma retries_generate_speech (E : env) (w : world) (text : string) :
  retries E (generate_speech text) (tts E w text) (speech_request text) w.
Proof.
  apply (retries_wrapped E _ (λ n, speech E n text)
           (speech_request text) (fs w)); [|done].
  intros w1 _. by rewrite run_perform.
Qed.

(** With the random number one half, the pauses of the backoff are 1, 3/2,
    5/2, 9/2 and 17/2 seconds. *)
Example backoffs_half :
  Forall2 Qeq (backoffs (E_flaky 5) 0 5) [1; 3 # 2; 5 # 2; 9 # 2; 17 # 2]%Q.
Proof. repeat constructor. Qed.

(** C4: each of the three wrapped functions retries its request to the
    service on every exception, up to six attempts in all, with a randomized
    exponential backoff: when the service answers after [j] failures, [j] at
    most five, the function returns the answer after [j + 1] requests; when
    it fails six times, the function gives up after six requests; and the
    pause that follows failure [k] (from 0) is [1 + (min(2 ^ k, 60) - 1) * u]
    seconds for a random number [u] of its own, between 1 and 60 seconds
    (and at most [2 ^ k]).  So, when every stage is answered within its
    budget, be it after five failures at the sixth attempt, the run of the
    handler succeeds; when a stage fails six times, the run fails after
    exactly six requests to that stage. *)
Theorem C4_retry_budget (E : env) (request : Request) (w : world) :
  (∀ w1 file_path audio,
     fs w1 !! file_path = Some audio →
     retries E (transcribe_audio file_path) (stt E w1 audio)
       (transcription_request audio) w1) ∧
  (∀ w1 user_input,
     retries E (generate_chat_response user_input) (chat E w1 user_input)
       (completion_request user_input) w1) ∧
  (∀ w1 text,
     retries E (generate_speech text) (tts E w1 text)
       (speech_request text) w1) ∧
  (∀ d k,
     (1 <= backoff_pause E d k <= 60)%Q ∧
     (backoff_pause E d k <= inject_Z (2 ^ Z.of_nat k))%Q) ∧
  (∀ audio_file j1 t j2 c choice j3 speech_audio,
     all_answered E request w audio_file j1 t j2 c choice j3 speech_audio →
     ∃ response w',
       run E (voice_agent request) w = (Ok response, w') ∧
       status response = 200 ∧
       after w w' (fs w)
         (requests_sent (stream audio_file) (S j1) (text t) (S j2)
            (content (message choice)) (S j3))
         (j1 + j2 + j3)) ∧
  (∀ s e,
     exhausted_at E request w s e →
     ∃ response w' m new pauses,
       run E (voice_agent request) w = (Ok response, w') ∧
       status response = 500 ∧
       after w w' m new pauses ∧
       calls_to s new = 6 ∧
       (∀ s', calls_to s' new ≤ 6)).
Proof.
  split_and!.
  - intros w1 file_path audio. apply retries_transcribe_audio.
  - intros w1 user_input. apply retries_generate_chat_response.
  - intros w1 text. apply retries_generate_speech.
  - intros d k. split; [apply backoff_pause_ok|].
    destruct (backoff_pause_bounds E d k) as [_ Hhi].
    apply (Qle_trans _ _ _ Hhi). rewrite <- Zle_Qle. lia.
  - intros audio_file j1 t j2 c choice j3 out Hall.
    destruct (all_answered_run _ _ _ _ _ _ _ _ _ _ _ Hall) as (w' & Hrun & A).
    eexists _, w'. by rewrite run_voice_agent, Hrun.
  - intros s e Hex.
    destruct (exhausted_at_raises E request w s e Hex)
      as (addr & w' & m & new & pauses & Hrun & A & _ & Hsix & Hcap).
    exists (error_response (RetryError 6 addr e)), w', m, new, pauses.
    by rewrite run_voice_agent, Hrun.
Qed.

Lemma C4_retry_budget_witness :
  (∃ w',
     run (E_flaky 5) (generate_speech "It is noon.") w_empty =
       (Ok [x49; x44; x33], w') ∧
     fs w' = fs w_empty ∧
     calls w' = calls w_empty ++ replicate 6 (speech_request "It is noon.") ∧
     slept w' = slept w_empty ++ backoffs (E_flaky 5) (draws w_empty) 5 ∧
     draws w' = draws w_empty + 5) ∧
  ∃ response w',
    run (E_flaky 5) (voice_agent sample_request) w_empty = (Ok response, w') ∧
    status response = 200 ∧
    after w_empty w' (fs w_empty)
      (requests_sent (stream recording) 1 "What time is it?" 1 "It is noon." 6)
      5.
Proof.
  assert (answers (tts (E_flaky 5) w_empty "It is noon.") 5 [x49; x44; x33])
    as Hflaky.
  { split; [lia|]. split; [|reflexivity]. intros k Hk.
    exists connection_error. unfold tts. cbn.
    destruct (decide (k < 5)); [reflexivity|lia]. }
  split.
  - apply (proj1 (proj1 (proj2 (proj2
             (C4_retry_budget (E_flaky 5) sample_request w_empty)))
             w_empty "It is noon.") 5 [x49; x44; x33]).
    exact Hflaky.
  - apply (proj1 (proj2 (proj2 (proj2 (proj2
             (C4_retry_budget (E_flaky 5) sample_request w_empty)))))
             recording 0 {| text := "What time is it?" |}
             0 (reply "It is noon.")
             {| message := {| role := "assistant"; content := "It is noon." |} |}
             5 [x49; x44; x33]).
    split.
    + reflexivity.
    + split; [lia|]. split; [|reflexivity]. intros k Hk. lia.
    + split; [lia|]. split; [|reflexivity]. intros k Hk. lia.
    + reflexivity.
    + exact Hflaky.
Defined.

(** ** The temporary files after a request *)

(** When every stage is answered, the two temporary files are removed: the
    temporary directory is as it was before the request. *)
Lemma success_removes_temporary_files (E : env) (request : Request) (w : world)
    audio_file j1 t j2 c choice j3 speech_audio :
  all_answered E request w audio_file j1 t j2 c choice j3 speech_audio →
  ∃ response w',
    run E (voice_agent request) w = (Ok response, w') ∧
    status response = 200 ∧ fs w' = fs w.
Proof.
  intros Hall.
  destruct (all_answered_run _ _ _ _ _ _ _ _ _ _ _ Hall)
    as (w' & Hrun & [Hfs _ _]).
  eexists _, w'. by rewrite run_voice_agent, Hrun.
Qed.

(** When the transcription stage exhausts its budget, the staged audio is
    still in the temporary directory when the handler returns. *)
Lemma transcription_failure_leaves_staged_audio (E : env) (request : Request)
    (w : world) audio_file e :
  multidict_get (files request) "audio" = Some audio_file →
  exhausts (stt E w (stream audio_file)) e →
  ∃ response w',
    run E (voice_agent request) w = (Ok response, w') ∧
    status response = 500 ∧
    fs w !! mkstemp ".wav" (dom (fs w)) = None ∧
    fs w' !! mkstemp ".wav" (dom (fs w)) = Some (stream audio_file).
Proof.
  intros Hup Hex.
  destruct (pipeline_exhausts_transcribing E request w _ Hup e Hex)
    as (w' & addr & Hrun & [Hfs _ _]).
  eexists _, w'. rewrite run_voice_agent, Hrun, Hfs, lookup_insert_eq.
  split_and!; [done..| |done]. apply temp_audio_path_fresh.
Qed.

(** When the synthesis stage exhausts its budget, both temporary files are
    still there. *)
Lemma synthesis_failure_leaves_both_files (E : env) (request : Request)
    (w : world) audio_file j1 t j2 c choice e :
  multidict_get (files request) "audio" = Some audio_file →
  answers (stt E w (stream audio_file)) j1 t →
  answers (chat E w (text t)) j2 c →
  head (choices c) = Some choice →
  exhausts (tts E w (content (message choice))) e →
  let temp_audio_path := mkstemp ".wav" (dom (fs w)) in
  let staged := <[temp_audio_path := stream audio_file]> (fs w) in
  let temp_speech_path := mkstemp ".mp3" (dom staged) in
  ∃ response w',
    run E (voice_agent request) w = (Ok response, w') ∧
    status response = 500 ∧
    fs w' !! temp_audio_path = Some (stream audio_file) ∧
    fs w' !! temp_speech_path = Some [].
Proof.
  intros Hup H1 H2 Hc Hex. cbn zeta.
  apply head_Some_cons in Hc as [rest Hc].
  destruct (pipeline_exhausts_synthesizing E request w _ Hup j1 t H1 j2 c H2
              choice rest Hc e Hex) as (w' & addr & Hrun & [Hfs _ _]).
  eexists _, w'. rewrite run_voice_agent, Hrun, Hfs.
  split_and!; [done..| |apply lookup_insert_eq].
  rewrite lookup_insert_ne; [apply lookup_insert_eq|].
  intros Heq. by apply (temp_paths_differ w audio_file).
Qed.

(** C1 fails on the code: the transcription service refuses all six
    attempts, the handler answers 500, and the staged input audio,
    [/tmp/tmp0.wav], which did not exist before the request, is still in the
    temporary directory when the handler has returned. *)
Theorem C1_failure_leaves_staged_audio :
  ∃ response w',
    run E_down (voice_agent sample_request) w_empty = (Ok response, w') ∧
    status response = 500 ∧
    fs w_empty !! "/tmp/tmp0.wav" = None ∧
    fs w' !! "/tmp/tmp0.wav" = Some (stream recording).
Proof.
  eexists _, _. split; [vm_compute; reflexivity|].
  split_and!; [reflexivity|reflexivity|vm_compute; reflexivity].
Qed.

(** ** What a response tells about the run *)

Lemma served_success_inv (E : env) (request : Request) (w w' : world)
    (response : Response) :
  served E request w response w' → status response = 200 →
  ∃ audio_file j1 t j2 c choice j3 speech_audio,
    all_answered E request w audio_file j1 t j2 c choice j3 speech_audio ∧
    response = success_response (content (message choice)) speech_audio ∧
    after w w' (fs w)
      (requests_sent (stream audio_file) (S j1) (text t) (S j2)
         (content (message choice)) (S j3))
      (j1 + j2 + j3).
Proof.
  intros [Hno
         |audio_file e addr w1 _ _ A
         |audio_file j1 t e addr w1 _ _ _ A
         |audio_file j1 t j2 c w1 _ _ _ _ A
         |audio_file j1 t j2 c choice e addr w1 _ _ _ _ _ A
         |audio_file j1 t j2 c choice j3 out w1 Hall A] Hstatus;
    try discriminate Hstatus.
  by exists audio_file, j1, t, j2, c, choice, j3, out.
Qed.

Lemma elem_of_requests_sent (c : call) audio n1 user_input n2 text_response n3 :
  c ∈ requests_sent audio n1 user_input n2 text_response n3 →
  (c = transcription_request audio ∧ n1 ≠ 0) ∨
  (c = completion_request user_input ∧ n2 ≠ 0) ∨
  (c = speech_request text_response ∧ n3 ≠ 0).
Proof.
  unfold requests_sent. rewrite !elem_of_app, !elem_of_replicate. tauto.
Qed.

(** The requests of a run, whatever its end: those of the three stages in
    turn, the completion requests (if any) for the transcript, the speech
    requests (if any) for the first choice of the completion. *)
Lemma served_requests (E : env) (request : Request) (w w' : world)
    (response : Response) :
  served E request w response w' →
  (multidict_get (files request) "audio" = None ∧
   status response = 400 ∧ w' = w) ∨
  ∃ audio_file n1 user_input n2 text_response n3,
    multidict_get (files request) "audio" = Some audio_file ∧
    status response ≠ 400 ∧
    calls w' =
      calls w ++
      requests_sent (stream audio_file) (S n1) user_input n2 text_response n3 ∧
    (n2 ≠ 0 →
     ∃ j1 t, answers (stt E w (stream audio_file)) j1 t ∧
             user_input = text t) ∧
    (n3 ≠ 0 →
     ∃ j1 t j2 c choice,
       answers (stt E w (stream audio_file)) j1 t ∧
       answers (chat E w (text t)) j2 c ∧
       head (choices c) = Some choice ∧
       text_response = content (message choice)).
Proof.
  intros [Hno
         |audio_file e addr w1 Hup _ A
         |audio_file j1 t e addr w1 Hup H1 _ A
         |audio_file j1 t j2 c w1 Hup H1 H2 _ A
         |audio_file j1 t j2 c choice e addr w1 Hup H1 H2 Hc _ A
         |audio_file j1 t j2 c choice j3 out w1 [Hup H1 H2 Hc H3] A].
  - left. split_and!; [|done..].
    destruct (multidict_get (files request) "audio") eqn:Hget; [|done].
    assert (contains "audio" (files request) = true) as Hyes
      by (apply contains_multidict_get; by rewrite Hget).
    congruence.
  - right. eexists audio_file, 5, "", 0, "", 0.
    split_and!; [done|done|apply A|done..].
  - right. eexists audio_file, j1, (text t), 6, "", 0.
    split_and!; [done|done|apply A| |done]. intros _. by exists j1, t.
  - right. eexists audio_file, j1, (text t), (S j2), "", 0.
    split_and!; [done|done|apply A| |done]. intros _. by exists j1, t.
  - right. eexists audio_file, j1, (text t), (S j2), _, 6.
    split_and!; [done|done|apply A|..].
    + intros _. by exists j1, t.
    + intros _. by exists j1, t, j2, c, choice.
  - right. eexists audio_file, j1, (text t), (S j2), _, (S j3).
    split_and!; [done|done|apply A|..].
    + intros _. by exists j1, t.
    + intros _. by exists j1, t, j2, c, choice.
Qed.

(** C9: the check looks only for a file part named [audio].  When that part
    is there and holds no bytes, the handler stages the empty upload in its
    temporary file and goes on with [transcribe_audio] on that file: the
    first request of the run is a transcription request for the empty audio,
    and the response does not have status 400. *)
Theorem C9_empty_audio_is_transcribed (E : env) (request : Request) (w : world)
    (audio_file : FileStorage) :
  multidict_get (files request) "audio" = Some audio_file →
  stream audio_file = [] →
  let temp_audio_path := mkstemp ".wav" (dom (fs w)) in
  run E (pipeline request) w =
    run E (transcribe_audio temp_audio_path ≫= complete temp_audio_path)
      (set_fs (<[temp_audio_path := []]> (fs w)) w) ∧
  ∃ response w' more,
    run E (voice_agent request) w = (Ok response, w') ∧
    status response ≠ 400 ∧
    calls w' = calls w ++ transcription_request [] :: more.
Proof.
  intros Hup Hempty. cbn zeta. split.
  - by rewrite (pipeline_staged E request w audio_file Hup), Hempty.
  - destruct (voice_agent_served E request w) as (response & w' & Hrun & Hs).
    destruct (served_requests _ _ _ _ _ Hs)
      as [(Hnone & _)|(af & n1 & u & n2 & tx & n3 & Hup' & H400 & Hcalls & _)];
      [congruence|].
    assert (af = audio_file) as -> by congruence.
    exists response, w'. eexists. split_and!; [done..|].
    rewrite Hcalls, Hempty. unfold requests_sent. by cbn [replicate app].
Qed.

Lemma C9_empty_audio_is_transcribed_witness :
  let temp_audio_path := mkstemp ".wav" (dom (fs w_empty)) in
  run E_up (pipeline empty_request) w_empty =
    run E_up (transcribe_audio temp_audio_path ≫= complete temp_audio_path)
      (set_fs (<[temp_audio_path := []]> (fs w_empty)) w_empty) ∧
  ∃ response w' more,
    run E_up (voice_agent empty_request) w_empty = (Ok response, w') ∧
    status response ≠ 400 ∧
    calls w' = calls w_empty ++ transcription_request [] :: more.
Proof.
  apply (C9_empty_audio_is_transcribed E_up empty_request w_empty
           {| filename := "recording.wav"; stream := [] |}).
  - reflexivity.
  - reflexivity.
Defined.

Lemma dom_success_response (text_response : string) (speech_audio : bytes) :
  dom (body (success_response text_response speech_audio)) =
  ({[ "text_response"; "audio_base64" ]} : gset string).
Proof.
  unfold success_response, jsonify. cbn [body list_to_map foldr curry fst snd].
  by rewrite !dom_insert_L, dom_empty_L, union_empty_r_L.
Qed.

(** C6, as the code has it: the response of a successful run is a JSON
    object with exactly the fields [text_response] and [audio_base64];
    [text_response] is the content of the first choice of the completion,
    and [audio_base64] is valid base64 that decodes to exactly the bytes the
    synthesis stage returned.  The handler checks neither for emptiness:
    [audio_base64] is empty exactly when the synthesized audio is. *)
Theorem C6_success_payload (E : env) (request : Request) (w w' : world)
    (response : Response) :
  run E (voice_agent request) w = (Ok response, w') →
  status response = 200 →
  ∃ audio_file j1 t j2 c choice j3 speech_audio audio_base64,
    all_answered E request w audio_file j1 t j2 c choice j3 speech_audio ∧
    dom (body response) = {[ "text_response"; "audio_base64" ]} ∧
    body response !! "text_response" = Some (content (message choice)) ∧
    body response !! "audio_base64" = Some audio_base64 ∧
    Base64.b64decode audio_base64 = Some speech_audio ∧
    (audio_base64 = "" ↔ speech_audio = []).
Proof.
  intros Hrun Hstatus.
  destruct (voice_agent_served E request w) as (response' & w'' & Hrun' & Hs).
  assert (response' = response) as -> by congruence.
  destruct (served_success_inv _ _ _ _ _ Hs Hstatus)
    as (audio_file & j1 & t & j2 & c & choice & j3 & out & Hall & -> & _).
  exists audio_file, j1, t, j2, c, choice, j3, out, (Base64.b64encode out).
  split_and!; [done|apply dom_success_response|done|done|..].
  - apply b64decode_b64encode.
  - apply b64encode_empty_iff.
Qed.

Lemma C6_success_payload_witness :
  ∃ audio_file j1 t j2 c choice j3 speech_audio audio_base64,
    all_answered E_up sample_request w_empty audio_file j1 t j2 c choice j3
      speech_audio ∧
    dom (body (success_response "It is noon." [x49; x44; x33])) =
      {[ "text_response"; "audio_base64" ]} ∧
    body (success_response "It is noon." [x49; x44; x33]) !! "text_response" =
      Some (content (message choice)) ∧
    body (success_response "It is noon." [x49; x44; x33]) !! "audio_base64" =
      Some audio_base64 ∧
    Base64.b64decode audio_base64 = Some speech_audio ∧
    (audio_base64 = "" ↔ speech_audio = []).
Proof.
  apply (C6_success_payload E_up sample_request w_empty
           (run E_up (voice_agent sample_request) w_empty).2).
  - vm_compute. reflexivity.
  - reflexivity.
Defined.

(** C6, as stated, fails: with a recorded, non-empty audio and services that
    answer with an empty reply and an empty audio, the run succeeds and both
    fields of the response are empty. *)
Lemma C6_fields_can_be_empty :
  stream recording ≠ [] ∧
  ∃ response w',
    run E_mute (voice_agent sample_request) w_empty = (Ok response, w') ∧
    status response = 200 ∧
    body response !! "text_response" = Some "" ∧
    body response !! "audio_base64" = Some "".
Proof.
  split; [discriminate|].
  eexists _, _. split; [vm_compute; reflexivity|].
  split_and!; [reflexivity|vm_compute; reflexivity..].
Qed.

(** C7: when the transcription stage answers with a transcript, the
    completion stage is invoked for it: right after the transcription
    requests the run sends a completion request that carries exactly two
    messages, the system instruction "You are a helpful voice assistant." and
    then one user message holding the transcript, whatever requests were sent
    before this run; every completion request of the run is that one.  And
    when the completion stage answers with a completion whose first choice is
    [choice], the content of its message is the reply the rest of the run
    uses: the first request after the completion requests is a speech
    request for it, every speech request of the run is for it, and it is the
    [text_response] of the response when the run succeeds. *)
Theorem C7_completion_request_and_reply (E : env) (request : Request)
    (w : world) (audio_file : FileStorage) (j1 : nat) (t : Transcription) :
  multidict_get (files request) "audio" = Some audio_file →
  answers (stt E w (stream audio_file)) j1 t →
  ∃ response w' new,
    run E (voice_agent request) w = (Ok response, w') ∧
    calls w' = calls w ++ new ∧
    (∃ more,
       new =
         replicate (S j1) (transcription_request (stream audio_file)) ++
         ChatCompletionsCreate "gpt-3.5-turbo"
           [ {| role := "system";
                content := "You are a helpful voice assistant." |};
             {| role := "user"; content := text t |} ] :: more) ∧
    (∀ model messages,
       ChatCompletionsCreate model messages ∈ new →
       messages =
         [ {| role := "system";
              content := "You are a helpful voice assistant." |};
           {| role := "user"; content := text t |} ]) ∧
    (∀ j2 c choice,
       answers (chat E w (text t)) j2 c →
       head (choices c) = Some choice →
       (∃ more,
          new =
            replicate (S j1) (transcription_request (stream audio_file)) ++
            replicate (S j2) (completion_request (text t)) ++
            SpeechCreate "tts-1" "alloy" (content (message choice)) :: more) ∧
       (∀ model voice input,
          SpeechCreate model voice input ∈ new →
          input = content (message choice)) ∧
       (status response = 200 →
        body response !! "text_response" = Some (content (message choice)))).
Proof.
  intros Hup H1.
  assert (∀ n1 n2 model messages,
            ChatCompletionsCreate model messages ∈
              replicate n1 (transcription_request (stream audio_file)) ++
              replicate n2 (completion_request (text t)) →
            messages = chat_messages (text t)) as Hchat.
  { intros n1 n2 model messages
      [[? _]%elem_of_replicate|[[= _ ->] _]%elem_of_replicate]%elem_of_app;
      done. }
  assert (∀ n1 n2 model voice input,
            SpeechCreate model voice input ∉
              replicate n1 (transcription_request (stream audio_file)) ++
              replicate n2 (completion_request (text t))) as Hnone.
  { intros n1 n2 model voice input
      [[? _]%elem_of_replicate|[? _]%elem_of_replicate]%elem_of_app; done. }
  destruct (answers_or_exhausts (chat E w (text t)))
    as [(j2 & c & H2)|[e Hex]]; last first.
  { destruct (pipeline_exhausts_completing E request w _ Hup j1 t H1 e Hex)
      as (w' & addr & Hrun & [_ Hcalls _]).
    eexists _, w', _. rewrite run_voice_agent, Hrun.
    split_and!; [done|exact Hcalls|by exists (replicate 5 (completion_request (text t)))|..].
    - apply Hchat.
    - intros j2 c choice H2 _. destruct (answers_not_exhausts _ _ _ _ H2 Hex). }
  destruct (choices c) as [|choice rest] eqn:Hchoices.
  { destruct (pipeline_no_choice E request w _ Hup j1 t H1 j2 c H2 Hchoices)
      as (w' & Hrun & [_ Hcalls _]).
    eexists _, w', _. rewrite run_voice_agent, Hrun.
    split_and!; [done|exact Hcalls|by exists (replicate j2 (completion_request (text t)))|..].
    - apply Hchat.
    - intros j2' c' choice' H2' Hhead.
      destruct (answers_unique _ _ _ _ _ H2 H2') as [<- <-].
      by rewrite Hchoices in Hhead. }
  assert (∀ j2' c' choice',
            answers (chat E w (text t)) j2' c' →
            head (choices c') = Some choice' →
            j2' = j2 ∧ choice' = choice) as Hsame.
  { intros j2' c' choice' H2' Hhead.
    destruct (answers_unique _ _ _ _ _ H2 H2') as [<- <-].
    rewrite Hchoices in Hhead. by injection Hhead as <-. }
  destruct (answers_or_exhausts (tts E w (content (message choice))))
    as [(j3 & out & H3)|[e Hex]]; last first.
  { destruct (pipeline_exhausts_synthesizing E request w _ Hup j1 t H1 j2 c H2
                choice rest Hchoices e Hex)
      as (w' & addr & Hrun & [_ Hcalls _]).
    eexists _, w', _. rewrite run_voice_agent, Hrun.
    split_and!; [done|exact Hcalls|..].
    - exists (replicate j2 (completion_request (text t)) ++
              replicate 6 (speech_request (content (message choice)))).
      by rewrite <- !app_assoc.
    - intros model messages [Hin|[? _]%elem_of_replicate]%elem_of_app;
        [by eapply Hchat|done].
    - intros j2' c' choice' H2' Hhead.
      destruct (Hsame _ _ _ H2' Hhead) as [-> ->].
      split_and!; [|
        |done].
      + exists (replicate 5 (speech_request (content (message choice)))).
        by rewrite <- !app_assoc.
      + intros model voice input
          [Hin|[[= _ _ ->] _]%elem_of_replicate]%elem_of_app; [|done].
        by destruct (Hnone _ _ _ _ _ Hin). }
  destruct (pipeline_succeeds E request w _ Hup j1 t H1 j2 c H2
              choice rest Hchoices j3 out H3) as (w' & Hrun & [_ Hcalls _]).
  eexists _, w', _. rewrite run_voice_agent, Hrun.
  split_and!; [done|exact Hcalls|..].
  - exists (replicate j2 (completion_request (text t)) ++
            replicate (S j3) (speech_request (content (message choice)))).
    by rewrite <- !app_assoc.
  - intros model messages [Hin|[? _]%elem_of_replicate]%elem_of_app;
      [by eapply Hchat|done].
  - intros j2' c' choice' H2' Hhead.
    destruct (Hsame _ _ _ H2' Hhead) as [-> ->].
    split_and!; [| |done].
    + exists (replicate j3 (speech_request (content (message choice)))).
      by rewrite <- !app_assoc.
    + intros model voice input
        [Hin|[[= _ _ ->] _]%elem_of_replicate]%elem_of_app; [|done].
      by destruct (Hnone _ _ _ _ _ Hin).
Qed.

Lemma C7_completion_request_and_reply_witness :
  ∃ response w' new,
    run E_up (voice_agent sample_request) w_empty = (Ok response, w') ∧
    calls w' = calls w_empty ++ new ∧
    (∃ more,
       new =
         replicate 1 (transcription_request (stream recording)) ++
         ChatCompletionsCreate "gpt-3.5-turbo"
           [ {| role := "system";
                content := "You are a helpful voice assistant." |};
             {| role := "user"; content := "What time is it?" |} ] :: more) ∧
    (∀ model messages,
       ChatCompletionsCreate model messages ∈ new →
       messages =
         [ {| role := "system";
              content := "You are a helpful voice assistant." |};
           {| role := "user"; content := "What time is it?" |} ]) ∧
    (∀ j2 c choice,
       answers (chat E_up w_empty "What time is it?") j2 c →
       head (choices c) = Some choice →
       (∃ more,
          new =
            replicate 1 (transcription_request (stream recording)) ++
            replicate (S j2) (completion_request "What time is it?") ++
            SpeechCreate "tts-1" "alloy" (content (message choice)) :: more) ∧
       (∀ model voice input,
          SpeechCreate model voice input ∈ new →
          input = content (message choice)) ∧
       (status response = 200 →
        body response !! "text_response" = Some (content (message choice)))).
Proof.
  apply (C7_completion_request_and_reply E_up sample_request w_empty
           recording 0 {| text := "What time is it?" |}).
  - reflexivity.
  - split; [lia|]. split; [|reflexivity]. intros k Hk. lia.
Defined.

(** * Two requests at once *)

(** ** What one thread owns *)

Lemma owned_mono (E : env) {A} (p : prog A) o v
    (Q Q' : outcome A → gmap string bytes → view → Prop) :
  (∀ r o' v', Q r o' v' → Q' r o' v') → owned E p o v Q → owned E p o v Q'.
Proof.
  intros HQ. revert o v.
  induction p as [a|e|X op k IH]; intros o v; [apply HQ..|].
  destruct op; cbn; try (by apply IH).
  - intros H name Hname. by apply IH, H.
  - intros [? H]. split; [done|]. by apply IH.
  - intros (data & ? & H). exists data. split; [done|]. by apply IH.
  - intros [? H]. split; [done|]. by apply IH.
Qed.

Lemma owned_bind (E : env) {A B} (p : prog A) (f : A → prog B) o v
    (Q : outcome B → gmap string bytes → view → Prop) :
  owned E p o v (λ r o' v',
    match r with
    | Ok a => owned E (f a) o' v' Q
    | Raised e => Q (Raised e) o' v'
    end) →
  owned E (p ≫= f) o v Q.
Proof.
  revert o v. induction p as [a|e|X op k IH]; intros o v; [done..|].
  change (Do op k ≫= f) with (Do op (λ r, k r ≫= f)).
  destruct op; cbn; try (by apply IH).
  - intros H name Hname. by apply IH, H.
  - intros [? H]. split; [done|]. by apply IH.
  - intros (data & ? & H). exists data. split; [done|]. by apply IH.
  - intros [? H]. split; [done|]. by apply IH.
Qed.

Lemma owned_try_except (E : env) {A} (p : prog A) (handler : exn → prog A) o v
    (Q : outcome A → gmap string bytes → view → Prop) :
  owned E p o v (λ r o' v',
    match r with
    | Ok a => Q (Ok a) o' v'
    | Raised e => owned E (handler e) o' v' Q
    end) →
  owned E (try_except p handler) o v Q.
Proof.
  revert o v. induction p as [a|e|X op k IH]; intros o v; [done..|].
  cbn [try_except].
  destruct op; cbn; try (by apply IH).
  - intros H name Hname. by apply IH, H.
  - intros [? H]. split; [done|]. by apply IH.
  - intros (data & ? & H). exists data. split; [done|]. by apply IH.
  - intros [? H]. split; [done|]. by apply IH.
Qed.

(** One step of a thread keeps the files of the two threads apart. *)
Lemma step_owned (E : env) (shared : gmap string bytes) (p : prog Response)
    (v : view) (o o_other : gmap string bytes)
    (Q : outcome Response → gmap string bytes → view → Prop) :
  o ##ₘ o_other → o ⊆ shared → o_other ⊆ shared → owned E p o v Q →
  ∃ o',
    o' ##ₘ o_other ∧ o' ⊆ (step E shared (p, v)).1 ∧
    o_other ⊆ (step E shared (p, v)).1 ∧
    owned E (step E shared (p, v)).2.1 o' (step E shared (p, v)).2.2 Q.
Proof.
  intros Hdisj Ho Hother Hp.
  destruct p as [a|e|X op k]; [by exists o..|].
  destruct op as [suffix|path data|path|path| | | | | |]; cbn in Hp |- *.
  - pose proof (mkstemp_fresh suffix (dom shared)) as Hfresh.
    apply not_elem_of_dom in Hfresh.
    set (name := mkstemp suffix (dom shared)) in *.
    assert (o !! name = None) as Ho_name
      by exact (lookup_weaken_None _ _ _ Hfresh Ho).
    assert (o_other !! name = None) as Hother_name
      by exact (lookup_weaken_None _ _ _ Hfresh Hother).
    exists (<[name := []]> o). split_and!.
    + by apply map_disjoint_insert_l_2.
    + by apply insert_mono.
    + by apply insert_subseteq_r.
    + destruct v. by apply Hp.
  - destruct Hp as [[old Hold] Hp].
    assert (o_other !! path = None) as Hother_path
      by exact (map_disjoint_Some_l _ _ _ _ Hdisj Hold).
    exists (<[path := data]> o). split_and!.
    + by apply map_disjoint_insert_l_2.
    + by apply insert_mono.
    + by apply insert_subseteq_r.
    + by destruct v.
  - destruct Hp as (data & Hdata & Hp).
    rewrite (lookup_weaken _ _ _ _ Hdata Ho). cbn.
    exists o. split_and!; [done..|]. by destruct v.
  - destruct Hp as [[old Hold] Hp].
    assert (o_other !! path = None) as Hother_path
      by exact (map_disjoint_Some_l _ _ _ _ Hdisj Hold).
    rewrite (lookup_weaken _ _ _ _ Hold Ho). cbn.
    exists (delete path o). split_and!.
    + by apply map_disjoint_delete_l.
    + by apply delete_mono.
    + apply map_subseteq_spec. intros i x Hi.
      destruct (decide (i = path)) as [->|]; [congruence|].
      rewrite lookup_delete_ne by done. by eapply lookup_weaken.
    + by destruct v.
  - by exists o.
  - by exists o.
  - by exists o.
  - by exists o.
  - by exists o.
  - by exists o.
Qed.

Lemma world_of_view_of (w : world) : world_of (fs w) (view_of w) = w.
Proof. by destruct w. Qed.

Lemma view_of_world_of (m : gmap string bytes) (v : view) :
  view_of (world_of m v) = v.
Proof. by destruct v. Qed.

Lemma run_step (E : env) (p : prog Response) (m : gmap string bytes) (v : view) :
  run E p (world_of m v) =
  run E (step E m (p, v)).2.1
    (world_of (step E m (p, v)).1 (step E m (p, v)).2.2).
Proof.
  destruct p as [a|e|X op k]; [done..|].
  cbn [run step fst snd]. destruct (exec E op (world_of m v)) as [r w'].
  cbn [fst snd]. by rewrite world_of_view_of.
Qed.

(** A thread that runs alone from a directory that holds its files ends as
    [owned] says. *)
Lemma owned_run (E : env) (p : prog Response) (o m : gmap string bytes)
    (v : view) (Q : outcome Response → gmap string bytes → view → Prop) :
  owned E p o v Q → o ⊆ m →
  ∃ o', Q (run E p (world_of m v)).1 o' (view_of (run E p (world_of m v)).2).
Proof.
  revert o m v. induction p as [a|e|X op k IH]; intros o m v Hp Ho.
  - exists o. cbn [run fst snd]. by rewrite view_of_world_of.
  - exists o. cbn [run fst snd]. by rewrite view_of_world_of.
  - destruct (step_owned E m (Do op k) v o ∅ Q) as (o' & _ & Ho' & _ & Hp');
      [apply map_disjoint_empty_r|done|apply map_empty_subseteq|done|].
    rewrite run_step. revert Ho' Hp'. cbn [step fst snd].
    destruct (exec E op (world_of m v)) as [r w']. cbn [fst snd].
    intros Ho' Hp'. by apply (IH r o').
Qed.

(** Two threads that own disjoint files of the shared directory still do
    after any schedule. *)
Lemma interleave_owned (E : env) (schedule : list bool)
    (Q1 Q2 : outcome Response → gmap string bytes → view → Prop) :
  ∀ shared t1 t2 o1 o2,
    o1 ##ₘ o2 → o1 ⊆ shared → o2 ⊆ shared →
    owned E t1.1 o1 t1.2 Q1 → owned E t2.1 o2 t2.2 Q2 →
    ∃ o1' o2',
      owned E (interleave E schedule shared t1 t2).1.2.1 o1'
        (interleave E schedule shared t1 t2).1.2.2 Q1 ∧
      owned E (interleave E schedule shared t1 t2).2.1 o2'
        (interleave E schedule shared t1 t2).2.2 Q2.
Proof.
  induction schedule as [|[|] schedule IH];
    intros shared [p1 v1] [p2 v2] o1 o2 Hdisj H1 H2 Hp1 Hp2.
  - by exists o1, o2.
  - destruct (step_owned E shared p1 v1 o1 o2 Q1) as (o1' & ? & ? & ? & ?);
      [done..|].
    cbn [interleave]. destruct (step E shared (p1, v1)) as [shared' t1'].
    by apply (IH shared' t1' (p2, v2) o1' o2).
  - destruct (step_owned E shared p2 v2 o2 o1 Q2) as (o2' & ? & ? & ? & ?);
      [done..|].
    cbn [interleave]. destruct (step E shared (p2, v2)) as [shared' t2'].
    by apply (IH shared' (p1, v1) t2' o1 o2').
Qed.

(** ** Programs that only read their own files *)

Lemma reads_bind (R : gmap string bytes) {A B} (p : prog A) (f : A → prog B) :
  reads R p → (∀ a, reads R (f a)) → reads R (p ≫= f).
Proof.
  intros Hp Hf. induction p as [a|e|X op k IH]; [apply Hf|done|].
  change (Do op k ≫= f) with (Do op (λ r, k r ≫= f)).
  destruct op; cbn in Hp |- *; try done; try (intros r; by apply IH).
  destruct Hp as [? Hp]. split; [done|]. intros r. by apply IH.
Qed.

Lemma reads_try_except (R : gmap string bytes) {A} (p : prog A)
    (handler : exn → prog A) :
  reads R p → (∀ e, reads R (handler e)) → reads R (try_except p handler).
Proof.
  intros Hp Hh. induction p as [a|e|X op k IH]; [done|apply Hh|].
  cbn [try_except].
  destruct op; cbn in Hp |- *; try done; try (intros r; by apply IH).
  destruct Hp as [? Hp]. split; [done|]. intros r. by apply IH.
Qed.

Lemma reads_retrying (R : gmap string bytes) {A} (fn : prog A)
    (left n : nat) :
  reads R fn → reads R (retrying (wait_random_exponential 1 60) left n fn).
Proof.
  intros Hfn. revert n. induction left as [|left IH]; intros n.
  - cbn [retrying]. apply reads_bind.
    + apply reads_try_except; [|done]. by apply reads_bind.
    + intros [a|e]; [done|]. intros [u|e']; [|done]. by intros [addr|e''].
  - cbn [retrying]. apply reads_bind.
    + apply reads_try_except; [|done]. by apply reads_bind.
    + intros [a|e]; [done|]. intros [u|e']; [|done].
      intros [[]|e'']; [apply IH|done].
Qed.

(** Such a thread does alone what it does among others. *)
Lemma owned_reads (E : env) (R : gmap string bytes) {A} (p : prog A)
    (o : gmap string bytes) (v : view)
    (Q : outcome A → gmap string bytes → view → Prop) :
  reads R p → R ⊆ o →
  Q (run E p (world_of R v)).1 o (view_of (run E p (world_of R v)).2) →
  owned E p o v Q.
Proof.
  intros Hp HR. revert v.
  induction p as [a|e|X op k IH]; intros v;
    [cbn; by rewrite view_of_world_of..|].
  destruct op as [suffix|path data|path|path| | | | | |];
    cbn in Hp |- *; try done;
    try (intros HQ; apply IH; [apply Hp|exact HQ]).
  destruct Hp as [[data Hdata] Hp]. rewrite Hdata. cbn.
  intros HQ. exists data. split; [by eapply lookup_weaken|].
  apply IH; [apply Hp|exact HQ].
Qed.

(** ** The handler as one thread *)

Lemma reads_wrapped (R : gmap string bytes) {A} (fn : prog A) :
  reads R fn → reads R (retry (wait_random_exponential 1 60) 6 fn).
Proof. apply reads_retrying. Qed.

Lemma reads_transcribe_audio (R : gmap string bytes) (path : string) :
  is_Some (R !! path) → reads R (transcribe_audio path).
Proof.
  intros HR. apply reads_wrapped. apply reads_bind.
  - split; [done|]. by intros [data|e].
  - intros f. cbn. by intros [t|e].
Qed.

Lemma reads_generate_chat_response (R : gmap string bytes) (user_input : string) :
  reads R (generate_chat_response user_input).
Proof. apply reads_wrapped. cbn. by intros [c|e]. Qed.

Lemma reads_generate_speech (R : gmap string bytes) (text : string) :
  reads R (generate_speech text).
Proof. apply reads_wrapped. cbn. by intros [c|e]. Qed.

Section owned_stages.
Context (E : env) (v : view).
Context (o : gmap string bytes) (v1 : view).

Local Abbreviation w0 := (world_of ∅ v).

Lemma owned_transcribe_audio_answers (path : string) (audio : bytes) j t
    (Q : outcome Transcription → gmap string bytes → view → Prop) :
  o !! path = Some audio →
  calls_to Transcribing (view_calls v1) = calls_to Transcribing (view_calls v) →
  answers (stt E w0 audio) j t →
  (∀ v', view_calls v' =
           view_calls v1 ++ replicate (S j) (transcription_request audio) →
         Q (Ok t) o v') →
  owned E (transcribe_audio path) o v1 Q.
Proof.
  intros Hfile Hsent Hans HQ.
  apply (owned_reads E {[path := audio]}).
  - apply reads_transcribe_audio. by rewrite lookup_singleton_eq.
  - by apply map_singleton_subseteq_l.
  - destruct (run_transcribe_audio_answers E w0 (world_of {[path := audio]} v1)
                path audio j t) as (w' & -> & [_ Hcalls _]);
      [apply lookup_singleton_eq|done..|].
    by apply HQ.
Qed.

Lemma owned_transcribe_audio_exhausts (path : string) (audio : bytes) e
    (Q : outcome Transcription → gmap string bytes → view → Prop) :
  o !! path = Some audio →
  calls_to Transcribing (view_calls v1) = calls_to Transcribing (view_calls v) →
  exhausts (stt E w0 audio) e →
  (∀ v', view_calls v' =
           view_calls v1 ++ replicate 6 (transcription_request audio) →
         Q (Raised (RetryError 6 (address E (length (view_calls v'))) e)) o v') →
  owned E (transcribe_audio path) o v1 Q.
Proof.
  intros Hfile Hsent Hex HQ.
  apply (owned_reads E {[path := audio]}).
  - apply reads_transcribe_audio. by rewrite lookup_singleton_eq.
  - by apply map_singleton_subseteq_l.
  - destruct (run_transcribe_audio_exhausts E w0 (world_of {[path := audio]} v1)
                path audio e) as (w' & -> & [_ Hcalls _]);
      [apply lookup_singleton_eq|done..|].
    by apply (HQ (view_of w')).
Qed.

Lemma owned_generate_chat_response_answers (user_input : string) j c
    (Q : outcome ChatCompletion → gmap string bytes → view → Prop) :
  calls_to Completing (view_calls v1) = calls_to Completing (view_calls v) →
  answers (chat E w0 user_input) j c →
  (∀ v', view_calls v' =
           view_calls v1 ++ replicate (S j) (completion_request user_input) →
         Q (Ok c) o v') →
  owned E (generate_chat_response user_input) o v1 Q.
Proof.
  intros Hsent Hans HQ.
  apply (owned_reads E ∅);
    [apply reads_generate_chat_response|apply map_empty_subseteq|].
  destruct (run_generate_chat_response_answers E w0 (world_of ∅ v1)
              user_input j c) as (w' & -> & [_ Hcalls _]); [done..|].
  by apply HQ.
Qed.

Lemma owned_generate_chat_response_exhausts (user_input : string) e
    (Q : outcome ChatCompletion → gmap string bytes → view → Prop) :
  calls_to Completing (view_calls v1) = calls_to Completing (view_calls v) →
  exhausts (chat E w0 user_input) e →
  (∀ v', view_calls v' =
           view_calls v1 ++ replicate 6 (completion_request user_input) →
         Q (Raised (RetryError 6 (address E (length (view_calls v'))) e)) o v') →
  owned E (generate_chat_response user_input) o v1 Q.
Proof.
  intros Hsent Hex HQ.
  apply (owned_reads E ∅);
    [apply reads_generate_chat_response|apply map_empty_subseteq|].
  destruct (run_generate_chat_response_exhausts E w0 (world_of ∅ v1)
              user_input e) as (w' & -> & [_ Hcalls _]); [done..|].
  by apply (HQ (view_of w')).
Qed.

Lemma owned_generate_speech_answers (text : string) j out
    (Q : outcome bytes → gmap string bytes → view → Prop) :
  calls_to Synthesizing (view_calls v1) = calls_to Synthesizing (view_calls v) →
  answers (tts E w0 text) j out →
  (∀ v', view_calls v' = view_calls v1 ++ replicate (S j) (speech_request text) →
         Q (Ok out) o v') →
  owned E (generate_speech text) o v1 Q.
Proof.
  intros Hsent Hans HQ.
  apply (owned_reads E ∅);
    [apply reads_generate_speech|apply map_empty_subseteq|].
  destruct (run_generate_speech_answers E w0 (world_of ∅ v1) text j out)
    as (w' & -> & [_ Hcalls _]); [done..|].
  by apply HQ.
Qed.

Lemma owned_generate_speech_exhausts (text : string) e
    (Q : outcome bytes → gmap string bytes → view → Prop) :
  calls_to Synthesizing (view_calls v1) = calls_to Synthesizing (view_calls v) →
  exhausts (tts E w0 text) e →
  (∀ v', view_calls v' = view_calls v1 ++ replicate 6 (speech_request text) →
         Q (Raised (RetryError 6 (address E (length (view_calls v'))) e)) o v') →
  owned E (generate_speech text) o v1 Q.
Proof.
  intros Hsent Hex HQ.
  apply (owned_reads E ∅);
    [apply reads_generate_speech|apply map_empty_subseteq|].
  destruct (run_generate_speech_exhausts E w0 (world_of ∅ v1) text e)
    as (w' & -> & [_ Hcalls _]); [done..|].
  by apply (HQ (view_of w')).
Qed.
End owned_stages.

Lemma owned_NamedTemporaryFile (E : env) {A} (suffix : string)
    (f : string → prog A) o v
    (Q : outcome A → gmap string bytes → view → Prop) :
  (∀ name, o !! name = None → owned E (f name) (<[name := []]> o) v Q) →
  owned E (perform (NamedTemporaryFile suffix) ≫= f) o v Q.
Proof. intros H name Hname. by apply H. Qed.

Section owned_handler.
Context (E : env) (request : Request) (v : view) (audio_file : FileStorage).
Hypothesis uploaded : multidict_get (files request) "audio" = Some audio_file.

Local Abbreviation audio := (stream audio_file).
Local Abbreviation w0 := (world_of ∅ v).

Lemma owned_pipeline_staged
    (Q : outcome Response → gmap string bytes → view → Prop) :
  (∀ name, owned E (transcribe_audio name ≫= complete name)
             {[name := audio]} v Q) →
  owned E (pipeline request) ∅ v Q.
Proof.
  intros Hrest. unfold pipeline.
  assert (contains "audio" (files request) = true) as ->.
  { apply contains_multidict_get. by rewrite uploaded. }
  cbn [negb]. unfold getitem. rewrite uploaded.
  intros name _. split; [by rewrite lookup_insert_eq|].
  rewrite insert_insert_eq, insert_empty. apply Hrest.
Qed.

Lemma owned_respond (name1 name2 text_response : string) (out : bytes)
    (v' : view) (Q : outcome Response → gmap string bytes → view → Prop) :
  name1 ≠ name2 →
  (∀ o', Q (Ok (success_response text_response out)) o' v') →
  owned E (respond name1 text_response name2 out)
    (<[name2 := []]> {[name1 := audio]}) v' Q.
Proof.
  intros Hne HQ. unfold respond.
  split; [by rewrite lookup_insert_eq|].
  exists out. split; [by rewrite lookup_insert_eq|].
  split.
  { rewrite !lookup_insert_ne, lookup_singleton_eq by done. by eexists. }
  split.
  { rewrite lookup_delete_ne, lookup_insert_eq by done. by eexists. }
  apply HQ.
Qed.

Ltac sent :=
  repeat match goal with
         | H : view_calls _ = _ |- _ => rewrite H
         end;
  rewrite ?calls_to_app, ?calls_to_replicate, ?length_app, ?length_replicate;
  unfold transcription_request, completion_request, speech_request;
  cbn [stage_of]; repeat case_decide; try done; try lia.

(** Whatever names its temporary files get, the handler ends with one and
    the same response. *)
Lemma owned_pipeline :
  ∃ x, owned E (pipeline request) ∅ v (λ r _ _, response_of r = x).
Proof.
  destruct (answers_or_exhausts (stt E w0 audio))
    as [(j1 & t & H1)|[e Hex]]; last first.
  { eexists. apply owned_pipeline_staged. intros name. apply owned_bind.
    apply (owned_transcribe_audio_exhausts E v _ v name audio e);
      [apply lookup_singleton_eq|done..|].
    intros v3 Hv3. cbn. rewrite Hv3, length_app, length_replicate.
    reflexivity. }
  destruct (answers_or_exhausts (chat E w0 (text t)))
    as [(j2 & c & H2)|[e Hex]]; last first.
  { eexists. apply owned_pipeline_staged. intros name. apply owned_bind.
    apply (owned_transcribe_audio_answers E v _ v name audio j1 t);
      [apply lookup_singleton_eq|done..|].
    intros v3 Hv3. unfold complete. apply owned_bind.
    apply (owned_generate_chat_response_exhausts E v _ v3 (text t) e);
      [sent|done|].
    intros v4 Hv4. cbn. rewrite Hv4, Hv3, !length_app, !length_replicate.
    reflexivity. }
  destruct (choices c) as [|choice rest] eqn:Hchoices.
  { eexists. apply owned_pipeline_staged. intros name. apply owned_bind.
    apply (owned_transcribe_audio_answers E v _ v name audio j1 t);
      [apply lookup_singleton_eq|done..|].
    intros v3 Hv3. unfold complete. apply owned_bind.
    apply (owned_generate_chat_response_answers E v _ v3 (text t) j2 c);
      [sent|done|].
    intros v4 Hv4. unfold synthesize. rewrite Hchoices. cbn. reflexivity. }
  destruct (answers_or_exhausts (tts E w0 (content (message choice))))
    as [(j3 & out & H3)|[e Hex]]; last first.
  { eexists. apply owned_pipeline_staged. intros name. apply owned_bind.
    apply (owned_transcribe_audio_answers E v _ v name audio j1 t);
      [apply lookup_singleton_eq|done..|].
    intros v3 Hv3. unfold complete. apply owned_bind.
    apply (owned_generate_chat_response_answers E v _ v3 (text t) j2 c);
      [sent|done|].
    intros v4 Hv4. unfold synthesize. rewrite Hchoices.
    cbn [first mbind mret prog_bind prog_ret bind].
    apply owned_NamedTemporaryFile. intros name2 Hname2. apply owned_bind.
    apply (owned_generate_speech_exhausts E v _ v4 _ e); [sent|done|].
    intros v5 Hv5. cbn.
    rewrite Hv5, Hv4, Hv3, !length_app, !length_replicate. reflexivity. }
  exists (success_response (content (message choice)) out).
  apply owned_pipeline_staged. intros name. apply owned_bind.
  apply (owned_transcribe_audio_answers E v _ v name audio j1 t);
    [apply lookup_singleton_eq|done..|].
  intros v3 Hv3. unfold complete. apply owned_bind.
  apply (owned_generate_chat_response_answers E v _ v3 (text t) j2 c);
    [sent|done|].
  intros v4 Hv4. unfold synthesize. rewrite Hchoices.
  cbn [first mbind mret prog_bind prog_ret bind].
  apply owned_NamedTemporaryFile. intros name2 Hname2. apply owned_bind.
  apply (owned_generate_speech_answers E v _ v4 _ j3 out); [sent|done|].
  intros v5 Hv5. apply owned_respond; [|done].
  intros ->. by rewrite lookup_singleton_eq in Hname2.
Qed.
End owned_handler.

Lemma owned_voice_agent (E : env) (request : Request) (v : view) :
  ∃ x, owned E (voice_agent request) ∅ v (λ r _ _, r = Ok x).
Proof.
  destruct (multidict_get (files request) "audio") as [audio_file|] eqn:Hup.
  - destruct (owned_pipeline E request v audio_file Hup) as [x Hx].
    exists x. unfold voice_agent. apply owned_try_except.
    eapply owned_mono; [|exact Hx]. by intros [response|e] o' v' <-.
  - eexists. unfold voice_agent, pipeline.
    assert (contains "audio" (files request) = false) as ->.
    { apply not_true_is_false. intros Hyes%contains_multidict_get.
      rewrite Hup in Hyes. by destruct Hyes. }
    reflexivity.
Qed.

(** ** How many steps a thread takes *)

Lemma within_mono {A} (p : prog A) (n m : nat) :
  n ≤ m → within n p → within m p.
Proof.
  revert n m. induction p as [a|e|X op k IH]; intros n m Hle; [done..|].
  destruct n as [|n]; [done|]. destruct m as [|m]; [lia|].
  cbn. intros Hp r. apply (IH r n); [lia|apply Hp].
Qed.

Lemma lasts_mono {A} (p : prog A) (n m n' m' : Z) :
  (n ≤ n')%Z → (m ≤ m')%Z → lasts n m p → lasts n' m' p.
Proof.
  revert n m n' m'.
  induction p as [a|e|X op k IH]; intros n m n' m' Hn Hm; cbn; [lia..|].
  intros Hp r. apply (IH r (n - 1)%Z (m - 1)%Z); [lia..|apply Hp].
Qed.

Lemma lasts_bind {A B} (p : prog A) (f : A → prog B) (n1 m1 n2 m2 n m : Z) :
  (n1 + n2 ≤ n)%Z → (m1 ≤ m)%Z → (n1 + m2 ≤ m)%Z →
  lasts n1 m1 p → (∀ a, lasts n2 m2 (f a)) → lasts n m (p ≫= f).
Proof.
  revert n1 m1 n m.
  induction p as [a|e|X op k IH]; intros n1 m1 n m Hn Hm1 Hm2 Hp Hf.
  - cbn in Hp. apply (lasts_mono _ n2 m2); [lia..|apply Hf].
  - cbn in Hp |- *. lia.
  - change (Do op k ≫= f) with (Do op (λ r, k r ≫= f)).
    intros r. apply (IH r (n1 - 1)%Z (m1 - 1)%Z); [lia..|apply Hp|done].
Qed.

Lemma lasts_try_except {A} (p : prog A) (handler : exn → prog A)
    (n1 m1 n2 m2 n m : Z) :
  (n1 ≤ n)%Z → (m1 + n2 ≤ n)%Z → (m1 + m2 ≤ m)%Z →
  lasts n1 m1 p → (∀ e, lasts n2 m2 (handler e)) →
  lasts n m (try_except p handler).
Proof.
  revert n1 m1 n m.
  induction p as [a|e|X op k IH]; intros n1 m1 n m Hn Hm1 Hm2 Hp Hh.
  - cbn in Hp |- *. lia.
  - cbn in Hp. apply (lasts_mono _ n2 m2); [lia..|apply Hh].
  - cbn [try_except]. intros r.
    apply (IH r (n1 - 1)%Z (m1 - 1)%Z); [lia..|apply Hp|done].
Qed.

Lemma lasts_perform {X} (op : action X) : lasts 1 1 (perform op).
Proof. intros [x|e]; cbn; lia. Qed.

(** Every program has an end. *)
Lemma lasts_ends {A} (p : prog A) (n m : Z) :
  lasts n m p → (0 ≤ n)%Z ∨ (0 ≤ m)%Z.
Proof.
  revert n m. induction p as [a|e|X op k IH]; intros n m; cbn; [auto..|].
  intros Hp. destruct (IH (Raised (PyExc "" "")) _ _ (Hp _)); lia.
Qed.

Lemma lasts_within {A} (p : prog A) (n m k : Z) :
  lasts n m p → (n ≤ k)%Z → (m ≤ k)%Z → within (Z.to_nat k) p.
Proof.
  revert n m k. induction p as [a|e|X op k0 IH]; intros n m k Hp Hn Hm;
    [done..|].
  destruct (lasts_ends _ _ _ (Hp (Raised (PyExc "" "")))) as [H0|H0];
    (replace (Z.to_nat k) with (S (Z.to_nat (k - 1))) by lia;
     intros r; apply (IH r (n - 1)%Z (m - 1)%Z); [apply Hp|lia..]).
Qed.

(** A wrapped function whose body takes [b] effects returns after at most
    [left] failed attempts, each with its wait and its pause, and one more
    attempt; it gives up after one more wait and the look at the address of
    the last attempt. *)
Lemma lasts_retrying {A} (fn : prog A) (b : Z) (left n : nat) :
  lasts b b fn →
  lasts (Z.of_nat left * (b + 2) + b) (Z.of_nat left * (b + 2) + b + 2)
    (retrying (wait_random_exponential 1 60) left n fn).
Proof.
  intros Hfn.
  assert (0 ≤ b)%Z as Hb by (destruct (lasts_ends _ _ _ Hfn); lia).
  revert n. induction left as [|left IH]; intros n.
  - rewrite retrying_eq.
    apply (lasts_bind _ _ b (-1) 0 2); [lia..| |].
    + apply (lasts_try_except _ _ b b 0 (-1 - b)); [lia..| |by cbn].
      apply (lasts_bind _ _ b b 0 0); [lia..|done|by cbn].
    + intros [a|e]; [by cbn|].
      intros [u|e']; [|cbn; lia]. intros [addr|e'']; cbn; lia.
  - rewrite retrying_eq.
    apply (lasts_bind _ _ b (-1)
             (Z.of_nat left * (b + 2) + b + 2)
             (Z.of_nat left * (b + 2) + b + 4)); [lia..| |].
    + apply (lasts_try_except _ _ b b 0 (-1 - b)); [lia..| |by cbn].
      apply (lasts_bind _ _ b b 0 0); [lia..|done|by cbn].
    + intros [a|e]; [cbn; lia|].
      intros [u|e']; [|cbn; lia]. intros [[]|e'']; [|cbn; lia].
      eapply lasts_mono; [| |apply (IH (S n))]; lia.
Qed.

Lemma lasts_transcribe_audio (path : string) :
  lasts 22 24 (transcribe_audio path).
Proof.
  unfold transcribe_audio, retry. apply (lasts_retrying _ 2 5 1).
  apply (lasts_bind _ _ 1 1 1 1); [lia..|apply lasts_perform|].
  intros f. apply lasts_perform.
Qed.

Lemma lasts_generate_chat_response (user_input : string) :
  lasts 16 18 (generate_chat_response user_input).
Proof.
  unfold generate_chat_response, retry.
  apply (lasts_retrying _ 1 5 1), lasts_perform.
Qed.

Lemma lasts_generate_speech (text : string) :
  lasts 16 18 (generate_speech text).
Proof.
  unfold generate_speech, retry.
  apply (lasts_retrying _ 1 5 1), lasts_perform.
Qed.

Lemma lasts_respond (temp_audio_path text_response temp_speech : string)
    (speech_response : bytes) :
  lasts 4 4
    (respond temp_audio_path text_response temp_speech speech_response).
Proof.
  unfold respond.
  apply (lasts_bind _ _ 1 1 3 3); [lia..|apply lasts_perform|].
  intros _. apply (lasts_bind _ _ 1 1 2 2); [lia..|apply lasts_perform|].
  intros audio_data.
  apply (lasts_bind _ _ 1 1 1 1); [lia..|apply lasts_perform|].
  intros _. apply (lasts_bind _ _ 1 1 0 0); [lia..|apply lasts_perform|].
  by intros _.
Qed.

Lemma lasts_synthesize (temp_audio_path : string) (c : ChatCompletion) :
  lasts 21 21 (synthesize temp_audio_path c).
Proof.
  unfold synthesize.
  apply (lasts_bind _ _ 0 0 21 21); [lia..|by destruct (choices c)|].
  intros choice.
  apply (lasts_bind _ _ 1 1 20 20); [lia..|apply lasts_perform|].
  intros temp_speech.
  apply (lasts_bind _ _ 16 18 4 4); [lia..|apply lasts_generate_speech|].
  intros speech_response. apply lasts_respond.
Qed.

Lemma lasts_complete (temp_audio_path : string) (t : Transcription) :
  lasts 37 37 (complete temp_audio_path t).
Proof.
  unfold complete.
  apply (lasts_bind _ _ 16 18 21 21);
    [lia..|apply lasts_generate_chat_response|].
  intros c. apply lasts_synthesize.
Qed.

Lemma lasts_pipeline (request : Request) : lasts 61 61 (pipeline request).
Proof.
  unfold pipeline. destruct (negb _); [done|].
  apply (lasts_bind _ _ 0 0 61 61); [lia..| |].
  { unfold getitem. by destruct (multidict_get _ _). }
  intros audio_file.
  apply (lasts_bind _ _ 1 1 60 60); [lia..|apply lasts_perform|].
  intros temp_audio.
  apply (lasts_bind _ _ 1 1 59 59); [lia..|apply lasts_perform|].
  intros _.
  apply (lasts_bind _ _ 22 24 37 37); [lia..|apply lasts_transcribe_audio|].
  intros t. apply (lasts_complete temp_audio t).
Qed.

(** The handler ends after at most 64 atomic effects (61, in fact). *)
Lemma within_voice_agent (request : Request) : within 64 (voice_agent request).
Proof.
  apply (within_mono _ (Z.to_nat 61)); [lia|].
  apply (lasts_within _ 61 61); [|lia..].
  unfold voice_agent.
  apply (lasts_try_except _ _ 61 61 0 0); [lia..|apply lasts_pipeline|done].
Qed.

Lemma turns_cons (b x : bool) (schedule : list bool) :
  turns b (x :: schedule) =
  (if decide (x = b) then 1 else 0) + turns b schedule.
Proof. unfold turns. rewrite filter_cons. by destruct (decide (x = b)). Qed.

Lemma step_within (E : env) (shared : gmap string bytes) (t : thread) (n : nat) :
  within n t.1 → within (n - 1) (step E shared t).2.1.
Proof.
  destruct t as [[a|e|X op k] v]; [done..|].
  destruct n as [|n]; [done|]. cbn [fst snd]. intros Hk.
  unfold step. cbn [fst snd].
  destruct (exec E op (world_of shared v)) as [r w']. cbn [fst snd].
  replace (S n - 1) with n by lia. apply Hk.
Qed.

Lemma interleave_within (E : env) (schedule : list bool) :
  ∀ shared t1 t2 n1 n2,
    within n1 t1.1 → within n2 t2.1 →
    within (n1 - turns true schedule)
      (interleave E schedule shared t1 t2).1.2.1 ∧
    within (n2 - turns false schedule)
      (interleave E schedule shared t1 t2).2.1.
Proof.
  induction schedule as [|[|] schedule IH]; intros shared t1 t2 n1 n2 H1 H2.
  - cbn. by rewrite !Nat.sub_0_r.
  - cbn [interleave]. rewrite !turns_cons.
    pose proof (step_within E shared t1 n1 H1) as H1'.
    destruct (step E shared t1) as [shared' t1'].
    destruct (IH shared' t1' t2 (n1 - 1) n2 H1' H2) as [IH1 IH2].
    repeat case_decide; try done.
    split; [|done]. by replace (n1 - (1 + turns true schedule))
      with (n1 - 1 - turns true schedule) by lia.
  - cbn [interleave]. rewrite !turns_cons.
    pose proof (step_within E shared t2 n2 H2) as H2'.
    destruct (step E shared t2) as [shared' t2'].
    destruct (IH shared' t1 t2' n1 (n2 - 1) H1 H2') as [IH1 IH2].
    repeat case_decide; try done.
    split; [done|]. by replace (n2 - (1 + turns false schedule))
      with (n2 - 1 - turns false schedule) by lia.
Qed.

Lemma returned_Some (t : thread) (response : Response) :
  returned t = Some response ↔ t.1 = Ret response.
Proof.
  unfold returned. destruct t as [[a|e|X op k] v]; cbn; split; congruence.
Qed.

(** C10: two requests served at once, their atomic effects interleaved in
    any order on one shared temporary directory, each get the response they
    get when served alone from the same directory: the files a handler
    creates have fresh names, and it touches no other file.  Each handler
    has returned once it has been given 64 steps.  (The services answer the
    requests of a handler run from that run's own view; what is shared
    between the runs is the temporary directory.) *)
Theorem C10_requests_do_not_interfere (E : env) (request1 request2 : Request)
    (shared : gmap string bytes) (v1 v2 : view) (schedule : list bool) :
  ∃ response1 response2,
    (run E (voice_agent request1) (world_of shared v1)).1 = Ok response1 ∧
    (run E (voice_agent request2) (world_of shared v2)).1 = Ok response2 ∧
    let final :=
      interleave E schedule shared
        (voice_agent request1, v1) (voice_agent request2, v2) in
    (∀ response, returned final.1.2 = Some response → response = response1) ∧
    (∀ response, returned final.2 = Some response → response = response2) ∧
    (64 ≤ turns true schedule → returned final.1.2 = Some response1) ∧
    (64 ≤ turns false schedule → returned final.2 = Some response2).
Proof.
  destruct (owned_voice_agent E request1 v1) as [x1 Hx1].
  destruct (owned_voice_agent E request2 v2) as [x2 Hx2].
  exists x1, x2.
  destruct (owned_run E _ ∅ shared v1 _ Hx1) as [_ Hsolo1];
    [apply map_empty_subseteq|].
  destruct (owned_run E _ ∅ shared v2 _ Hx2) as [_ Hsolo2];
    [apply map_empty_subseteq|].
  split; [done|]. split; [done|]. cbn zeta.
  destruct (interleave_owned E schedule (λ r _ _, r = Ok x1)
              (λ r _ _, r = Ok x2) shared
              (voice_agent request1, v1) (voice_agent request2, v2) ∅ ∅)
    as (o1 & o2 & Hfinal1 & Hfinal2);
    [apply map_disjoint_empty_l|apply map_empty_subseteq..|done|done|].
  destruct (interleave_within E schedule shared
              (voice_agent request1, v1) (voice_agent request2, v2) 64 64)
    as [Hsteps1 Hsteps2]; [apply within_voice_agent..|].
  destruct (interleave E schedule shared (voice_agent request1, v1)
              (voice_agent request2, v2)) as [[shared' [p1 v1']] [p2 v2']].
  cbn [fst snd] in *.
  assert (∀ (p : prog Response) o v' x,
            owned E p o v' (λ r _ _, r = Ok x) →
            (∀ response, returned (p, v') = Some response → response = x) ∧
            (within 0 p → returned (p, v') = Some x)) as Hend.
  { intros [a|e|X op k] o v' x Hp; cbn in Hp |- *.
    - injection Hp as ->. split; [by intros ? [= ->]|done].
    - done.
    - split; [done|by intros []]. }
  destruct (Hend _ _ _ _ Hfinal1) as [Hsame1 Hdone1].
  destruct (Hend _ _ _ _ Hfinal2) as [Hsame2 Hdone2].
  split_and!; [done|done| |].
  - intros Hturns. apply Hdone1.
    by replace (64 - turns true schedule) with 0 in Hsteps1 by lia.
  - intros Hturns. apply Hdone2.
    by replace (64 - turns false schedule) with 0 in Hsteps2 by lia.
Qed.

Lemma C10_requests_do_not_interfere_witness :
  ∃ response1 response2,
    (run E_up (voice_agent sample_request) (world_of ∅ (View [] [] 0))).1 =
      Ok response1 ∧
    (run E_up (voice_agent empty_request) (world_of ∅ (View [] [] 0))).1 =
      Ok response2 ∧
    let final :=
      interleave E_up (replicate 64 true ++ replicate 64 false) ∅
        (voice_agent sample_request, View [] [] 0)
        (voice_agent empty_request, View [] [] 0) in
    (∀ response, returned final.1.2 = Some response → response = response1) ∧
    (∀ response, returned final.2 = Some response → response = response2) ∧
    (64 ≤ turns true (replicate 64 true ++ replicate 64 false) →
     returned final.1.2 = Some response1) ∧
    (64 ≤ turns false (replicate 64 true ++ replicate 64 false) →
     returned final.2 = Some response2).
Proof.
  exact (C10_requests_do_not_interfere E_up sample_request empty_request ∅
           (View [] [] 0) (View [] [] 0)
           (replicate 64 true ++ replicate 64 false)).
Defined.

(** * More of the code *)

(** ** The shape of every response *)

Lemma contains_elem_of {V} (key : string) (d : list (string * V)) :
  contains key d = false ↔ key ∉ d.*1.
Proof. unfold contains. by rewrite bool_decide_eq_false. Qed.

Lemma served_shape (E : env) (request : Request) (w w' : world)
    (response : Response) :
  served E request w response w' →
  (status response = 400 ↔ "audio" ∉ (files request).*1) ∧
  ((status response = 200 ∧
    dom (body response) = {[ "text_response"; "audio_base64" ]}) ∨
   (status response = 400 ∧
    body response = {[ "error" := "No audio file provided" ]}) ∨
   (status response = 500 ∧
    ∃ message, body response = {[ "error" := message ]} ∧ message ≠ "")).
Proof.
  assert (∀ audio_file,
            multidict_get (files request) "audio" = Some audio_file →
            "audio" ∉ (files request).*1 → False) as Hin.
  { intros audio_file Hup Hno. apply contains_elem_of in Hno.
    assert (contains "audio" (files request) = true) as Hyes
      by (apply contains_multidict_get; by rewrite Hup).
    congruence. }
  intros [Hno
         |audio_file e addr w1 Hup _ A
         |audio_file j1 t e addr w1 Hup _ _ A
         |audio_file j1 t j2 c w1 Hup _ _ _ A
         |audio_file j1 t j2 c choice e addr w1 Hup _ _ _ _ A
         |audio_file j1 t j2 c choice j3 out w1 [Hup _ _ _ _] A].
  - split; [by rewrite <- contains_elem_of|]. right. left. done.
  - split; [split; [done|by intros ?%(Hin audio_file)]|].
    right. right. split; [done|]. by eexists.
  - split; [split; [done|by intros ?%(Hin audio_file)]|].
    right. right. split; [done|]. by eexists.
  - split; [split; [done|by intros ?%(Hin audio_file)]|].
    right. right. split; [done|]. by eexists.
  - split; [split; [done|by intros ?%(Hin audio_file)]|].
    right. right. split; [done|]. by eexists.
  - split; [split; [done|by intros ?%(Hin audio_file)]|].
    left. split; [done|]. apply dom_success_response.
Qed.

(** X1: every request is answered, never with an exception; the status is
    200, 400 or 500; it is 400 exactly when no file part is named [audio]; a
    200 body has exactly the fields [text_response] and [audio_base64], and
    every other body is exactly one [error] field, which is never the empty
    string. *)
Theorem X1_voice_agent_response_shape (E : env) (request : Request) (w : world) :
  ∃ response w',
    run E (voice_agent request) w = (Ok response, w') ∧
    (status response = 400 ↔ "audio" ∉ (files request).*1) ∧
    ((status response = 200 ∧
      dom (body response) = {[ "text_response"; "audio_base64" ]}) ∨
     (status response = 400 ∧
      body response = {[ "error" := "No audio file provided" ]}) ∨
     (status response = 500 ∧
      ∃ message, body response = {[ "error" := message ]} ∧ message ≠ "")).
Proof.
  destruct (voice_agent_served E request w) as (response & w' & Hrun & Hs).
  exists response, w'. split; [done|]. by apply (served_shape E request w w').
Qed.

(** ** A completion without choices *)

(** X2: when the completion service answers with an empty list of choices,
    [choices[0]] raises [IndexError]: the response is 500 with the body
    [{"error": "list index out of range"}], no speech request is sent and no
    speech file is created, and the staged audio stays in the temporary
    directory. *)
Theorem X2_completion_without_choices (E : env) (request : Request) (w : world)
    (audio_file : FileStorage) (j1 : nat) (t : Transcription) (j2 : nat)
    (c : ChatCompletion) :
  multidict_get (files request) "audio" = Some audio_file →
  answers (stt E w (stream audio_file)) j1 t →
  answers (chat E w (text t)) j2 c →
  choices c = [] →
  ∃ w',
    run E (voice_agent request) w =
      (Ok {| body := {[ "error" := "list index out of range" ]};
             status := 500 |}, w') ∧
    calls_to Synthesizing (calls w') = calls_to Synthesizing (calls w) ∧
    fs w' = <[mkstemp ".wav" (dom (fs w)) := stream audio_file]> (fs w).
Proof.
  intros Hup H1 H2 Hc.
  destruct (pipeline_no_choice E request w _ Hup j1 t H1 j2 c H2 Hc)
    as (w' & Hrun & [Hfs Hcalls _]).
  exists w'. rewrite run_voice_agent, Hrun. split_and!; [done| |done].
  rewrite Hcalls, !calls_to_app, !calls_to_replicate.
  unfold transcription_request, completion_request. cbn [stage_of].
  repeat case_decide; done || lia.
Qed.

Lemma X2_completion_without_choices_witness :
  ∃ w',
    run E_no_choice (voice_agent sample_request) w_empty =
      (Ok {| body := {[ "error" := "list index out of range" ]};
             status := 500 |}, w') ∧
    calls_to Synthesizing (calls w') = calls_to Synthesizing (calls w_empty) ∧
    fs w' =
      <[mkstemp ".wav" (dom (fs w_empty)) := stream recording]> (fs w_empty).
Proof.
  apply (X2_completion_without_choices E_no_choice sample_request w_empty
           recording 0 {| text := "What time is it?" |} 0 {| choices := [] |}).
  - reflexivity.
  - split; [lia|]. split; [|reflexivity]. intros k Hk. lia.
  - split; [lia|]. split; [|reflexivity]. intros k Hk. lia.
  - reflexivity.
Defined.

(** ** The temporary directory *)

(** The temporary directory after a request: as before, or with the staged
    audio, or with the staged audio and the empty speech file. *)
Lemma served_fs (E : env) (request : Request) (w w' : world)
    (response : Response) :
  served E request w response w' →
  (status response ≠ 500 ∧ fs w' = fs w) ∨
  (status response = 500 ∧
   ∃ audio_file,
     multidict_get (files request) "audio" = Some audio_file ∧
     let temp_audio_path := mkstemp ".wav" (dom (fs w)) in
     let staged := <[temp_audio_path := stream audio_file]> (fs w) in
     fs w' = staged ∨ fs w' = <[mkstemp ".mp3" (dom staged) := []]> staged).
Proof.
  intros [Hno
         |audio_file e addr w1 Hup _ [Hfs _ _]
         |audio_file j1 t e addr w1 Hup _ _ [Hfs _ _]
         |audio_file j1 t j2 c w1 Hup _ _ _ [Hfs _ _]
         |audio_file j1 t j2 c choice e addr w1 Hup _ _ _ _ [Hfs _ _]
         |audio_file j1 t j2 c choice j3 out w1 [Hup _ _ _ _] [Hfs _ _]].
  - left. by split.
  - right. split; [done|]. exists audio_file. split; [done|]. by left.
  - right. split; [done|]. exists audio_file. split; [done|]. by left.
  - right. split; [done|]. exists audio_file. split; [done|]. by left.
  - right. split; [done|]. exists audio_file. split; [done|]. by right.
  - left. by split.
Qed.

(** X3: the handler never changes or removes a file that was in the temporary
    directory before the request. *)
Theorem X3_existing_files_are_kept (E : env) (request : Request) (w : world) :
  fs w ⊆ fs (run E (voice_agent request) w).2.
Proof.
  destruct (voice_agent_served E request w) as (response & w' & Hrun & Hs).
  rewrite Hrun. cbn [snd].
  destruct (served_fs _ _ _ _ _ Hs)
    as [[_ ->]|(_ & audio_file & Hup & [->| ->])]; [done|..].
  - apply insert_subseteq, (temp_audio_path_fresh w).
  - etrans; [apply insert_subseteq, (temp_audio_path_fresh w)|].
    apply insert_subseteq, (temp_speech_path_fresh w audio_file).
Qed.

(** X4: the temporary directory is as it was exactly when the response is not
    a 500; every 500 response leaves the staged copy of the upload, under a
    name that was free before, and at most one more file, the empty speech
    file. *)
Theorem X4_failure_leaves_temporary_files (E : env) (request : Request)
    (w : world) :
  ∃ response w',
    run E (voice_agent request) w = (Ok response, w') ∧
    (status response ≠ 500 → fs w' = fs w) ∧
    (status response = 500 →
     ∃ audio_file,
       multidict_get (files request) "audio" = Some audio_file ∧
       let temp_audio_path := mkstemp ".wav" (dom (fs w)) in
       let staged := <[temp_audio_path := stream audio_file]> (fs w) in
       let temp_speech_path := mkstemp ".mp3" (dom staged) in
       fs w !! temp_audio_path = None ∧
       fs w' !! temp_audio_path = Some (stream audio_file) ∧
       (fs w' = staged ∨
        fs w' = <[temp_speech_path := []]> staged ∧
        staged !! temp_speech_path = None)).
Proof.
  destruct (voice_agent_served E request w) as (response & w' & Hrun & Hs).
  exists response, w'. split; [done|].
  destruct (served_fs _ _ _ _ _ Hs)
    as [[H500 Hfs]|(H500 & audio_file & Hup & Hfs)].
  - split; [done|]. by intros ?.
  - split; [by intros ?|]. intros _. exists audio_file. split; [done|].
    cbn zeta in *. split; [apply temp_audio_path_fresh|].
    destruct Hfs as [->| ->].
    + split; [apply lookup_insert_eq|by left].
    + pose proof (temp_paths_differ w audio_file) as Hne.
      split; [by rewrite lookup_insert_ne, lookup_insert_eq|].
      right. split; [done|]. apply (temp_speech_path_fresh w audio_file).
Qed.

(** ** The requests of a run *)

Lemma length_requests_sent audio n1 user_input n2 text_response n3 :
  length (requests_sent audio n1 user_input n2 text_response n3) =
  n1 + n2 + n3.
Proof.
  unfold requests_sent. rewrite !length_app, !length_replicate. lia.
Qed.

Lemma served_budget (E : env) (request : Request) (w w' : world)
    (response : Response) :
  served E request w response w' →
  ∃ audio n1 user_input n2 text_response n3,
    calls w' =
      calls w ++ requests_sent audio n1 user_input n2 text_response n3 ∧
    n1 ≤ 6 ∧ n2 ≤ 6 ∧ n3 ≤ 6 ∧
    (status response = 200 → 1 ≤ n1 ∧ 1 ≤ n2 ∧ 1 ≤ n3) ∧
    (status response = 400 → n1 + n2 + n3 = 0).
Proof.
  intros [Hno
         |audio_file e addr w1 _ _ [_ Hcalls _]
         |audio_file j1 t e addr w1 _ [Hj1 _] _ [_ Hcalls _]
         |audio_file j1 t j2 c w1 _ [Hj1 _] [Hj2 _] _ [_ Hcalls _]
         |audio_file j1 t j2 c choice e addr w1 _ [Hj1 _] [Hj2 _] _ _
            [_ Hcalls _]
         |audio_file j1 t j2 c choice j3 out w1
            [_ [Hj1 _] [Hj2 _] _ [Hj3 _]] [_ Hcalls _]].
  - exists [], 0, "", 0, "", 0. rewrite app_nil_r.
    split_and!; [done|lia..|done|done].
  - eexists _, _, _, _, _, _. split; [exact Hcalls|].
    split_and!; [lia..|done|done].
  - eexists _, _, _, _, _, _. split; [exact Hcalls|].
    split_and!; [lia..|done|done].
  - eexists _, _, _, _, _, _. split; [exact Hcalls|].
    split_and!; [lia..|done|done].
  - eexists _, _, _, _, _, _. split; [exact Hcalls|].
    split_and!; [lia..|done|done].
  - eexists _, _, _, _, _, _. split; [exact Hcalls|].
    split_and!; [lia..| |done]. intros _. lia.
Qed.

(** X5: whatever the services do, one request to the handler calls each of
    the three [create] methods of the client at most six times, eighteen
    calls in all at most; a 200 response has cost at least one call of each
    of the three, a 400 response none.  (What the client sends again on its
    own inside one call is not counted.) *)
Theorem X5_request_budget (E : env) (request : Request) (w : world) :
  ∃ response w' new,
    run E (voice_agent request) w = (Ok response, w') ∧
    calls w' = calls w ++ new ∧
    length new ≤ 18 ∧
    (∀ s, calls_to s new ≤ 6) ∧
    (status response = 200 → ∀ s, 1 ≤ calls_to s new) ∧
    (status response = 400 → new = []).
Proof.
  destruct (voice_agent_served E request w) as (response & w' & Hrun & Hs).
  destruct (served_budget _ _ _ _ _ Hs)
    as (audio & n1 & u & n2 & tx & n3 & Hcalls & H1 & H2 & H3 & H200 & H400).
  exists response, w', (requests_sent audio n1 u n2 tx n3).
  split_and!; [done|done|..].
  - rewrite length_requests_sent. lia.
  - intros s. rewrite calls_to_requests_sent. by destruct s.
  - intros Hstatus s. rewrite calls_to_requests_sent.
    destruct (H200 Hstatus) as (? & ? & ?). by destruct s.
  - intros Hstatus. specialize (H400 Hstatus).
    apply length_zero_iff_nil. rewrite length_requests_sent. lia.
Qed.

(** X6: every request the handler sends is one of the three the code
    writes: a transcription by [whisper-1] of exactly the bytes of the
    uploaded part, a completion by [gpt-3.5-turbo] of the system instruction
    and one user message, or speech by [tts-1] in the voice [alloy]; and when
    a part named [audio] was uploaded, the first request is that
    transcription. *)
Theorem X6_requests_are_fixed (E : env) (request : Request) (w : world) :
  ∃ response w' new,
    run E (voice_agent request) w = (Ok response, w') ∧
    calls w' = calls w ++ new ∧
    (∀ c, c ∈ new →
       (∃ audio_file,
          multidict_get (files request) "audio" = Some audio_file ∧
          c = TranscriptionsCreate "whisper-1" (stream audio_file)) ∨
       (∃ user_input,
          c = ChatCompletionsCreate "gpt-3.5-turbo"
                [ {| role := "system";
                     content := "You are a helpful voice assistant." |};
                  {| role := "user"; content := user_input |} ]) ∨
       (∃ text_response, c = SpeechCreate "tts-1" "alloy" text_response)) ∧
    (∀ audio_file,
       multidict_get (files request) "audio" = Some audio_file →
       head new = Some (TranscriptionsCreate "whisper-1" (stream audio_file))).
Proof.
  destruct (voice_agent_served E request w) as (response & w' & Hrun & Hs).
  exists response, w'.
  destruct (served_requests _ _ _ _ _ Hs)
    as [(Hnone & _ & ->)
       |(af & n1 & u & n2 & tx & n3 & Hup & _ & Hcalls & _)].
  - exists []. split_and!; [done|by rewrite app_nil_r| |].
    + by intros c ?%elem_of_nil.
    + intros audio_file Hup. congruence.
  - eexists. split_and!; [done|exact Hcalls| |].
    + intros c [[-> _]|[[-> _]|[-> _]]]%elem_of_requests_sent.
      * left. by exists af.
      * right. left. by exists u.
      * right. right. by exists tx.
    + intros audio_file Hup'. assert (audio_file = af) as -> by congruence.
      done.
Qed.

(** ** What of the request the handler reads *)

Lemma pipeline_reads_first_audio (request : Request)
    (audio_file : FileStorage) :
  multidict_get (files request) "audio" = Some audio_file →
  pipeline request =
  pipeline {| files := [("audio", {| filename := "";
                                     stream := stream audio_file |})];
              form := [] |}.
Proof.
  intros Hup. unfold pipeline.
  assert (contains "audio" (files request) = true) as ->.
  { apply contains_multidict_get. by rewrite Hup. }
  unfold getitem. rewrite Hup. reflexivity.
Qed.

(** X7: of a request the handler reads nothing but the bytes of the first
    file part named [audio]: two requests whose first [audio] parts hold the
    same bytes are handled alike, whatever the file names of the parts, the
    other parts and the form fields. *)
Theorem X7_only_the_first_audio_part_counts (E : env) (request1 request2 : Request)
    (w : world) (audio_file1 audio_file2 : FileStorage) :
  multidict_get (files request1) "audio" = Some audio_file1 →
  multidict_get (files request2) "audio" = Some audio_file2 →
  stream audio_file1 = stream audio_file2 →
  run E (voice_agent request1) w = run E (voice_agent request2) w.
Proof.
  intros Hup1 Hup2 Hsame. unfold voice_agent.
  rewrite (pipeline_reads_first_audio request1 audio_file1 Hup1).
  rewrite (pipeline_reads_first_audio request2 audio_file2 Hup2).
  by rewrite Hsame.
Qed.

Lemma X7_only_the_first_audio_part_counts_witness :
  run E_up (voice_agent crowded_request) w_empty =
  run E_up (voice_agent sample_request) w_empty.
Proof.
  apply (X7_only_the_first_audio_part_counts E_up crowded_request sample_request
           w_empty
           {| filename := "../../etc/passwd"; stream := [x52; x49; x46; x46] |}
           recording).
  - reflexivity.
  - reflexivity.
  - reflexivity.
Defined.

(** X8: the response does not depend on what the temporary directory holds
    when the request arrives: files left there, by failed requests or by
    anyone else, change the names of the handler's temporary files and
    nothing of its answer. *)
Theorem X8_response_ignores_temporary_directory (E : env) (request : Request)
    (m1 m2 : gmap string bytes) (v : view) :
  (run E (voice_agent request) (world_of m1 v)).1 =
  (run E (voice_agent request) (world_of m2 v)).1.
Proof.
  destruct (owned_voice_agent E request v) as [x Hx].
  destruct (owned_run E _ ∅ m1 v _ Hx) as [_ ->]; [apply map_empty_subseteq|].
  by destruct (owned_run E _ ∅ m2 v _ Hx) as [_ ->];
    [apply map_empty_subseteq|].
Qed.

(** ** A file that is not there *)

Section failing_fn.
Context (E : env) {A : Type} (fn : prog A) (e : exn).
Context (m : gmap string bytes).

(** The wrapped function raises [e] without any effect, with the files [m]
    in place. *)
Hypothesis fn_fails : ∀ w, fs w = m → run E fn w = (Raised e, w).

Lemma run_retrying_failing (left n : nat) (w : world) :
  fs w = m →
  ∃ w',
    run E (retrying (wait_random_exponential 1 60) left n fn) w =
      (Raised (RetryError (n + left) (address E (length (calls w))) e), w') ∧
    after w w' (fs w) [] left ∧
    draws w' = draws w + S left.
Proof.
  revert n w. induction left as [|left IH]; intros n w Hm.
  - rewrite retrying_eq, run_bind, run_attempt, fn_fails by done.
    cbn [fst snd]. rewrite run_bind.
    destruct (run_wait E n w) as (q & -> & Hq). cbn.
    eexists. rewrite Nat.add_0_r. split_and!; [done| |cbn; lia].
    split; [done|by rewrite app_nil_r|]. exists []. by rewrite app_nil_r.
  - rewrite retrying_eq, run_bind, run_attempt, fn_fails by done.
    cbn [fst snd]. rewrite run_bind.
    destruct (run_wait E n w) as (q & -> & Hq).
    rewrite run_bind, run_perform. cbn [exec].
    set (w3 := World _ _ _ _).
    destruct (IH (S n) w3 Hm) as (w' & Hrun & Hafter & Hdraws).
    exists w'. split_and!.
    + rewrite Hrun. by rewrite Nat.add_succ_comm.
    + assert (after w w3 (fs w) [] 1) as Hstep.
      { split; [done|by rewrite app_nil_r|]. exists [q].
        split_and!; [done..|]. by apply Forall_singleton. }
      exact (after_trans _ _ _ _ _ _ _ _ _ Hstep Hafter).
    + rewrite Hdraws. subst w3. cbn [draws]. lia.
Qed.
End failing_fn.

(** X9: the file is opened inside the retried function, so a path that names
    no file is retried like a failure of the service: [transcribe_audio]
    takes its five pauses and raises [RetryError] around the
    [FileNotFoundError], and the transcription service is never called. *)
Theorem X9_transcribe_audio_missing_file (E : env) (file_path : string)
    (w : world) :
  fs w !! file_path = None →
  ∃ w',
    run E (transcribe_audio file_path) w =
      (Raised (RetryError 6 (address E (length (calls w)))
                 (FileNotFoundError file_path)), w') ∧
    fs w' = fs w ∧ calls w' = calls w ∧
    (∃ qs, slept w' = slept w ++ qs ∧ length qs = 5 ∧ Forall pause_ok qs).
Proof.
  intros Hnone. unfold transcribe_audio, retry.
  lazymatch goal with
  | |- context [retrying _ _ _ ?fn] =>
      destruct (λ H, run_retrying_failing E fn (FileNotFoundError file_path)
                  (fs w) H 5 1 w eq_refl)
        as (w' & Hrun & [Hfs Hcalls Hs] & _)
  end.
  - intros w1 Hfs. rewrite run_bind, run_perform. cbn [exec].
    by rewrite Hfs, Hnone.
  - exists w'. rewrite app_nil_r in Hcalls.
    split_and!; [exact Hrun|done..].
Qed.

Lemma X9_transcribe_audio_missing_file_witness :
  ∃ w',
    run E_up (transcribe_audio "/tmp/tmp0.wav") w_empty =
      (Raised (RetryError 6 (address E_up (length (calls w_empty)))
                 (FileNotFoundError "/tmp/tmp0.wav")), w') ∧
    fs w' = fs w_empty ∧ calls w' = calls w_empty ∧
    (∃ qs, slept w' = slept w_empty ++ qs ∧ length qs = 5 ∧
           Forall pause_ok qs).
Proof.
  apply (X9_transcribe_audio_missing_file E_up "/tmp/tmp0.wav" w_empty).
  reflexivity.
Defined.

(** ** The pauses of a request *)

Section pause_facts.
Context (E : env).

Local Abbreviation policy := (wait_random_exponential 1 60).

Lemma quiet_perform {X} (op : action X) :
  match op with Sleep _ | RandomRandom => False | _ => True end →
  quiet E (perform op).
Proof.
  intros Hop w. rewrite run_perform.
  destruct op; cbn in Hop |- *; try done;
    repeat match goal with |- context [fs w !! ?p] => destruct (fs w !! p) end;
    done.
Qed.

Lemma quiet_bind {A B} (p : prog A) (f : A → prog B) :
  quiet E p → (∀ a, quiet E (f a)) → quiet E (p ≫= f).
Proof.
  intros Hp Hf w. rewrite run_bind. specialize (Hp w).
  destruct (run E p w) as [[a|e] w1]; cbn [snd] in *; [|done].
  destruct (Hf a w1) as [-> ->]. done.
Qed.

Lemma quiet_ret {A} (a : A) : quiet E (mret a).
Proof. by intros w. Qed.

Lemma quiet_transcribe_fn (path : string) :
  quiet E (f ← perform (ReadAll path);
           perform (transcriptions_create "whisper-1" f)).
Proof. apply quiet_bind; [|intros f]; by apply quiet_perform. Qed.

(** The pauses of the retry loop around a function that does not pause,
    from the attempt that follows failure [i] on: the loop returns after
    some [j] pauses, or gives up after all of them and one more draw. *)
Lemma retrying_pauses {A} (fn : prog A) (left i : nat) (w : world) :
  quiet E fn →
  ∃ j,
    j ≤ left ∧
    slept (run E (retrying policy left (S i) fn) w).2 =
      slept w ++ backoffs_from E (draws w) i j ∧
    ((∃ a, (run E (retrying policy left (S i) fn) w).1 = Ok a) ∧
     draws (run E (retrying policy left (S i) fn) w).2 = draws w + j ∨
     (∃ e, (run E (retrying policy left (S i) fn) w).1 = Raised e) ∧
     j = left ∧
     draws (run E (retrying policy left (S i) fn) w).2 = draws w + S left).
Proof.
  intros Hfn. revert i w. induction left as [|left IH]; intros i w.
  - rewrite retrying_eq, run_bind, run_attempt.
    destruct (Hfn w) as [Hs Hd].
    destruct (run E fn w) as [[a|e] w1]; cbn [fst snd] in *.
    + exists 0. cbn [run mret prog_ret fst snd].
      rewrite backoffs_from_O, app_nil_r.
      split_and!; [done..|]. left. split; [eauto|lia].
    + rewrite run_bind, run_wait_exact. cbn.
      exists 0. rewrite backoffs_from_O, app_nil_r.
      split_and!; [done|done|].
      right. split_and!; [eauto|done|lia].
  - rewrite retrying_eq, run_bind, run_attempt.
    destruct (Hfn w) as [Hs Hd].
    destruct (run E fn w) as [[a|e] w1]; cbn [fst snd] in *.
    + exists 0. cbn [run mret prog_ret fst snd].
      rewrite backoffs_from_O, app_nil_r.
      split_and!; [lia|done|]. left. split; [eauto|lia].
    + rewrite run_bind, run_wait_exact.
      rewrite run_bind, run_perform. cbn [exec fs calls slept draws].
      set (w3 := World _ _ _ _).
      assert (slept w3 = slept w ++ [backoff_pause E (draws w) i]) as Hs3
        by (subst w3; cbn [slept]; by rewrite Hs, Hd).
      assert (draws w3 = S (draws w)) as Hd3
        by (subst w3; cbn [draws]; by rewrite Hd).
      destruct (IH (S i) w3) as (j & Hj & Hslept & Hdraws).
      exists (S j). split_and!; [lia| |].
      * by rewrite Hslept, Hs3, Hd3, backoffs_from_S, <- app_assoc.
      * destruct Hdraws as [[Hok Hdraws]|(Hraised & -> & Hdraws)].
        -- left. split; [done|]. rewrite Hdraws, Hd3. lia.
        -- right. split_and!; [done..|]. rewrite Hdraws, Hd3. lia.
Qed.

Lemma backoff_pause_small (d k : nat) :
  k < 5 → (1 <= backoff_pause E d k <= inject_Z (2 ^ Z.of_nat k))%Q.
Proof.
  intros Hk. destruct (backoff_pause_bounds E d k) as [Hlo Hhi].
  split; [done|]. apply (Qle_trans _ _ _ Hhi). rewrite <- Zle_Qle.
  do 5 (destruct k as [|k]; [done|]). lia.
Qed.

Lemma lookup_backoffs (d j k : nat) (q : Q) :
  backoffs E d j !! k = Some q → k < j ∧ q = backoff_pause E (d + k) k.
Proof.
  unfold backoffs. rewrite list_lookup_fmap.
  destruct (seq 0 j !! k) as [k'|] eqn:Hk; [|done].
  apply lookup_seq in Hk as [-> Hk]. by intros [= <-].
Qed.


Lemma total_app (qs1 qs2 : list Q) :
  (total (qs1 ++ qs2) == total qs1 + total qs2)%Q.
Proof.
  induction qs1 as [|q qs1 IH]; cbn.
  - by rewrite Qplus_0_l.
  - rewrite IH. by rewrite Qplus_assoc.
Qed.

Lemma total_backoffs (d j : nat) :
  j ≤ 5 → (total (backoffs E d j) <= 31)%Q.
Proof.
  intros Hj.
  pose proof (backoff_pause_small (d + 0) 0) as [_ H0]; [lia|].
  pose proof (backoff_pause_small (d + 1) 1) as [_ H1]; [lia|].
  pose proof (backoff_pause_small (d + 2) 2) as [_ H2]; [lia|].
  pose proof (backoff_pause_small (d + 3) 3) as [_ H3]; [lia|].
  pose proof (backoff_pause_small (d + 4) 4) as [_ H4]; [lia|].
  change (inject_Z (2 ^ Z.of_nat 0)) with 1%Q in H0.
  change (inject_Z (2 ^ Z.of_nat 1)) with 2%Q in H1.
  change (inject_Z (2 ^ Z.of_nat 2)) with 4%Q in H2.
  change (inject_Z (2 ^ Z.of_nat 3)) with 8%Q in H3.
  change (inject_Z (2 ^ Z.of_nat 4)) with 16%Q in H4.
  unfold backoffs.
  do 6 (destruct j as [|j];
        [cbn [seq fmap list_fmap total foldr]; lra|]).
  lia.
Qed.

Lemma backoffs_small (d j : nat) :
  j ≤ 5 → Forall (λ q, (1 <= q <= 16)%Q) (backoffs E d j).
Proof.
  intros Hj. apply Forall_lookup. intros k q [Hk ->]%lookup_backoffs.
  destruct (backoff_pause_small (d + k) k) as [Hlo Hhi]; [lia|].
  split; [done|]. apply (Qle_trans _ _ _ Hhi).
  change 16%Q with (inject_Z 16). rewrite <- Zle_Qle.
  do 5 (destruct k as [|k]; [done|]). lia.
Qed.

Lemma pauses_mono (k k' b b' extra : nat) (w w' : world) :
  k ≤ k' → b ≤ b' → pauses k b extra w w' → pauses k' b' extra w w'.
Proof.
  intros Hk Hb (qs & Hslept & Hlen & Hall & Htotal & Hdraws).
  exists qs. split_and!; [done|lia|done| |done].
  apply (Qle_trans _ _ _ Htotal). rewrite <- Zle_Qle. lia.
Qed.

Lemma pauses_trans (k1 k2 b1 b2 extra : nat) (w1 w2 w3 : world) :
  pauses k1 b1 0 w1 w2 → pauses k2 b2 extra w2 w3 →
  pauses (k1 + k2) (b1 + b2) extra w1 w3.
Proof.
  intros (qs1 & Hs1 & Hl1 & Ha1 & Ht1 & Hd1) (qs2 & Hs2 & Hl2 & Ha2 & Ht2 & Hd2).
  exists (qs1 ++ qs2). rewrite length_app.
  split_and!; [by rewrite Hs2, Hs1, app_assoc|lia|by apply Forall_app| |lia].
  rewrite total_app, Nat2Z.inj_add, inject_Z_plus.
  by apply Qplus_le_compat.
Qed.

Lemma pausing_quiet {A} (p : prog A) : quiet E p → pausing E 0 0 p.
Proof.
  intros Hp w. destruct (Hp w) as [Hs Hd]. exists 0.
  split_and!; [|lia|done].
  exists []. rewrite app_nil_r. cbn. split_and!; [done|lia|done|done|lia].
Qed.

Lemma pausing_bind {A B} (p : prog A) (f : A → prog B) (k1 b1 k2 b2 k b : nat) :
  k1 + k2 ≤ k → b1 + b2 ≤ b →
  pausing E k1 b1 p → (∀ a, pausing E k2 b2 (f a)) →
  pausing E k b (p ≫= f).
Proof.
  intros Hk Hb Hp Hf w. rewrite run_bind.
  destruct (Hp w) as (x1 & Hp1 & Hx1 & Hok1).
  destruct (run E p w) as [[a|e] w1]; cbn [fst snd] in *.
  - rewrite (Hok1 a eq_refl) in Hp1.
    destruct (Hf a w1) as (x2 & Hp2 & Hx2 & Hok2).
    exists x2. split_and!; [|done..].
    apply (pauses_mono (k1 + k2) _ (b1 + b2)); [done..|].
    exact (pauses_trans _ _ _ _ _ _ _ _ Hp1 Hp2).
  - exists x1. split_and!; [|done..].
    apply (pauses_mono k1 _ b1); [lia..|done].
Qed.

Lemma pausing_wrapped {A} (fn : prog A) :
  quiet E fn → pausing E 5 31 (retry policy 6 fn).
Proof.
  intros Hfn w. unfold retry. change (6 - 1) with 5.
  destruct (retrying_pauses fn 5 0 w Hfn) as (j & Hj & Hslept & Hdraws).
  destruct Hdraws as [[_ Hdraws]|([e He] & -> & Hdraws)].
  - exists 0. split_and!; [|lia|done].
    exists (backoffs E (draws w) j).
    split_and!; [done| |by apply backoffs_small|by apply total_backoffs|].
    + unfold backoffs. by rewrite length_fmap, length_seq.
    + unfold backoffs. rewrite length_fmap, length_seq, Hdraws. lia.
  - exists 1. split_and!; [|lia|by rewrite He].
    exists (backoffs E (draws w) 5).
    split_and!; [done| |by apply backoffs_small|by apply total_backoffs|].
    + unfold backoffs. by rewrite length_fmap, length_seq.
    + unfold backoffs. rewrite length_fmap, length_seq, Hdraws. lia.
Qed.

Lemma pausing_respond (p1 text_response p2 : string) (out : bytes) :
  pausing E 0 0 (respond p1 text_response p2 out).
Proof.
  apply pausing_quiet. unfold respond.
  apply quiet_bind; [by apply quiet_perform|intros _].
  apply quiet_bind; [by apply quiet_perform|intros audio_data].
  apply quiet_bind; [by apply quiet_perform|intros _].
  apply quiet_bind; [by apply quiet_perform|intros _].
  apply quiet_ret.
Qed.

Lemma pausing_synthesize (p1 : string) (c : ChatCompletion) :
  pausing E 5 31 (synthesize p1 c).
Proof.
  unfold synthesize.
  eapply (pausing_bind _ _ 0 0 5 31 5 31); [lia|lia| |].
  { apply pausing_quiet. intros w. by destruct (choices c). }
  intros choice.
  eapply (pausing_bind _ _ 0 0 5 31 5 31); [lia|lia| |].
  { by apply pausing_quiet, quiet_perform. }
  intros temp_speech.
  eapply (pausing_bind _ _ 5 31 0 0 5 31); [lia|lia| |].
  { unfold generate_speech. by apply pausing_wrapped, quiet_perform. }
  intros out. apply pausing_respond.
Qed.

Lemma pausing_complete (p1 : string) (t : Transcription) :
  pausing E 10 62 (complete p1 t).
Proof.
  unfold complete.
  eapply (pausing_bind _ _ 5 31 5 31 10 62); [lia|lia| |].
  { unfold generate_chat_response.
    by apply pausing_wrapped, quiet_perform. }
  intros c. apply pausing_synthesize.
Qed.

Lemma pausing_pipeline (request : Request) :
  pausing E 15 93 (pipeline request).
Proof.
  unfold pipeline. destruct (negb _).
  { intros w. exists 0. split_and!; [|lia|done].
    exists []. cbn. rewrite app_nil_r. split_and!; [done|lia|done|done|lia]. }
  eapply (pausing_bind _ _ 0 0 15 93 15 93); [lia|lia| |].
  { apply pausing_quiet. intros w. unfold getitem.
    by destruct (multidict_get _ _). }
  intros audio_file.
  eapply (pausing_bind _ _ 0 0 15 93 15 93); [lia|lia| |].
  { by apply pausing_quiet, quiet_perform. }
  intros temp_audio.
  eapply (pausing_bind _ _ 0 0 15 93 15 93); [lia|lia| |].
  { by apply pausing_quiet, quiet_perform. }
  intros _.
  eapply (pausing_bind _ _ 5 31 10 62 15 93); [lia|lia| |].
  { unfold transcribe_audio. apply pausing_wrapped, quiet_transcribe_fn. }
  intros t. apply (pausing_complete temp_audio t).
Qed.
End pause_facts.


(** X11: whatever the services do, the retry decorators make one request to
    the handler pause at most 15 times, each time for between 1 and 16
    seconds, for at most 93 seconds in all.  One random number is drawn for
    each pause, and one more when a stage has given up: none more when the
    response is not a 500. *)
Theorem X11_request_pauses (E : env) (request : Request) (w : world) :
  ∃ qs,
    slept (run E (voice_agent request) w).2 = slept w ++ qs ∧
    length qs ≤ 15 ∧
    Forall (λ q, (1 <= q <= 16)%Q) qs ∧
    (total qs <= 93)%Q ∧
    draws w + length qs ≤ draws (run E (voice_agent request) w).2 ∧
    draws (run E (voice_agent request) w).2 ≤ draws w + length qs + 1 ∧
    (∀ response,
       (run E (voice_agent request) w).1 = Ok response →
       status response ≠ 500 →
       draws (run E (voice_agent request) w).2 = draws w + length qs).
Proof.
  destruct (pausing_pipeline E request w)
    as (extra & (qs & Hslept & Hlen & Hall & Htotal & Hdraws) & Hextra & Hok).
  rewrite run_voice_agent.
  destruct (run E (pipeline request) w) as [[response|e] w'];
    cbn [fst snd] in *.
  - exists qs. rewrite (Hok response eq_refl) in Hdraws.
    split_and!; [done..|lia|lia|]. intros _ _ _. lia.
  - exists qs. split_and!; [done..|lia|lia|].
    intros response [= <-] H500. done.
Qed.

(** ** The encoding, and the page that decodes it *)

Section Base64_shape.
Import Base64.

Ltac euclid := intros; zify; Z.to_euclidean_division_equations; lia.

Lemma bytes_ind3 (P : bytes → Prop) :
  P [] → (∀ a, P [a]) → (∀ a b, P [a; b]) →
  (∀ a b c rest, P rest → P (a :: b :: c :: rest)) →
  ∀ bs, P bs.
Proof.
  intros H0 H1 H2 H3 bs.
  remember (length bs) as n eqn:Hn. revert bs Hn.
  induction n as [n IH] using lt_wf_ind. intros bs Hn.
  destruct bs as [|a [|b [|c rest]]]; [done..|].
  apply H3, (IH (length rest)); [cbn in Hn; lia|done].
Qed.

Lemma padding_add_3 (n : nat) : padding (S (S (S n))) = padding n.
Proof.
  unfold padding. replace (S (S (S n))) with (n + 1 * 3) by lia.
  by rewrite Nat.Div0.mod_add.
Qed.

Lemma b64encode_sextets (bs : bytes) :
  list_ascii_of_string (b64encode bs) =
  (char_of <$> sextets bs) ++ replicate (padding (length bs)) pad.
Proof.
  induction bs as [|a|a b|a b c rest IH] using bytes_ind3; [done..|].
  cbn [length]. rewrite padding_add_3.
  cbn [b64encode sextets list_ascii_of_string fmap list_fmap app].
  by rewrite IH.
Qed.

Lemma sextets_lt (bs : bytes) : Forall (λ v, (v < 64)%N) (sextets bs).
Proof.
  induction bs as [|a|a b|a b c rest IH] using bytes_ind3; cbn [sextets].
  - done.
  - pose proof (to_N_lt a). repeat constructor; euclid.
  - pose proof (to_N_lt a). pose proof (to_N_lt b).
    repeat constructor; euclid.
  - pose proof (to_N_lt a). pose proof (to_N_lt b). pose proof (to_N_lt c).
    repeat (constructor; [euclid|]). done.
Qed.

Lemma length_sextets (bs : bytes) :
  length (sextets bs) + padding (length bs) = 4 * ((length bs + 2) / 3) ∧
  length (sextets bs) mod 4 ≠ 1.
Proof.
  induction bs as [|a|a b|a b c rest [IH1 IH2]] using bytes_ind3;
    [by split..|].
  cbn [length sextets]. rewrite padding_add_3.
  replace (S (S (S (length rest))) + 2) with (length rest + 2 + 1 * 3) by lia.
  rewrite Nat.div_add by done.
  replace (S (S (S (S (length (sextets rest))))))
    with (length (sextets rest) + 1 * 4) by lia.
  rewrite Nat.Div0.mod_add. split; [lia|done].
Qed.

Lemma length_list_ascii_of_string (s : string) :
  length (list_ascii_of_string s) = String.length s.
Proof. induction s as [|c s IH]; cbn; by rewrite ?IH. Qed.

Lemma char_of_value (v : N) :
  (v < 64)%N →
  value_of (char_of v) = Some v ∧
  Ascii.eqb (char_of v) pad = false ∧
  ascii_whitespace (char_of v) = false.
Proof.
  intros Hv. split_and!;
    [by apply value_of_char_of|by apply char_of_not_pad|].
  rewrite <- (N2Nat.id v).
  assert (Hk : (N.to_nat v < 64)%nat) by lia.
  revert Hk. generalize (N.to_nat v). intros k Hk.
  do 64 (destruct k as [|k]; [reflexivity|]). lia.
Qed.

(** X12: the encoding of [n] bytes has [4 * ceil(n / 3)] characters: those of
    the 64-character alphabet, followed by no, one or two [=], as [n] leaves
    0, 2 or 1 modulo 3. *)
Theorem X12_b64encode_shape (bs : bytes) :
  String.length (b64encode bs) = 4 * ((length bs + 2) / 3) ∧
  ∃ core,
    list_ascii_of_string (b64encode bs) =
      core ++ replicate ((3 - length bs mod 3) mod 3) pad ∧
    Forall (λ c, is_Some (value_of c)) core.
Proof.
  split.
  - rewrite <- length_list_ascii_of_string, b64encode_sextets.
    rewrite length_app, length_fmap, length_replicate.
    apply length_sextets.
  - exists (char_of <$> sextets bs). split; [apply b64encode_sextets|].
    apply Forall_fmap. eapply Forall_impl; [apply sextets_lt|].
    intros v Hv. unfold compose. by rewrite value_of_char_of.
Qed.

Lemma filter_Forall {A} (P : A → Prop) `{!∀ x, Decision (P x)} (l : list A) :
  Forall P l → filter P l = l.
Proof.
  induction 1 as [|x l Hx _ IH]; [done|].
  by rewrite filter_cons_True, IH.
Qed.

Lemma filter_encoded (vs : list N) (k : nat) :
  Forall (λ v, (v < 64)%N) vs →
  filter (λ c, ascii_whitespace c = false)
    ((char_of <$> vs) ++ replicate k pad) =
  (char_of <$> vs) ++ replicate k pad.
Proof.
  intros Hvs. apply filter_Forall, Forall_app. split.
  - apply Forall_fmap. eapply Forall_impl; [exact Hvs|].
    intros v Hv. by apply char_of_value.
  - by apply Forall_replicate.
Qed.

Lemma remove_padding_encoded (vs : list N) (k : nat) :
  Forall (λ v, (v < 64)%N) vs → k ≤ 2 →
  remove_padding ((char_of <$> vs) ++ replicate k pad) = char_of <$> vs.
Proof.
  intros Hvs Hk. induction Hvs as [|v vs Hv _ IH].
  - destruct k as [|[|[|k]]]; [reflexivity..|lia].
  - cbn [fmap list_fmap app remove_padding].
    destruct (char_of_value v Hv) as (_ & -> & _). cbn [andb].
    f_equal. exact IH.
Qed.

Lemma mapM_value_of (vs : list N) :
  Forall (λ v, (v < 64)%N) vs → mapM value_of (char_of <$> vs) = Some vs.
Proof.
  intros Hvs. induction Hvs as [|v vs Hv _ IH]; [done|].
  cbn [fmap list_fmap mapM]. rewrite value_of_char_of by done. cbn.
  change (list_fmap N ascii char_of vs) with (char_of <$> vs).
  by rewrite IH.
Qed.

Lemma octets_sextets (bs : bytes) : octets (sextets bs) = bs.
Proof.
  induction bs as [|a|a b|a b c rest IH] using bytes_ind3.
  - done.
  - pose proof (to_N_lt a) as Ha. cbn [sextets octets]. unfold byte1.
    replace (_ + _)%N with (Byte.to_N a) by euclid.
    by rewrite byte_of_to_N.
  - pose proof (to_N_lt a) as Ha. pose proof (to_N_lt b) as Hb.
    cbn [sextets octets]. unfold byte1, byte2.
    rewrite byte1_group by done.
    replace (Byte.to_N b mod 16 * 4)%N
      with (Byte.to_N b mod 16 * 4 + 0 / 64)%N by euclid.
    rewrite byte2_group by done.
    by rewrite !byte_of_to_N.
  - pose proof (to_N_lt a) as Ha. pose proof (to_N_lt b) as Hb.
    pose proof (to_N_lt c) as Hc.
    cbn [sextets octets]. unfold byte1, byte2, byte3.
    rewrite byte1_group, byte2_group, byte3_group by done.
    by rewrite !byte_of_to_N, IH.
Qed.

Lemma padding_le (n : nat) : padding n ≤ 2.
Proof. unfold padding. pose proof (Nat.mod_upper_bound (3 - n mod 3) 3). lia. Qed.

(** The browser's decoder undoes the server's encoder. *)
Lemma atob_encoded (bs : bytes) :
  atob (b64encode bs) = Some (string_of_list_ascii (ascii_of_byte <$> bs)).
Proof.
  pose proof (sextets_lt bs) as Hlt.
  pose proof (length_sextets bs) as [Hlen Hmod].
  unfold atob. rewrite b64encode_sextets, filter_encoded by done.
  assert (length ((char_of <$> sextets bs) ++
                  replicate (padding (length bs)) pad) mod 4 = 0) as Hfour.
  { rewrite length_app, length_fmap, length_replicate, Hlen.
    rewrite Nat.mul_comm. apply Nat.Div0.mod_mul. }
  rewrite (decide_True _ _ Hfour).
  rewrite remove_padding_encoded by (done || apply padding_le).
  rewrite length_fmap, decide_False by done.
  rewrite mapM_value_of by done. cbn.
  by rewrite octets_sextets.
Qed.

Lemma audioArray_binary_string (bs : bytes) :
  audioArray (string_of_list_ascii (ascii_of_byte <$> bs)) = bs.
Proof.
  unfold audioArray. rewrite list_ascii_of_string_of_list_ascii.
  rewrite <- list_fmap_compose.
  induction bs as [|b bs IH]; [done|].
  cbn. by rewrite byte_of_ascii_of_byte, IH.
Qed.
End Base64_shape.

(** X13: what the page's script decodes from the [audio_base64] field the
    handler encodes is the audio itself: [atob] and the copy into the byte
    array undo [base64.b64encode], for every byte string. *)
Theorem X13_page_decodes_what_the_handler_encodes (bs : bytes) :
  ∃ audioData,
    atob (Base64.b64encode bs) = Some audioData ∧ audioArray audioData = bs.
Proof.
  eexists. split; [apply atob_encoded|apply audioArray_binary_string].
Qed.

Lemma lookup_success_response (text_response : string) (speech_audio : bytes) :
  let result := body (success_response text_response speech_audio) in
  result !! "error" = None ∧
  result !! "text_response" = Some text_response ∧
  result !! "audio_base64" = Some (Base64.b64encode speech_audio).
Proof.
  unfold success_response, jsonify.
  cbn [body list_to_map foldr curry fst snd].
  split_and!.
  - by rewrite !lookup_insert_ne, lookup_empty.
  - by rewrite lookup_insert_eq.
  - by rewrite lookup_insert_ne, lookup_insert_eq.
Qed.

Lemma show_result_success (text_response : string) (speech_audio : bytes)
    (p : page) :
  show_result (body (success_response text_response speech_audio)) p =
  {| status_textContent := "Response: " +:+ text_response;
     audioPlayback_src := Some speech_audio |}.
Proof.
  destruct (lookup_success_response text_response speech_audio)
    as (Herror & Htext & Haudio).
  unfold show_result. rewrite Herror, Htext, Haudio.
  cbn [ToBoolean ToString].
  by rewrite atob_encoded, audioArray_binary_string.
Qed.

Lemma show_result_error (message : string) (p : page) :
  message ≠ "" →
  show_result {[ "error" := message ]} p =
  {| status_textContent := "Error: " +:+ message;
     audioPlayback_src := audioPlayback_src p |}.
Proof.
  intros Hne. unfold show_result. rewrite lookup_singleton_eq. cbn.
  destruct (String.eqb_spec message ""); done.
Qed.

(** X14: when all three stages answer the recording the page has posted, the
    page shows the reply text after "Response: " and plays exactly the bytes
    the speech service returned. *)
Theorem X14_page_plays_the_synthesized_audio (E : env) (audioChunks : list bytes)
    (w : world) (p : page)
    audio_file j1 t j2 c choice j3 speech_audio :
  all_answered E (formData audioChunks) w audio_file j1 t j2 c choice j3
    speech_audio →
  ∃ response w',
    run E (voice_agent (formData audioChunks)) w = (Ok response, w') ∧
    show_result (body response) p =
      {| status_textContent := "Response: " +:+ content (message choice);
         audioPlayback_src := Some speech_audio |}.
Proof.
  intros Hall.
  destruct (all_answered_run _ _ _ _ _ _ _ _ _ _ _ Hall) as (w' & Hrun & _).
  eexists _, w'. rewrite run_voice_agent, Hrun. split; [done|].
  apply show_result_success.
Qed.

Lemma X14_page_plays_the_synthesized_audio_witness :
  ∃ response w',
    run E_up (voice_agent (formData [[x52; x49]; [x46; x46]])) w_empty =
      (Ok response, w') ∧
    show_result (body response) (Page "Processing..." None) =
      {| status_textContent := "Response: " +:+ "It is noon.";
         audioPlayback_src := Some [x49; x44; x33] |}.
Proof.
  apply (X14_page_plays_the_synthesized_audio E_up [[x52; x49]; [x46; x46]]
           w_empty (Page "Processing..." None)
           recording 0 {| text := "What time is it?" |}
           0 (reply "It is noon.")
           {| message := {| role := "assistant"; content := "It is noon." |} |}
           0 [x49; x44; x33]).
  split.
  - reflexivity.
  - split; [lia|]. split; [|reflexivity]. intros k Hk. lia.
  - split; [lia|]. split; [|reflexivity]. intros k Hk. lia.
  - reflexivity.
  - split; [lia|]. split; [|reflexivity]. intros k Hk. lia.
Defined.

(** X15: the request the page posts always has its [audio] part, so it is
    never answered with 400; whenever the answer is not 200, the page shows
    the handler's message after "Error: " and leaves the player as it was;
    when it is 200, the page hands audio to the player. *)
Theorem X15_page_reports_every_failure (E : env) (audioChunks : list bytes)
    (w : world) (p : page) :
  ∃ response w',
    run E (voice_agent (formData audioChunks)) w = (Ok response, w') ∧
    status response ≠ 400 ∧
    (status response ≠ 200 →
     ∃ message,
       body response !! "error" = Some message ∧
       show_result (body response) p =
         {| status_textContent := "Error: " +:+ message;
            audioPlayback_src := audioPlayback_src p |}) ∧
    (status response = 200 →
     is_Some (audioPlayback_src (show_result (body response) p))).
Proof.
  destruct (voice_agent_served E (formData audioChunks) w)
    as (response & w' & Hrun & Hs).
  exists response, w'. split; [done|].
  destruct Hs as [Hno
         |audio_file e addr w1 _ _ _
         |audio_file j1 t e addr w1 _ _ _ _
         |audio_file j1 t j2 c w1 _ _ _ _ _
         |audio_file j1 t j2 c choice e addr w1 _ _ _ _ _ _
         |audio_file j1 t j2 c choice j3 out w1 _ _].
  - done.
  - split_and!; [done| |done]. intros _. eexists.
    split; [apply lookup_singleton_eq|]. by apply show_result_error.
  - split_and!; [done| |done]. intros _. eexists.
    split; [apply lookup_singleton_eq|]. by apply show_result_error.
  - split_and!; [done| |done]. intros _. eexists.
    split; [apply lookup_singleton_eq|]. by apply show_result_error.
  - split_and!; [done| |done]. intros _. eexists.
    split; [apply lookup_singleton_eq|]. by apply show_result_error.
  - split_and!; [done|done|]. intros _. by rewrite show_result_success.
Qed.
